(** * Snappy block encoder and framed writer (encode.go)

    A shallow embedding of [encode.go] of the Snappy-Go package and the
    properties its specification states about it.

    Conventions of the embedding.
    - A Go [int], [uint], [uint32] or [uint64] is a [Z]; where the source
      computes in an unsigned type the wrap-around is written out
      ([u32], [u64], [u8], [uint16]).  Every Go [int] of the encoder stays
      far below [2^63], so signed arithmetic is exact.
    - A byte is a [Byte.byte]; a slice is a [list byte].  Where the source
      writes through a sub-slice ([dst[d:]]) the embedding splices the
      modified sub-slice back into the parent.
    - A run-time panic (index or slice out of range, [panic(ErrTooLarge)])
      is the result [Panic]; loops take fuel, and running out of it is the
      separate result [OutOfFuel], which the theorems rule out. *)

From Stdlib Require Import ZArith Lia Bool.
From Stdlib Require Import Strings.Byte.
From stdpp Require Import base list.

Local Open Scope Z_scope.

(** ** Bytes and fixed-width integers *)

Definition b2z (b : byte) : Z := Z.of_N (Byte.to_N b).

(** [uint8(z)]: the low eight bits. *)
Definition u8 (z : Z) : byte :=
  match Byte.of_N (Z.to_N (z mod 256)) with
  | Some b => b
  | None => x00
  end.

Definition uint16 (z : Z) : Z := z mod 2 ^ 16.
Definition u32 (z : Z) : Z := z mod 2 ^ 32.
Definition u64 (z : Z) : Z := z mod 2 ^ 64.

(** [a | b] on bytes, and [a << k] on a [uint8]. *)
Definition bor (a b : byte) : byte := u8 (Z.lor (b2z a) (b2z b)).
Definition bshl (a : byte) (k : Z) : byte := u8 (Z.shiftl (b2z a) k).

(** ** Results of partial computations *)

Inductive panic : Type :=
| IndexOutOfRange
| ErrTooLarge.

Inductive res (A : Type) : Type :=
| Ok (a : A)
| Panic (p : panic)
| OutOfFuel.
Arguments Ok {A} a.
Arguments Panic {A} p.
Arguments OutOfFuel {A}.

Definition bind {A B} (m : res A) (k : A -> res B) : res B :=
  match m with
  | Ok a => k a
  | Panic p => Panic p
  | OutOfFuel => OutOfFuel
  end.

Notation "'let*' p ':=' m 'in' k" := (bind m (fun p => k))
  (at level 10, p pattern, k at level 200).

(** ** Slices *)

Definition len {A} (l : list A) : Z := Z.of_nat (length l).

(** [l[i]], with Go's bounds check. *)
Definition index {A} (l : list A) (i : Z) : res A :=
  if (0 <=? i) && (i <? len l) then
    match l !! Z.to_nat i with
    | Some x => Ok x
    | None => Panic IndexOutOfRange
    end
  else Panic IndexOutOfRange.

(** [l[i] = x], with Go's bounds check. *)
Definition store {A} (l : list A) (i : Z) (x : A) : res (list A) :=
  if (0 <=? i) && (i <? len l) then Ok (<[Z.to_nat i := x]> l)
  else Panic IndexOutOfRange.

(** [l[lo:hi]], with Go's bounds check ([0 <= lo <= hi <= len(l)]; every
    slice of the encoder has its capacity equal to its length, except
    [Writer.ibuf], which is modelled apart). *)
Definition slice {A} (l : list A) (lo hi : Z) : res (list A) :=
  if (0 <=? lo) && (lo <=? hi) && (hi <=? len l) then
    Ok (take (Z.to_nat (hi - lo)) (drop (Z.to_nat lo) l))
  else Panic IndexOutOfRange.

(** [l[lo:]]. *)
Definition slice_from {A} (l : list A) (lo : Z) : res (list A) :=
  slice l lo (len l).

(** The parent slice after its sub-slice [l[lo:]] has become [sub]. *)
Definition splice {A} (l : list A) (lo : Z) (sub : list A) : list A :=
  take (Z.to_nat lo) l ++ sub.

(** [copy(dst, src)]: copies [min(len(dst), len(src))] elements and returns
    that number; it never panics. *)
Definition copy {A} (dst src : list A) : list A * Z :=
  let n := Z.min (len dst) (len src) in
  (take (Z.to_nat n) src ++ drop (Z.to_nat n) dst, n).

(** ** Constants of the package that [encode.go] uses *)

(** Modelled from the spec: the tag kinds of section 3 ([snappy.go], where
    the source declares them, is not among the source files). *)
Definition tagLiteral : byte := x00.
Definition tagCopy1 : byte := x01.
Definition tagCopy2 : byte := x02.
Definition tagCopy4 : byte := x03.

(** Modelled from the spec: [MAX_BLOCK_SIZE = 65536]. *)
Definition maxBlockSize : Z := 65536.

(** ** load32, load64 *)

Definition load32 (b : list byte) (i : Z) : res Z :=
  let* b := slice b i (i + 4) in
  let* b0 := index b 0 in
  let* b1 := index b 1 in
  let* b2 := index b 2 in
  let* b3 := index b 3 in
  Ok (Z.lor (Z.lor (Z.lor (b2z b0) (Z.shiftl (b2z b1) 8))
                   (Z.shiftl (b2z b2) 16))
            (Z.shiftl (b2z b3) 24)).

Definition load64 (b : list byte) (i : Z) : res Z :=
  let* b := slice b i (i + 8) in
  let* b0 := index b 0 in
  let* b1 := index b 1 in
  let* b2 := index b 2 in
  let* b3 := index b 3 in
  let* b4 := index b 4 in
  let* b5 := index b 5 in
  let* b6 := index b 6 in
  let* b7 := index b 7 in
  Ok (Z.lor (Z.lor (Z.lor (Z.lor (Z.lor (Z.lor (Z.lor
       (b2z b0) (Z.shiftl (b2z b1) 8)) (Z.shiftl (b2z b2) 16))
       (Z.shiftl (b2z b3) 24)) (Z.shiftl (b2z b4) 32))
       (Z.shiftl (b2z b5) 40)) (Z.shiftl (b2z b6) 48))
       (Z.shiftl (b2z b7) 56)).

(** ** emitLiteral *)

(** [emitLiteral(dst, lit)]: the buffer after the call and the number of
    bytes written.  [n] is [uint(len(lit)-1)], which wraps for an empty
    [lit]. *)
Definition emitLiteral (dst lit : list byte) : res (list byte * Z) :=
  let n := u64 (len lit - 1) in
  let* (dst, i) :=
    (if n <? 60 then
       let* dst := store dst 0 (bor (bshl (u8 n) 2) tagLiteral) in
       Ok (dst, 1)
     else if n <? 2 ^ 8 then
       let* dst := store dst 0 (bor (bshl (u8 60) 2) tagLiteral) in
       let* dst := store dst 1 (u8 n) in
       Ok (dst, 2)
     else
       let* dst := store dst 0 (bor (bshl (u8 61) 2) tagLiteral) in
       let* dst := store dst 1 (u8 n) in
       let* dst := store dst 2 (u8 (Z.shiftr n 8)) in
       Ok (dst, 3)) in
  let* sub := slice_from dst i in
  let '(sub, c) := copy sub lit in
  Ok (splice dst i sub, i + c).

(** ** emitCopy *)

(** The loop [for length >= 68] of [emitCopy]. *)
Fixpoint emitCopy_loop (fuel : nat) (dst : list byte) (offset length i : Z)
  : res (list byte * Z * Z) :=
  if length >=? 68 then
    match fuel with
    | O => OutOfFuel
    | S fuel =>
        let* dst := store dst (i + 0) (bor (bshl (u8 63) 2) tagCopy2) in
        let* dst := store dst (i + 1) (u8 offset) in
        let* dst := store dst (i + 2) (u8 (Z.shiftr offset 8)) in
        emitCopy_loop fuel dst offset (length - 64) (i + 3)
    end
  else Ok (dst, length, i).

Definition emitCopy (dst : list byte) (offset length : Z)
  : res (list byte * Z) :=
  let* (dst, length, i) := emitCopy_loop (Z.to_nat length) dst offset length 0 in
  let* (dst, length, i) :=
    (if length >? 64 then
       let* dst := store dst (i + 0) (bor (bshl (u8 59) 2) tagCopy2) in
       let* dst := store dst (i + 1) (u8 offset) in
       let* dst := store dst (i + 2) (u8 (Z.shiftr offset 8)) in
       Ok (dst, length - 60, i + 3)
     else Ok (dst, length, i)) in
  if (length >=? 12) || (offset >=? 2048) then
    let* dst := store dst (i + 0) (bor (bshl (u8 (length - 1)) 2) tagCopy2) in
    let* dst := store dst (i + 1) (u8 offset) in
    let* dst := store dst (i + 2) (u8 (Z.shiftr offset 8)) in
    Ok (dst, i + 3)
  else
    let* dst := store dst (i + 0)
                  (bor (bor (bshl (u8 (Z.shiftr offset 8)) 5)
                            (bshl (u8 (length - 4)) 2)) tagCopy1) in
    let* dst := store dst (i + 1) (u8 offset) in
    Ok (dst, i + 2).

(** ** MaxEncodedLen *)

(** [int] is taken to be 64 bits wide, so that [int(n)] is exact for
    [n <= 0xffffffff]. *)
Definition MaxEncodedLen (srcLen : Z) : Z :=
  let n := u64 srcLen in
  if n >? 0xffffffff then -1
  else
    let n := u64 (32 + n + n / 6) in
    if n >? 0xffffffff then -1 else n.

(** ** The hash table of encodeBlock *)

Definition inputMargin : Z := 16 - 1.
Definition minNonLiteralBlockSize : Z := 1 + 1 + inputMargin.
Definition maxTableSize : Z := Z.shiftl 1 14.
Definition tableMask : Z := maxTableSize - 1.

Definition hash (u shift : Z) : Z := Z.shiftr (u32 (u * 0x1e35a7bd)) shift.

(** The loop [for tableSize < maxTableSize && tableSize < len(src)] that
    opens [encodeBlock], on [n = len(src)]; it returns [(shift, tableSize)]. *)
Fixpoint tableSize_loop (fuel : nat) (n shift tableSize : Z) : res (Z * Z) :=
  if (tableSize <? maxTableSize) && (tableSize <? n) then
    match fuel with
    | O => OutOfFuel
    | S fuel => tableSize_loop fuel n (u32 (shift - 1)) (tableSize * 2)
    end
  else Ok (shift, tableSize).

Definition tableParams (n : Z) : res (Z * Z) :=
  tableSize_loop 6 n (u32 (32 - 8)) (Z.shiftl 1 8).

(** ** encodeBlock *)

(** What [encodeBlock] does besides filling [dst], recorded in the order it
    happens: its calls of the two emitters and its stores into the hash
    table (with the value before the [uint16] conversion). *)
Inductive event : Type :=
| CallEmitLiteral (lo hi : Z)          (* emitLiteral(dst[d:], src[lo:hi]) *)
| CallEmitCopy (base candidate s : Z)  (* emitCopy(dst[d:], base-candidate, s-base) *)
| TableStore (s : Z).                  (* table[h&tableMask] = uint16(s) *)

(** How the inner search loop is left. *)
Inductive search_exit : Type :=
| SearchFound (s candidate nextHash : Z) (table : list Z) (log : list event)
| SearchRemainder (table : list Z) (log : list event).

(** How the copy loop is left. *)
Inductive copy_exit : Type :=
| CopyRemainder (dst : list byte) (d : Z) (table : list Z)
                (log : list event) (nextEmit : Z)
| CopyBreak (dst : list byte) (d : Z) (table : list Z)
            (log : list event) (nextEmit s nextHash : Z).

Section EncodeBlock.

Variable src : list byte.
Variable shift : Z.
Variable sLimit : Z.

(** [for i := candidate + 4; s < len(src) && src[i] == src[s];
    i, s = i+1, s+1 {}]; the result is the final [s]. *)
Fixpoint extend (fuel : nat) (i s : Z) : res Z :=
  if s <? len src then
    let* a := index src i in
    let* b := index src s in
    if Byte.eqb a b then
      match fuel with
      | O => OutOfFuel
      | S fuel => extend fuel (i + 1) (s + 1)
      end
    else Ok s
  else Ok s.

(** The inner loop that looks for a 4-byte match. *)
Fixpoint search (fuel : nat) (table : list Z) (log : list event)
         (skip nextS nextHash : Z) : res search_exit :=
  match fuel with
  | O => OutOfFuel
  | S fuel =>
      let s := nextS in
      let bytesBetweenHashLookups := Z.shiftr skip 5 in
      let nextS := s + bytesBetweenHashLookups in
      let skip := skip + bytesBetweenHashLookups in
      if nextS >? sLimit then Ok (SearchRemainder table log)
      else
        let* candidate := index table (Z.land nextHash tableMask) in
        let* table := store table (Z.land nextHash tableMask) (uint16 s) in
        let log := log ++ [TableStore s] in
        let* x := load32 src nextS in
        let nextHash := hash x shift in
        let* a := load32 src s in
        let* b := load32 src candidate in
        if a =? b then Ok (SearchFound s candidate nextHash table log)
        else search fuel table log skip nextS nextHash
  end.

(** The loop that emits a copy and looks for another one right after. *)
Fixpoint copyLoop (fuel : nat) (dst : list byte) (d : Z) (table : list Z)
         (log : list event) (s candidate : Z) : res copy_exit :=
  match fuel with
  | O => OutOfFuel
  | S fuel =>
      let base := s in
      let s := s + 4 in
      let* s := extend (length src) (candidate + 4) s in
      let* sub := slice_from dst d in
      let* (sub, n) := emitCopy sub (base - candidate) (s - base) in
      let dst := splice dst d sub in
      let d := d + n in
      let log := log ++ [CallEmitCopy base candidate s] in
      let nextEmit := s in
      if s >=? sLimit then Ok (CopyRemainder dst d table log nextEmit)
      else
        let* x := load64 src (s - 1) in
        let prevHash := hash (u32 (Z.shiftr x 0)) shift in
        let* table :=
          store table (Z.land prevHash tableMask) (uint16 (s - 1)) in
        let log := log ++ [TableStore (s - 1)] in
        let currHash := hash (u32 (Z.shiftr x 8)) shift in
        let* candidate := index table (Z.land currHash tableMask) in
        let* table := store table (Z.land currHash tableMask) (uint16 s) in
        let log := log ++ [TableStore s] in
        let* c := load32 src candidate in
        if negb (u32 (Z.shiftr x 8) =? c) then
          let nextHash := hash (u32 (Z.shiftr x 16)) shift in
          Ok (CopyBreak dst d table log nextEmit (s + 1) nextHash)
        else copyLoop fuel dst d table log s candidate
  end.

(** The outer [for] loop, up to [emitRemainder]; the result is the buffer,
    [d], the log and [nextEmit]. *)
Fixpoint mainLoop (fuel : nat) (dst : list byte) (d : Z) (table : list Z)
         (log : list event) (nextEmit s nextHash : Z)
  : res (list byte * Z * list event * Z) :=
  match fuel with
  | O => OutOfFuel
  | S fuel =>
      let skip := 32 in
      let nextS := s in
      let* r := search (length src) table log skip nextS nextHash in
      match r with
      | SearchRemainder table log => Ok (dst, d, log, nextEmit)
      | SearchFound s candidate nextHash table log =>
          let* sub := slice_from dst d in
          let* lit := slice src nextEmit s in
          let* (sub, n) := emitLiteral sub lit in
          let dst := splice dst d sub in
          let d := d + n in
          let log := log ++ [CallEmitLiteral nextEmit s] in
          let* r := copyLoop (length src) dst d table log s candidate in
          match r with
          | CopyRemainder dst d table log nextEmit =>
              Ok (dst, d, log, nextEmit)
          | CopyBreak dst d table log nextEmit s nextHash =>
              mainLoop fuel dst d table log nextEmit s nextHash
          end
      end
  end.

End EncodeBlock.

(** [encodeBlock] with the log of what it did. *)
Definition encodeBlock_run (dst src : list byte)
  : res (list byte * Z * list event) :=
  let* (shift, tableSize) := tableParams (len src) in
  let table := replicate (Z.to_nat maxTableSize) 0 in
  let sLimit := len src - inputMargin in
  let nextEmit := 0 in
  let s := 1 in
  let* x := load32 src s in
  let nextHash := hash x shift in
  let* (dst, d, log, nextEmit) :=
    mainLoop src shift sLimit (length src) dst 0 table [] nextEmit s nextHash in
  if nextEmit <? len src then
    let* sub := slice_from dst d in
    let* lit := slice_from src nextEmit in
    let* (sub, n) := emitLiteral sub lit in
    Ok (splice dst d sub, d + n, log ++ [CallEmitLiteral nextEmit (len src)])
  else Ok (dst, d, log).

Definition encodeBlock (dst src : list byte) : res (list byte * Z) :=
  let* (dst, d, _) := encodeBlock_run dst src in
  Ok (dst, d).

(** ** Encode *)

(** [binary.PutUvarint] of Go's standard library:
    [for x >= 0x80 { buf[i] = byte(x) | 0x80; x >>= 7; i++ }; buf[i] = byte(x);
    return i + 1]. *)
Fixpoint PutUvarint_loop (fuel : nat) (buf : list byte) (x i : Z)
  : res (list byte * Z) :=
  if x >=? 0x80 then
    match fuel with
    | O => OutOfFuel
    | S fuel =>
        let* buf := store buf i (bor (u8 x) x80) in
        PutUvarint_loop fuel buf (Z.shiftr x 7) (i + 1)
    end
  else
    let* buf := store buf i (u8 x) in
    Ok (buf, i + 1).

Definition PutUvarint (buf : list byte) (x : Z) : res (list byte * Z) :=
  PutUvarint_loop 10 buf x 0.

(** The loop [for len(src) > 0] of [Encode]. *)
Fixpoint Encode_loop (fuel : nat) (dst : list byte) (d : Z) (src : list byte)
  : res (list byte * Z) :=
  if len src >? 0 then
    match fuel with
    | O => OutOfFuel
    | S fuel =>
        let p := src in
        let src := [] in
        let* (p, src) :=
          (if len p >? maxBlockSize then
             let* a := slice p 0 maxBlockSize in
             let* b := slice_from p maxBlockSize in
             Ok (a, b)
           else Ok (p, src)) in
        let* sub := slice_from dst d in
        let* (sub, n) :=
          (if len p <? minNonLiteralBlockSize then emitLiteral sub p
           else encodeBlock sub p) in
        Encode_loop fuel (splice dst d sub) (d + n) src
    end
  else Ok (dst, d).

(** [Encode] up to its [return dst[:d]]: the buffer that holds the result,
    [d], and whether that buffer is the caller's [dst] ([true]) or a newly
    allocated one. *)
Definition Encode_buf (dst src : list byte) : res (list byte * Z * bool) :=
  let n := MaxEncodedLen (len src) in
  if n <? 0 then Panic ErrTooLarge
  else
    let '(dst, own) :=
      if len dst <? n then (replicate (Z.to_nat n) x00, false)
      else (dst, true) in
    let* (dst, d) := PutUvarint dst (u64 (len src)) in
    let* (dst, d) := Encode_loop (length src) dst d src in
    Ok (dst, d, own).

Definition Encode (dst src : list byte) : res (list byte) :=
  let* (dst, d, _) := Encode_buf dst src in
  slice dst 0 d.

(** ** The framed writer *)

(** Modelled from the spec: the wire-format constants of section 6
    ([snappy.go], where the source declares them, is not among the source
    files). *)
Definition magicChunk : list byte :=
  [xff; x06; x00; x00; "s"; "N"; "a"; "P"; "p"; "Y"]%byte.
Definition chunkTypeCompressedData : byte := x00.
Definition chunkTypeUncompressedData : byte := x01.
Definition obufHeaderLen : Z := len magicChunk + 4 + 4.
Definition obufLen : Z := obufHeaderLen + MaxEncodedLen maxBlockSize.

(** Modelled from the spec: the masked CRC of section 3,
    [((crc >> 15) | (crc << 17)) + 0xa282ead8] modulo [2^32], over the
    CRC-32C primitive [crc32c], which the spec assumes available. *)
Definition mask (c : Z) : Z :=
  u32 (Z.lor (Z.shiftr c 15) (u32 (Z.shiftl c 17)) + 0xa282ead8).
Definition crc (crc32c : list byte -> Z) (b : list byte) : Z :=
  mask (u32 (crc32c b)).

(** The errors a [Writer] can hold: its own [errClosed] and whatever the
    sink returns. *)
Inductive error : Type :=
| errClosed
| errSink (code : Z).

(** [io.Writer]: a sink has a state and a [Write] method; the writer only
    looks at the error it returns. *)
Class Sink (K : Type) : Type :=
  sinkWrite : K -> list byte -> K * option error.

Section FramedWriter.

Context {K : Type} {sink_K : Sink K}.
Variable crc32c : list byte -> Z.

(** The [Writer] struct.  [ibuf] is [None] for a nil slice; a non-nil
    [ibuf] always has capacity [maxBlockSize].  [calls] is not a field of
    the source: it records every call of [w.w.Write] with its result. *)
Record Writer : Type := mkWriter {
  w : K;
  err : option error;
  ibuf : option (list byte);
  obuf : list byte;
  wroteStreamHeader : bool;
  calls : list (list byte * option error)
}.

Definition NewWriter (sk : K) : Writer :=
  mkWriter sk None None (replicate (Z.to_nat obufLen) x00) false [].

Definition NewBufferedWriter (sk : K) : Writer :=
  mkWriter sk None (Some []) (replicate (Z.to_nat obufLen) x00) false [].

Definition ibuf_len (wr : Writer) : Z :=
  match ibuf wr with Some b => len b | None => 0 end.
Definition ibuf_cap (wr : Writer) : Z :=
  match ibuf wr with Some _ => maxBlockSize | None => 0 end.
Definition ibuf_bytes (wr : Writer) : list byte :=
  match ibuf wr with Some b => b | None => [] end.

Definition set_err (wr : Writer) (e : option error) : Writer :=
  mkWriter (w wr) e (ibuf wr) (obuf wr) (wroteStreamHeader wr) (calls wr).
Definition set_ibuf (wr : Writer) (b : option (list byte)) : Writer :=
  mkWriter (w wr) (err wr) b (obuf wr) (wroteStreamHeader wr) (calls wr).
Definition set_obuf (wr : Writer) (b : list byte) : Writer :=
  mkWriter (w wr) (err wr) (ibuf wr) b (wroteStreamHeader wr) (calls wr).
Definition set_wroteStreamHeader (wr : Writer) (b : bool) : Writer :=
  mkWriter (w wr) (err wr) (ibuf wr) (obuf wr) b (calls wr).


(** [w.w.Write(b)]. *)
Definition w_Write (wr : Writer) (b : list byte) : Writer * option error :=
  let '(sk, e) := sinkWrite (w wr) b in
  (mkWriter sk (err wr) (ibuf wr) (obuf wr) (wroteStreamHeader wr)
            (calls wr ++ [(b, e)]), e).

(** One turn of the loop of [Writer.write], from [checksum := ...] on,
    for the block [uncompressed]; the result is the writer and the error
    that ends the loop, if any. *)
Definition write_block (wr : Writer) (obufStart : Z)
           (uncompressed : list byte) : res (Writer * option error) :=
  let checksum := crc crc32c uncompressed in
  let* sub := slice_from (obuf wr) obufHeaderLen in
  let* (buf, d, own) := Encode_buf sub uncompressed in
  let wr :=
    if own : bool then set_obuf wr (splice (obuf wr) obufHeaderLen buf)
    else wr in
  let* compressed := slice buf 0 d in
  let chunkType := chunkTypeCompressedData in
  let chunkLen := 4 + len compressed in
  let obufEnd := obufHeaderLen + len compressed in
  let '(chunkType, chunkLen, obufEnd) :=
    if len compressed >=? len uncompressed - len uncompressed / 8 then
      (chunkTypeUncompressedData, 4 + len uncompressed, obufHeaderLen)
    else (chunkType, chunkLen, obufEnd) in
  let o := obuf wr in
  let* o := store o (len magicChunk + 0) chunkType in
  let* o := store o (len magicChunk + 1) (u8 (Z.shiftr chunkLen 0)) in
  let* o := store o (len magicChunk + 2) (u8 (Z.shiftr chunkLen 8)) in
  let* o := store o (len magicChunk + 3) (u8 (Z.shiftr chunkLen 16)) in
  let* o := store o (len magicChunk + 4) (u8 (Z.shiftr checksum 0)) in
  let* o := store o (len magicChunk + 5) (u8 (Z.shiftr checksum 8)) in
  let* o := store o (len magicChunk + 6) (u8 (Z.shiftr checksum 16)) in
  let* o := store o (len magicChunk + 7) (u8 (Z.shiftr checksum 24)) in
  let wr := set_obuf wr o in
  let* out := slice (obuf wr) obufStart obufEnd in
  let '(wr, e) := w_Write wr out in
  match e with
  | Some e => Ok (set_err wr (Some e), Some e)
  | None =>
      if Byte.eqb chunkType chunkTypeUncompressedData then
        let '(wr, e) := w_Write wr uncompressed in
        match e with
        | Some e => Ok (set_err wr (Some e), Some e)
        | None => Ok (wr, None)
        end
      else Ok (wr, None)
  end.

(** The loop [for len(p) > 0] of [Writer.write]. *)
Fixpoint write_loop (fuel : nat) (wr : Writer) (p : list byte) (nRet : Z)
  : res (Writer * Z * option error) :=
  if len p >? 0 then
    match fuel with
    | O => OutOfFuel
    | S fuel =>
        let obufStart := len magicChunk in
        let '(wr, obufStart) :=
          if negb (wroteStreamHeader wr) then
            (set_obuf (set_wroteStreamHeader wr true)
                      (fst (copy (obuf wr) magicChunk)), 0)
          else (wr, obufStart) in
        let* (uncompressed, p) :=
          (if len p >? maxBlockSize then
             let* a := slice p 0 maxBlockSize in
             let* b := slice_from p maxBlockSize in
             Ok (a, b)
           else Ok (p, [])) in
        let* (wr, e) := write_block wr obufStart uncompressed in
        match e with
        | Some e => Ok (wr, nRet, Some e)
        | None => write_loop fuel wr p (nRet + len uncompressed)
        end
    end
  else Ok (wr, nRet, None).

(** [Writer.write]. *)
Definition write (wr : Writer) (p : list byte)
  : res (Writer * Z * option error) :=
  match err wr with
  | Some e => Ok (wr, 0, Some e)
  | None => write_loop (length p) wr p 0
  end.

(** [Writer.Flush]. *)
Definition Flush (wr : Writer) : res (Writer * option error) :=
  match err wr with
  | Some e => Ok (wr, Some e)
  | None =>
      if ibuf_len wr =? 0 then Ok (wr, None)
      else
        let* (wr, _, _) := write wr (ibuf_bytes wr) in
        let wr :=
          set_ibuf wr (match ibuf wr with Some _ => Some [] | None => None end) in
        Ok (wr, err wr)
  end.

(** The loop [for len(p) > (cap(w.ibuf)-len(w.ibuf)) && w.err == nil] of
    [Writer.Write]; the result is the writer, the rest of [p] and
    [nRet]. *)
Fixpoint Write_loop (fuel : nat) (wr : Writer) (p : list byte) (nRet : Z)
  : res (Writer * list byte * Z) :=
  if (len p >? ibuf_cap wr - ibuf_len wr)
     && (match err wr with None => true | Some _ => false end) then
    match fuel with
    | O => OutOfFuel
    | S fuel =>
        let* (wr, n) :=
          (if ibuf_len wr =? 0 then
             let* (wr, n, _) := write wr p in
             Ok (wr, n)
           else
             let* free :=
               slice (ibuf_bytes wr ++
                      replicate (Z.to_nat (ibuf_cap wr - ibuf_len wr)) x00)
                     (ibuf_len wr) (ibuf_cap wr) in
             let '(_, n) := copy free p in
             let* b := slice p 0 n in
             let wr := set_ibuf wr (Some (ibuf_bytes wr ++ b)) in
             let* (wr, _) := Flush wr in
             Ok (wr, n)) in
        let* p := slice_from p n in
        Write_loop fuel wr p (nRet + n)
    end
  else Ok (wr, p, nRet).

(** [Writer.Write] after its loop: [if w.err != nil { return nRet, w.err }]
    and the copy of what is left of [p] into [ibuf]. *)
Definition Write_rest (wr : Writer) (p : list byte) (nRet : Z)
  : res (Writer * Z * option error) :=
  match err wr with
  | Some e => Ok (wr, nRet, Some e)
  | None =>
      let* free :=
        slice (ibuf_bytes wr ++
               replicate (Z.to_nat (ibuf_cap wr - ibuf_len wr)) x00)
              (ibuf_len wr) (ibuf_cap wr) in
      let '(_, n) := copy free p in
      let* b := slice p 0 n in
      let wr := set_ibuf wr (Some (ibuf_bytes wr ++ b)) in
      Ok (wr, nRet + n, None)
  end.

(** [Writer.Write]. *)
Definition Write (wr : Writer) (p : list byte)
  : res (Writer * Z * option error) :=
  match ibuf wr with
  | None => write wr p
  | Some _ =>
      let* (wr, p, nRet) := Write_loop (length p + 2) wr p 0 in
      Write_rest wr p nRet
  end.

(** [Writer.Close]. *)
Definition Close (wr : Writer) : res (Writer * option error) :=
  let* (wr, _) := Flush wr in
  let ret := err wr in
  let wr :=
    match err wr with
    | None => set_err wr (Some errClosed)
    | Some _ => wr
    end in
  Ok (wr, ret).

End FramedWriter.

(** ** The block format and a reference decoder *)

(** Modelled from the spec: the tagged chunks of the block format of
    section 3 (the decoder is outside the source files). *)
Inductive chunk : Type :=
| Literal (bs : list byte)
| Copy1 (offset length : Z)
| Copy2 (offset length : Z)
| Copy4 (offset length : Z).

(** The number of bytes a chunk decodes to. *)
Definition chunkLen (c : chunk) : Z :=
  match c with
  | Literal bs => len bs
  | Copy1 _ n | Copy2 _ n | Copy4 _ n => n
  end.

Definition byte_of (z : Z) : byte := u8 z.

(** The little-endian value of a byte string. *)
Definition le (bs : list byte) : Z :=
  foldr (fun b acc => b2z b + 256 * acc) 0 bs.

(** Modelled from the spec: the wire form of a chunk as section 3
    describes it, in plain arithmetic: the literal header in its shortest
    form of up to two extra bytes, [COPY_1] in two bytes and [COPY_2] in
    three. *)
Definition literalHeader (n : Z) : list byte :=
  if n <? 60 then [byte_of (4 * n)]
  else if n <? 256 then [byte_of (4 * 60); byte_of n]
  else [byte_of (4 * 61); byte_of (n mod 256); byte_of (n / 256)].

Definition chunkBytes (c : chunk) : list byte :=
  match c with
  | Literal bs => literalHeader (len bs - 1) ++ bs
  | Copy1 offset n =>
      [byte_of (32 * (offset / 256) + 4 * (n - 4) + 1); byte_of (offset mod 256)]
  | Copy2 offset n =>
      [byte_of (4 * (n - 1) + 2); byte_of (offset mod 256);
       byte_of (offset / 256)]
  | Copy4 offset n =>
      [byte_of (4 * (n - 1) + 3); byte_of (offset mod 256);
       byte_of (offset / 256 mod 256); byte_of (offset / 65536 mod 256);
       byte_of (offset / 16777216)]
  end.

Definition chunksBytes (cs : list chunk) : list byte :=
  concat (map chunkBytes cs).

(** Modelled from the spec: the chunks [emit_copy] emits according to the
    algorithm of section 4.2, for a copy of [length] bytes at [offset]:
    [(length - 4) / 64] chunks [COPY_2] of length 64 (one for each turn in
    which the remaining length is still at least 68), then a [COPY_2] of
    length 60 if more than 64 bytes remain, then the rest as a [COPY_2] if
    it is 12 bytes or more or the offset is 2048 or more, and as a
    [COPY_1] otherwise. *)
Definition lastCopy (offset length : Z) : chunk :=
  if (length >=? 12) || (offset >=? 2048) then Copy2 offset length
  else Copy1 offset length.

Definition copyTail (offset length : Z) : list chunk :=
  if length >? 64 then [Copy2 offset 60; lastCopy offset (length - 60)]
  else [lastCopy offset length].

Definition copyChunks (offset length : Z) : list chunk :=
  let k := (length - 4) / 64 in
  replicate (Z.to_nat k) (Copy2 offset 64)
  ++ copyTail offset (length - 64 * k).

(** The unsigned varint that opens a block: seven bits per byte, least
    significant group first, the high bit set on all bytes but the last;
    at most 64 bits. *)
Fixpoint Uvarint (buf : list byte) (s x : Z) : option (Z * list byte) :=
  match buf with
  | [] => None
  | b :: rest =>
      if 63 <? s then None
      else if b2z b <? 0x80 then Some (Z.lor x (Z.shiftl (b2z b) s), rest)
      else Uvarint rest (s + 7) (Z.lor x (Z.shiftl (Z.land (b2z b) 0x7f) s))
  end.

Definition takeBytes (n : Z) (enc : list byte)
  : option (list byte * list byte) :=
  if (0 <=? n) && (n <=? len enc)
  then Some (take (Z.to_nat n) enc, drop (Z.to_nat n) enc)
  else None.

(** Reads one tagged chunk off the front of [enc]. *)
Definition parseChunk (enc : list byte) : option (chunk * list byte) :=
  match enc with
  | [] => None
  | tag :: rest =>
      let t := b2z tag in
      let kind := Z.land t 3 in
      let v := Z.shiftr t 2 in
      if kind =? 0 then
        '(lb, rest) ← takeBytes (if v <? 60 then 0 else v - 59) rest;
        '(lit, rest) ← takeBytes (if v <? 60 then v + 1 else le lb + 1) rest;
        Some (Literal lit, rest)
      else if kind =? 1 then
        '(ob, rest) ← takeBytes 1 rest;
        Some (Copy1 (256 * Z.shiftr t 5 + le ob) (4 + Z.land v 7), rest)
      else if kind =? 2 then
        '(ob, rest) ← takeBytes 2 rest;
        Some (Copy2 (le ob) (1 + v), rest)
      else
        '(ob, rest) ← takeBytes 4 rest;
        Some (Copy4 (le ob) (1 + v), rest)
  end.

Fixpoint parseChunks (fuel : nat) (enc : list byte) : option (list chunk) :=
  match enc with
  | [] => Some []
  | _ =>
      match fuel with
      | O => None
      | S fuel =>
          '(c, rest) ← parseChunk enc;
          cs ← parseChunks fuel rest;
          Some (c :: cs)
      end
  end.

(** A copy appends [n] bytes one at a time, each taken [offset] bytes back
    from the end of the output so far (so it may overlap what it writes). *)
Fixpoint copyBack (n : nat) (offset : nat) (out : list byte)
  : option (list byte) :=
  match n with
  | O => Some out
  | S n =>
      b ← out !! (length out - offset)%nat;
      copyBack n offset (out ++ [b])
  end.

Definition execCopy (out : list byte) (offset n : Z) : option (list byte) :=
  if (1 <=? offset) && (offset <=? len out) && (0 <=? n)
  then copyBack (Z.to_nat n) (Z.to_nat offset) out
  else None.

Definition execChunk (out : list byte) (c : chunk) : option (list byte) :=
  match c with
  | Literal bs => Some (out ++ bs)
  | Copy1 offset n | Copy2 offset n | Copy4 offset n => execCopy out offset n
  end.

Fixpoint execChunks (cs : list chunk) (out : list byte)
  : option (list byte) :=
  match cs with
  | [] => Some out
  | c :: cs => out ← execChunk out c; execChunks cs out
  end.

(** A block decodes to the output of its chunks, which must have the
    length its varint announces. *)
Definition decode (enc : list byte) : option (list byte) :=
  '(n, rest) ← Uvarint enc 0 0;
  cs ← parseChunks (length rest) rest;
  out ← execChunks cs [];
  if len out =? n then Some out else None.

(** ** Notions used to state the properties *)

(** The bytes [PutUvarint] writes for [x]. *)
Fixpoint varintBytes (fuel : nat) (x : Z) : list byte :=
  match fuel with
  | O => [u8 x]
  | S fuel =>
      if x >=? 0x80 then bor (u8 x) x80 :: varintBytes fuel (Z.shiftr x 7)
      else [u8 x]
  end.

(** The chunks the encoder can emit: literals of 1 to 65536 bytes, [COPY_1]
    with an 11-bit offset and a length from 4 to 11, [COPY_2] with a 16-bit
    offset and a length from 1 to 64. *)
Definition wire (c : chunk) : Prop :=
  match c with
  | Literal bs => 1 <= len bs <= 65536
  | Copy1 offset n => 0 <= offset < 2048 /\ 4 <= n < 12
  | Copy2 offset n => 0 <= offset < 65536 /\ 1 <= n <= 64
  | Copy4 _ _ => False
  end.

(** The bytes [src[lo:hi]]. *)
Definition sub (src : list byte) (lo hi : Z) : list byte :=
  take (Z.to_nat (hi - lo)) (drop (Z.to_nat lo) src).

(** The chunks a logged call of an emitter puts on the wire. *)
Definition eventChunks (src : list byte) (e : event) : list chunk :=
  match e with
  | CallEmitLiteral lo hi => [Literal (sub src lo hi)]
  | CallEmitCopy base candidate s => copyChunks (base - candidate) (s - base)
  | TableStore _ => []
  end.

Definition logChunks (src : list byte) (log : list event) : list chunk :=
  concat (map (eventChunks src) log).

(** The number of source bytes an event accounts for. *)
Definition eventLen (e : event) : Z :=
  match e with
  | CallEmitLiteral lo hi => hi - lo
  | CallEmitCopy base _ s => s - base
  | TableStore _ => 0
  end.

Definition logLen (log : list event) : Z :=
  foldr (fun e acc => eventLen e + acc) 0 log.

(** [src[candidate+k] = src[base+k]] for the [n] bytes from [base] on. *)
Definition matches (src : list byte) (base candidate n : Z) : Prop :=
  0 <= candidate < base /\ 0 <= n /\ base + n <= len src /\
  forall k, 0 <= k < n ->
    src !! Z.to_nat (base + k) = src !! Z.to_nat (candidate + k).

(** A log that accounts for [src[0:pos]]: each literal starts where the
    events before it end, is not empty and stays inside [src]; each copy
    starts where the events before it end, replays at least 4 bytes of
    [src] found at an earlier position, at a distance of at most 65535; each
    value stored in the hash table fits in 16 bits. *)
Inductive trace (src : list byte) : list event -> Z -> Prop :=
| trace_nil : trace src [] 0
| trace_literal log pos hi :
    trace src log pos -> pos < hi <= len src -> hi - pos <= 65536 ->
    trace src (log ++ [CallEmitLiteral pos hi]) hi
| trace_copy log base candidate s :
    trace src log base ->
    1 <= base - candidate <= 65535 ->
    4 <= s - base <= 65535 ->
    matches src base candidate (s - base) ->
    trace src (log ++ [CallEmitCopy base candidate s]) s
| trace_store log pos v :
    trace src log pos -> 0 <= v < 65536 ->
    trace src (log ++ [TableStore v]) pos.

(** A bound on what [encodeBlock] writes for a block of [n] bytes. *)
Definition blockBound (n : Z) : Z := n + n / 64 + 3.

(** The number of bytes a list of chunks decodes to. *)
Definition chunksLen (cs : list chunk) : Z :=
  foldr (fun c acc => chunkLen c + acc) 0 cs.

(** The value of the byte [src[i]], and of the little-endian words that
    start there. *)
Definition byteZ (src : list byte) (i : Z) : Z :=
  match src !! Z.to_nat i with
  | Some b => b2z b
  | None => 0
  end.

Definition val32 (src : list byte) (i : Z) : Z :=
  byteZ src i + 2 ^ 8 * byteZ src (i + 1) + 2 ^ 16 * byteZ src (i + 2)
  + 2 ^ 24 * byteZ src (i + 3).

Definition val64 (src : list byte) (i : Z) : Z :=
  val32 src i + 2 ^ 32 * val32 src (i + 4).

(** The bytes the calls of a log have written, and the buffer [dst0] once
    its front holds the bytes [w]. *)
Definition written (src : list byte) (log : list event) : list byte :=
  chunksBytes (logChunks src log).

Definition buffer (dst0 w : list byte) : list byte :=
  w ++ drop (Z.to_nat (len w)) dst0.

(** The hash table holds [maxTableSize] positions, all before [s]. *)
Definition tableInv (table : list Z) (s : Z) : Prop :=
  len table = maxTableSize /\ Forall (fun v => 0 <= v < s) table.

(** What holds of the buffer [dst], of [d] and of the log once the encoder
    has emitted [src[0:pos]] into [dst0]. *)
Definition emitted (src dst0 dst : list byte) (d : Z) (log : list event)
           (pos : Z) : Prop :=
  trace src log pos /\ dst = buffer dst0 (written src log)
  /\ d = len (written src log) /\ 64 * d <= 65 * pos.

(** What holds when the search loop of [encodeBlock] is left. *)
Definition search_post (src : list byte) (sLimit : Z) (log : list event)
           (pos nextS : Z) (r : search_exit) : Prop :=
  match r with
  | SearchRemainder table' log' =>
      trace src log' pos /\ written src log' = written src log
  | SearchFound s candidate nextHash table' log' =>
      trace src log' pos /\ written src log' = written src log
      /\ nextS <= s < sLimit /\ 0 <= candidate < s
      /\ val32 src s = val32 src candidate
      /\ tableInv table' (s + 1)
  end.

(** What holds when the copy loop of [encodeBlock] is left. *)
Definition copy_post (src dst0 : list byte) (sLimit s0 : Z) (r : copy_exit)
  : Prop :=
  match r with
  | CopyRemainder dst d table log nextEmit =>
      emitted src dst0 dst d log nextEmit /\ s0 < nextEmit
  | CopyBreak dst d table log nextEmit s nextHash =>
      emitted src dst0 dst d log nextEmit /\ s0 < nextEmit
      /\ s = nextEmit + 1 /\ nextEmit < sLimit /\ tableInv table s
  end.

(** A bound on what the loop of [Encode] writes for [n] bytes of input. *)
Definition encodeBound (n : Z) : Z := n + n / 32 + 3.

(** The chunks [cs] are a block body for [p]: they are chunks the encoder
    emits, their lengths add up to [len p], and a decoder that runs them
    after any output appends [p] to it. *)
Definition encodes (cs : list chunk) (p : list byte) : Prop :=
  Forall wire cs /\ chunksLen cs = len p
  /\ forall pre, execChunks cs pre = Some (pre ++ p).

(** ** Notions used to state the properties of the framed writer *)

(** The [k] low bytes of [z], least significant first. *)
Fixpoint leBytes (k : nat) (z : Z) : list byte :=
  match k with
  | O => []
  | S k => u8 z :: leBytes k (z / 256)
  end.

(** Modelled from the spec: the header of a data chunk of the framing
    format: the chunk type, the length of what follows the first four bytes
    (checksum and payload) as 3 little-endian bytes, and the checksum as 4
    little-endian bytes. *)
Definition chunkHeader (chunkType : byte) (payloadLen checksum : Z)
  : list byte :=
  chunkType :: leBytes 3 (4 + payloadLen) ++ leBytes 4 checksum.

(** Modelled from the spec: CRC-32C (Castagnoli), which the source takes
    from [hash/crc32]: bit by bit, with the reflected polynomial.  The
    theorems hold for any checksum function; this one serves in examples. *)
Definition crc32_bit (c : Z) : Z :=
  if Z.testbit c 0 then Z.lxor (Z.shiftr c 1) 0x82f63b78 else Z.shiftr c 1.
Definition crc32_byte (c : Z) (b : byte) : Z :=
  Nat.iter 8 crc32_bit (Z.lxor c (b2z b)).
Definition crc32Castagnoli (bs : list byte) : Z :=
  Z.lxor (fold_left crc32_byte bs 0xffffffff) 0xffffffff.

(** A sink for examples: it accepts as many writes as its state says and
    fails from then on. *)
#[export] Instance budgetSink : Sink nat :=
  fun k _ =>
    match k with
    | O => (O, Some (errSink 1))
    | S k => (k, None)
    end.

(** The writers the constructors build keep an output buffer of [obufLen]
    bytes and at most [maxBlockSize] buffered bytes. *)
Definition wfWriter {K : Type} (wr : @Writer K) : Prop :=
  len (obuf wr) = obufLen /\ ibuf_len wr <= maxBlockSize.

(** The sink calls [wr'] has seen since [wr]. *)
Definition newCalls {K : Type} (wr wr' : @Writer K)
           (new : list (list byte * option error)) : Prop :=
  calls wr' = calls wr ++ new.

(** Whether [Writer.write] sends the block [u], whose encoding is
    [compressed], as it is. *)
Definition sentRaw (compressed u : list byte) : bool :=
  len compressed >=? len u - len u / 8.

(** Modelled from the spec: the data chunk of the framing format for the
    block [u] whose encoding is [compressed]: type [0x01] and the bytes of
    [u] when the encoding does not save an eighth of the block, type [0x00]
    and the encoding when it does; the checksum is that of [u]. *)
Definition chunkType (compressed u : list byte) : byte :=
  if sentRaw compressed u then chunkTypeUncompressedData
  else chunkTypeCompressedData.

Definition payload (compressed u : list byte) : list byte :=
  if sentRaw compressed u then u else compressed.

Definition dataChunkHeader (crc32c : list byte -> Z)
           (compressed u : list byte) : list byte :=
  chunkHeader (chunkType compressed u) (len (payload compressed u))
              (crc crc32c u).

(** The start of a turn of the loop of [Writer.write]: the writer once the
    stream header is in [obuf], if it was not sent yet, and where the bytes
    to send start in [obuf]. *)
Definition withStreamHeader {K : Type} (wr : @Writer K) : @Writer K * Z :=
  if negb (wroteStreamHeader wr) then
    (set_obuf (set_wroteStreamHeader wr true)
              (fst (copy (obuf wr) magicChunk)), 0)
  else (wr, len magicChunk).

(** ** Inputs of the examples *)

(** Twenty bytes that repeat with period four, and a buffer that can hold
    their encoding. *)
Definition abcd5 : list byte :=
  ["a"; "b"; "c"; "d"; "a"; "b"; "c"; "d"; "a"; "b"; "c"; "d";
   "a"; "b"; "c"; "d"; "a"; "b"; "c"; "d"]%byte.

Definition room55 : list byte := replicate 55 x00.

(** Modelled from the spec: the algorithm of [emit_copy] (section 4.2) in
    its own words: peel a [COPY_2] of length 64 while the remaining length
    is at least 68, then one of length 60 if more than 64 remain, then emit
    what is left as one chunk.  [fuel] bounds the number of turns. *)
Fixpoint copyPeel (fuel : nat) (offset length : Z) : list chunk :=
  if length >=? 68 then
    match fuel with
    | O => []
    | S fuel => Copy2 offset 64 :: copyPeel fuel offset (length - 64)
    end
  else copyTail offset length.

(** Modelled from the spec: [tableSize] is the largest power of two in
    [[256, 16384]] that does not exceed [n] (section 4.3). *)
Definition largestPowerOfTwoUpTo (tableSize n : Z) : Prop :=
  (exists k, 8 <= k <= 14 /\ tableSize = 2 ^ k)
  /\ tableSize <= n
  /\ forall k, 8 <= k <= 14 -> 2 ^ k <= n -> 2 ^ k <= tableSize.

Definition zeros300 : list byte := replicate 300 x00.

Definition zeros65536 : list byte := replicate (Z.to_nat 65536) x00.

(** * Proofs *)

(** ** Bytes *)

Lemma b2z_range (b : byte) : 0 <= b2z b < 256.
Proof. unfold b2z. pose proof (Byte.to_N_bounded b). lia. Qed.

Lemma b2z_u8 (z : Z) : b2z (u8 z) = z mod 256.
Proof.
  unfold u8, b2z.
  pose proof (Z.mod_pos_bound z 256 ltac:(lia)) as Hm.
  destruct (Byte.of_N (Z.to_N (z mod 256))) as [b|] eqn:E.
  - apply Byte.to_of_N in E. rewrite E. lia.
  - apply Byte.of_N_None_iff in E. lia.
Qed.

Lemma u8_b2z (b : byte) : u8 (b2z b) = b.
Proof.
  unfold u8, b2z. pose proof (Byte.to_N_bounded b).
  rewrite Z.mod_small by lia. rewrite N2Z.id, Byte.of_to_N. reflexivity.
Qed.

Lemma b2z_inj (a b : byte) : b2z a = b2z b -> a = b.
Proof. intros E. rewrite <- (u8_b2z a), <- (u8_b2z b), E. reflexivity. Qed.

Lemma u8_mod (z : Z) : u8 (z mod 256) = u8 z.
Proof. apply b2z_inj. rewrite !b2z_u8. apply Z.mod_mod. lia. Qed.

Lemma u8_eq (x y : Z) : x mod 256 = y mod 256 -> u8 x = u8 y.
Proof. intros E. apply b2z_inj. rewrite !b2z_u8. exact E. Qed.

Lemma byte_eqb_eq (a b : byte) : Byte.eqb a b = true <-> a = b.
Proof.
  split; [apply Byte.byte_dec_bl | apply Byte.byte_dec_lb].
Qed.

(** A property of the integers of a range that a boolean test decides holds
    on the whole range once the test has been run on each of them. *)
Lemma range_check (P : Z -> bool) (lo n : Z) :
  forallb P (seqZ lo n) = true -> forall z, lo <= z < lo + n -> P z = true.
Proof.
  intros H z Hz. rewrite forallb_forall in H. apply H.
  apply list_elem_of_In, elem_of_seqZ. lia.
Qed.

(** ** The result monad *)

Lemma bind_Ok {A B} (m : res A) (k : A -> res B) (b : B) :
  bind m k = Ok b -> exists a, m = Ok a /\ k a = Ok b.
Proof. destruct m; simpl; intros E; try discriminate. eauto. Qed.

(** ** Slices *)

Lemma len_nil {A} : len (@nil A) = 0.
Proof. reflexivity. Qed.

Lemma len_cons {A} (x : A) l : len (x :: l) = 1 + len l.
Proof. unfold len. simpl length. lia. Qed.

Lemma len_1 {A} (x : A) : len [x] = 1.
Proof. reflexivity. Qed.

Lemma len_app {A} (l1 l2 : list A) : len (l1 ++ l2) = len l1 + len l2.
Proof. unfold len. rewrite length_app. lia. Qed.

Lemma len_nonneg {A} (l : list A) : 0 <= len l.
Proof. unfold len. lia. Qed.

Lemma len_take {A} (l : list A) (n : Z) :
  0 <= n <= len l -> len (take (Z.to_nat n) l) = n.
Proof. unfold len. intros. rewrite length_take. lia. Qed.

Lemma len_drop {A} (l : list A) (n : Z) :
  0 <= n <= len l -> len (drop (Z.to_nat n) l) = len l - n.
Proof. unfold len. intros. rewrite length_drop. lia. Qed.

Lemma len_replicate {A} (n : Z) (x : A) :
  0 <= n -> len (replicate (Z.to_nat n) x) = n.
Proof. unfold len. intros. rewrite length_replicate. lia. Qed.

Lemma len_insert {A} (l : list A) i x : len (<[i:=x]> l) = len l.
Proof. unfold len. rewrite length_insert. reflexivity. Qed.

Lemma len_0_nil {A} (l : list A) : len l = 0 -> l = [].
Proof. destruct l; [reflexivity|]. rewrite len_cons. pose proof (len_nonneg l). lia. Qed.

Lemma index_Ok {A} (l : list A) (i : Z) (x : A) :
  0 <= i -> l !! Z.to_nat i = Some x -> index l i = Ok x.
Proof.
  intros Hi E. unfold index.
  apply lookup_lt_Some in E as Hlt.
  replace (0 <=? i) with true by (symmetry; apply Z.leb_le; lia).
  replace (i <? len l) with true
    by (symmetry; apply Z.ltb_lt; unfold len; lia).
  simpl. rewrite E. reflexivity.
Qed.

Lemma index_inv {A} (l : list A) (i : Z) (x : A) :
  index l i = Ok x -> 0 <= i < len l /\ l !! Z.to_nat i = Some x.
Proof.
  unfold index. destruct (0 <=? i) eqn:E1; simpl; [|discriminate].
  destruct (i <? len l) eqn:E2; [|discriminate].
  apply Z.leb_le in E1. apply Z.ltb_lt in E2.
  destruct (l !! Z.to_nat i) eqn:E; [|discriminate].
  intros [= ->]. auto.
Qed.

Lemma index_in_range {A} (l : list A) (i : Z) :
  0 <= i < len l -> exists x, index l i = Ok x /\ l !! Z.to_nat i = Some x.
Proof.
  intros Hi. destruct (lookup_lt_is_Some_2 l (Z.to_nat i)) as [x Hx];
    [unfold len in Hi; lia|].
  exists x. split; [apply index_Ok; [lia|exact Hx] | exact Hx].
Qed.

Lemma store_Ok {A} (l : list A) (i : Z) (x : A) :
  0 <= i < len l -> store l i x = Ok (<[Z.to_nat i:=x]> l).
Proof.
  intros Hi. unfold store.
  replace (0 <=? i) with true by (symmetry; apply Z.leb_le; lia).
  replace (i <? len l) with true by (symmetry; apply Z.ltb_lt; lia).
  reflexivity.
Qed.

Lemma store_inv {A} (l l' : list A) (i : Z) (x : A) :
  store l i x = Ok l' -> 0 <= i < len l /\ l' = <[Z.to_nat i:=x]> l.
Proof.
  unfold store. destruct (0 <=? i) eqn:E1; simpl; [|discriminate].
  destruct (i <? len l) eqn:E2; [|discriminate].
  apply Z.leb_le in E1. apply Z.ltb_lt in E2. intros [= <-]. auto.
Qed.

(** A store just past a written prefix. *)
Lemma store_at {A} (pre : list A) (x y : A) (rest : list A) (i : Z) :
  i = len pre -> store (pre ++ x :: rest) i y = Ok (pre ++ y :: rest).
Proof.
  intros ->. rewrite store_Ok.
  - f_equal. unfold len. rewrite Nat2Z.id.
    rewrite insert_app_r_alt by lia. rewrite Nat.sub_diag. reflexivity.
  - rewrite len_app, len_cons.
    pose proof (len_nonneg pre). pose proof (len_nonneg rest). lia.
Qed.

Lemma slice_Ok {A} (l : list A) (lo hi : Z) :
  0 <= lo <= hi -> hi <= len l ->
  slice l lo hi = Ok (take (Z.to_nat (hi - lo)) (drop (Z.to_nat lo) l)).
Proof.
  intros H1 H2. unfold slice.
  replace (0 <=? lo) with true by (symmetry; apply Z.leb_le; lia).
  replace (lo <=? hi) with true by (symmetry; apply Z.leb_le; lia).
  replace (hi <=? len l) with true by (symmetry; apply Z.leb_le; lia).
  reflexivity.
Qed.

Lemma slice_inv {A} (l r : list A) (lo hi : Z) :
  slice l lo hi = Ok r ->
  0 <= lo <= hi /\ hi <= len l /\
  r = take (Z.to_nat (hi - lo)) (drop (Z.to_nat lo) l).
Proof.
  unfold slice. destruct (0 <=? lo) eqn:E1; simpl; [|discriminate].
  destruct (lo <=? hi) eqn:E2; simpl; [|discriminate].
  destruct (hi <=? len l) eqn:E3; [|discriminate].
  apply Z.leb_le in E1, E2, E3. intros [= <-]. auto.
Qed.

Lemma slice_from_Ok {A} (l : list A) (lo : Z) :
  0 <= lo <= len l -> slice_from l lo = Ok (drop (Z.to_nat lo) l).
Proof.
  intros H. unfold slice_from. rewrite slice_Ok by lia. f_equal.
  apply take_ge. rewrite length_drop. unfold len. lia.
Qed.

Lemma slice_from_app {A} (pre rest : list A) (d : Z) :
  d = len pre -> slice_from (pre ++ rest) d = Ok rest.
Proof.
  intros ->. rewrite slice_from_Ok.
  - unfold len. rewrite Nat2Z.id, drop_app_length. reflexivity.
  - rewrite len_app. pose proof (len_nonneg pre). pose proof (len_nonneg rest). lia.
Qed.

Lemma splice_app {A} (pre rest sub : list A) (d : Z) :
  d = len pre -> splice (pre ++ rest) d sub = pre ++ sub.
Proof.
  intros ->. unfold splice, len. rewrite Nat2Z.id, take_app_length. reflexivity.
Qed.

Lemma slice_0_all {A} (l : list A) : slice l 0 (len l) = Ok l.
Proof.
  rewrite slice_Ok by (pose proof (len_nonneg l); lia). f_equal.
  simpl. rewrite drop_0. apply take_ge. unfold len. lia.
Qed.

Lemma slice_0_app {A} (pre rest : list A) (d : Z) :
  d = len pre -> slice (pre ++ rest) 0 d = Ok pre.
Proof.
  intros ->. rewrite slice_Ok.
  - f_equal. simpl. rewrite drop_0, Z.sub_0_r. unfold len.
    rewrite Nat2Z.id, take_app_length. reflexivity.
  - pose proof (len_nonneg pre). lia.
  - rewrite len_app. pose proof (len_nonneg rest). lia.
Qed.

(** [copy] into a destination that is long enough. *)
Lemma copy_fits {A} (dst src : list A) :
  len src <= len dst ->
  copy dst src = (src ++ drop (Z.to_nat (len src)) dst, len src).
Proof.
  intros H. unfold copy. rewrite Z.min_r by lia. f_equal. f_equal.
  apply take_ge. unfold len. lia.
Qed.

(** The first cells of what remains of a buffer. *)
Lemma drop_cons_1 {A} (l : list A) (i : Z) :
  0 <= i -> i + 1 <= len l ->
  exists x, drop (Z.to_nat i) l = x :: drop (Z.to_nat (i + 1)) l.
Proof.
  intros H0 H1. destruct (lookup_lt_is_Some_2 l (Z.to_nat i)) as [x Hx];
    [unfold len in H1; lia|].
  exists x. rewrite (drop_S _ _ _ Hx). do 2 f_equal. lia.
Qed.

Lemma drop_cons_2 {A} (l : list A) (i : Z) :
  0 <= i -> i + 2 <= len l ->
  exists x y, drop (Z.to_nat i) l = x :: y :: drop (Z.to_nat (i + 2)) l.
Proof.
  intros H0 H1.
  destruct (drop_cons_1 l i) as [x Hx]; [lia..|].
  destruct (drop_cons_1 l (i + 1)) as [y Hy]; [lia..|].
  exists x, y. rewrite Hx, Hy. do 3 f_equal. lia.
Qed.

Lemma drop_cons_3 {A} (l : list A) (i : Z) :
  0 <= i -> i + 3 <= len l ->
  exists x y z,
    drop (Z.to_nat i) l = x :: y :: z :: drop (Z.to_nat (i + 3)) l.
Proof.
  intros H0 H1.
  destruct (drop_cons_2 l i) as (x & y & Hxy); [lia..|].
  destruct (drop_cons_1 l (i + 2)) as [z Hz]; [lia..|].
  exists x, y, z. rewrite Hxy, Hz. do 4 f_equal. lia.
Qed.

Lemma store_at1 {A} (pre : list A) (x0 x y : A) (rest : list A) (i : Z) :
  i = len pre ->
  store (pre ++ x0 :: x :: rest) (i + 1) y = Ok (pre ++ x0 :: y :: rest).
Proof.
  intros ->. replace (pre ++ x0 :: x :: rest) with ((pre ++ [x0]) ++ x :: rest)
    by (rewrite <- app_assoc; reflexivity).
  rewrite store_at by (rewrite len_app, len_cons, len_nil; lia).
  rewrite <- app_assoc. reflexivity.
Qed.

Lemma store_at2 {A} (pre : list A) (x0 x1 x y : A) (rest : list A) (i : Z) :
  i = len pre ->
  store (pre ++ x0 :: x1 :: x :: rest) (i + 2) y
  = Ok (pre ++ x0 :: x1 :: y :: rest).
Proof.
  intros ->.
  replace (pre ++ x0 :: x1 :: x :: rest)
    with ((pre ++ [x0; x1]) ++ x :: rest)
    by (rewrite <- app_assoc; reflexivity).
  rewrite store_at by (rewrite len_app, !len_cons, len_nil; lia).
  rewrite <- app_assoc. reflexivity.
Qed.

Lemma store_0 {A} (x y : A) (rest : list A) :
  store (x :: rest) 0 y = Ok (y :: rest).
Proof. exact (store_at [] x y rest 0 eq_refl). Qed.

Lemma store_1 {A} (x0 x y : A) (rest : list A) :
  store (x0 :: x :: rest) 1 y = Ok (x0 :: y :: rest).
Proof. exact (store_at [x0] x y rest 1 eq_refl). Qed.

Lemma store_2 {A} (x0 x1 x y : A) (rest : list A) :
  store (x0 :: x1 :: x :: rest) 2 y = Ok (x0 :: x1 :: y :: rest).
Proof. exact (store_at [x0; x1] x y rest 2 eq_refl). Qed.

Lemma slice_from_1 {A} (x : A) (rest : list A) :
  slice_from (x :: rest) 1 = Ok rest.
Proof. exact (slice_from_app [x] rest 1 eq_refl). Qed.

Lemma slice_from_2 {A} (x y : A) (rest : list A) :
  slice_from (x :: y :: rest) 2 = Ok rest.
Proof. exact (slice_from_app [x; y] rest 2 eq_refl). Qed.

Lemma slice_from_3 {A} (x y z : A) (rest : list A) :
  slice_from (x :: y :: z :: rest) 3 = Ok rest.
Proof. exact (slice_from_app [x; y; z] rest 3 eq_refl). Qed.

(** Splits an equation between results into its components. *)
Ltac res_eq :=
  repeat match goal with
         | |- Ok _ = Ok _ => f_equal
         | |- (_, _) = (_, _) => f_equal
         end;
  try lia.

(** Reduces an equation between two lists that differ only in how far the
    tail of the buffer is dropped to arithmetic. *)
Ltac list_drop_eq :=
  repeat match goal with
         | |- _ ++ _ = _ ++ _ => apply (f_equal (app _))
         | |- _ :: _ = _ :: _ => apply (f_equal (cons _))
         | |- drop _ ?l = drop _ ?l => apply (f_equal (fun n => drop n l))
         end;
  try reflexivity; try lia.

(** Splits the conjunctions of the goal that are written as such. *)
Ltac splits :=
  repeat match goal with |- _ /\ _ => split end; try reflexivity.

(** ** Tag bytes: the bit operations of the source against plain arithmetic *)

Lemma tag_literal (n : Z) :
  0 <= n < 60 -> bor (bshl (u8 n) 2) tagLiteral = byte_of (4 * n).
Proof.
  intros Hn.
  apply byte_eqb_eq.
  apply (range_check
           (fun n => Byte.eqb (bor (bshl (u8 n) 2) tagLiteral) (byte_of (4 * n)))
           0 60); [vm_compute; reflexivity | lia].
Qed.

Lemma tag_copy2 (n : Z) :
  1 <= n <= 64 -> bor (bshl (u8 (n - 1)) 2) tagCopy2 = byte_of (4 * (n - 1) + 2).
Proof.
  intros Hn.
  apply byte_eqb_eq.
  apply (range_check
           (fun n => Byte.eqb (bor (bshl (u8 (n - 1)) 2) tagCopy2)
                              (byte_of (4 * (n - 1) + 2)))
           1 64); [vm_compute; reflexivity | lia].
Qed.

Lemma tag_copy1 (h n : Z) :
  0 <= h < 8 -> 4 <= n < 12 ->
  bor (bor (bshl (u8 h) 5) (bshl (u8 (n - 4)) 2)) tagCopy1
  = byte_of (32 * h + 4 * (n - 4) + 1).
Proof.
  intros Hh Hn.
  apply byte_eqb_eq.
  pose proof (range_check
    (fun h => forallb (fun n =>
       Byte.eqb (bor (bor (bshl (u8 h) 5) (bshl (u8 (n - 4)) 2)) tagCopy1)
                (byte_of (32 * h + 4 * (n - 4) + 1))) (seqZ 4 8))
    0 8 ltac:(vm_compute; reflexivity) h ltac:(lia)) as H.
  cbv beta in H.
  exact (range_check _ 4 8 H n ltac:(lia)).
Qed.

Lemma u8_low (z : Z) : u8 z = byte_of (z mod 256).
Proof. unfold byte_of. symmetry. apply u8_mod. Qed.

Lemma u8_high (z : Z) : u8 (Z.shiftr z 8) = byte_of (z / 256).
Proof. rewrite Z.shiftr_div_pow2 by lia. reflexivity. Qed.

(** ** emitLiteral *)

Lemma len_literalHeader (n : Z) :
  len (literalHeader n) = if n <? 60 then 1 else if n <? 256 then 2 else 3.
Proof. unfold literalHeader. repeat case_match; reflexivity. Qed.

Lemma len_literalHeader_bounds (n : Z) : 1 <= len (literalHeader n) <= 3.
Proof. rewrite len_literalHeader. repeat case_match; lia. Qed.

Lemma u64_small (z : Z) : 0 <= z < 2 ^ 64 -> u64 z = z.
Proof. intros. unfold u64. apply Z.mod_small. lia. Qed.

Lemma emitLiteral_ok (dst lit : list byte) :
  1 <= len lit <= 65536 ->
  len (literalHeader (len lit - 1)) + len lit <= len dst ->
  emitLiteral dst lit
  = Ok (literalHeader (len lit - 1) ++ lit
        ++ drop (Z.to_nat (len (literalHeader (len lit - 1)) + len lit)) dst,
        len (literalHeader (len lit - 1)) + len lit).
Proof.
  intros Hlit Hdst. unfold emitLiteral.
  rewrite u64_small by lia.
  rewrite len_literalHeader in *. unfold literalHeader.
  set (n := len lit - 1) in *.
  change (2 ^ 8) with 256.
  pose proof (len_nonneg lit) as Hl0.
  destruct (n <? 60) eqn:E1; [apply Z.ltb_lt in E1|apply Z.ltb_ge in E1].
  - destruct dst as [|x0 dst]; [rewrite len_nil in Hdst; lia|].
    rewrite len_cons in Hdst.
    rewrite store_0. cbn [bind].
    rewrite slice_from_1. cbn [bind].
    rewrite copy_fits by lia.
    unfold splice;
        change (Z.to_nat 1) with 1%nat; change (Z.to_nat 2) with 2%nat;
        change (Z.to_nat 3) with 3%nat; cbn [take app].
    rewrite tag_literal by lia.
    replace (Z.to_nat (1 + len lit)) with (S (Z.to_nat (len lit))) by lia.
    reflexivity.
  - destruct (n <? 256) eqn:E2; [apply Z.ltb_lt in E2|apply Z.ltb_ge in E2].
    + destruct dst as [|x0 [|x1 dst]];
        rewrite ?len_cons, ?len_nil in Hdst; [lia..|].
      rewrite store_0. cbn [bind].
      rewrite store_1. cbn [bind].
      rewrite slice_from_2. cbn [bind].
      rewrite copy_fits by lia.
      unfold splice;
        change (Z.to_nat 1) with 1%nat; change (Z.to_nat 2) with 2%nat;
        change (Z.to_nat 3) with 3%nat; cbn [take app].
      replace (Z.to_nat (2 + len lit)) with (S (S (Z.to_nat (len lit)))) by lia.
      reflexivity.
    + destruct dst as [|x0 [|x1 [|x2 dst]]];
        rewrite ?len_cons, ?len_nil in Hdst; [lia..|].
      rewrite store_0. cbn [bind].
      rewrite store_1. cbn [bind].
      rewrite store_2. cbn [bind].
      rewrite slice_from_3. cbn [bind].
      rewrite copy_fits by lia.
      unfold splice;
        change (Z.to_nat 1) with 1%nat; change (Z.to_nat 2) with 2%nat;
        change (Z.to_nat 3) with 3%nat; cbn [take app].
      rewrite (u8_low n), (u8_high n).
      replace (Z.to_nat (3 + len lit))
        with (S (S (S (Z.to_nat (len lit))))) by lia.
      reflexivity.
Qed.

(** ** emitCopy *)

Lemma store3 {B} (written rest : list byte) (i : Z) (a b c : byte)
      (K : list byte -> res B) :
  i = len written -> 3 <= len rest ->
  (let* d1 := store (written ++ rest) (i + 0) a in
   let* d2 := store d1 (i + 1) b in
   let* d3 := store d2 (i + 2) c in
   K d3)
  = K ((written ++ [a; b; c]) ++ drop 3 rest).
Proof.
  intros Hi Hr.
  destruct rest as [|x0 [|x1 [|x2 rest]]];
    rewrite ?len_cons, ?len_nil in Hr; [lia..|].
  rewrite (store_at written x0 a _ (i + 0)) by lia. cbn [bind].
  rewrite store_at1 by lia. cbn [bind].
  rewrite store_at2 by lia. cbn [bind].
  rewrite <- app_assoc. reflexivity.
Qed.

Lemma store2 {B} (written rest : list byte) (i : Z) (a b : byte)
      (K : list byte -> res B) :
  i = len written -> 2 <= len rest ->
  (let* d1 := store (written ++ rest) (i + 0) a in
   let* d2 := store d1 (i + 1) b in
   K d2)
  = K ((written ++ [a; b]) ++ drop 2 rest).
Proof.
  intros Hi Hr.
  destruct rest as [|x0 [|x1 rest]];
    rewrite ?len_cons, ?len_nil in Hr; [lia..|].
  rewrite (store_at written x0 a _ (i + 0)) by lia. cbn [bind].
  rewrite store_at1 by lia. cbn [bind].
  rewrite <- app_assoc. reflexivity.
Qed.

Lemma chunksBytes_app (a b : list chunk) :
  chunksBytes (a ++ b) = chunksBytes a ++ chunksBytes b.
Proof. unfold chunksBytes. rewrite map_app, concat_app. reflexivity. Qed.

Lemma chunksBytes_cons (c : chunk) (cs : list chunk) :
  chunksBytes (c :: cs) = chunkBytes c ++ chunksBytes cs.
Proof. reflexivity. Qed.

Lemma chunksBytes_nil : chunksBytes [] = [].
Proof. reflexivity. Qed.

Lemma chunksBytes_1 (a : chunk) : chunksBytes [a] = chunkBytes a.
Proof. unfold chunksBytes. cbn [map concat]. apply app_nil_r. Qed.

Lemma chunksBytes_2 (a b : chunk) :
  chunksBytes [a; b] = chunkBytes a ++ chunkBytes b.
Proof. unfold chunksBytes. cbn [map concat]. rewrite app_nil_r. reflexivity. Qed.

Lemma len_chunkBytes_Copy2 (offset n : Z) : len (chunkBytes (Copy2 offset n)) = 3.
Proof. reflexivity. Qed.

Lemma peel_step (length : Z) :
  68 <= length -> (length - 4) / 64 = (length - 64 - 4) / 64 + 1.
Proof.
  intros H. replace (length - 4) with ((length - 64 - 4) + 1 * 64) by lia.
  apply Z.div_add. lia.
Qed.

Lemma peel_done (length : Z) : 4 <= length < 68 -> (length - 4) / 64 = 0.
Proof. intros H. apply Z.div_small. lia. Qed.

Lemma peel_nonneg (length : Z) : 4 <= length -> 0 <= (length - 4) / 64.
Proof. intros H. apply Z.div_pos; lia. Qed.

(** What is left after the length-64 copies is between 4 and 67. *)
Lemma peel_rest (length : Z) :
  4 <= length -> 4 <= length - 64 * ((length - 4) / 64) < 68.
Proof.
  intros H. pose proof (Z.div_mod (length - 4) 64 ltac:(lia)).
  pose proof (Z.mod_pos_bound (length - 4) 64 ltac:(lia)). lia.
Qed.

Lemma len_chunksBytes_copy2 (offset : Z) (k : nat) :
  len (chunksBytes (replicate k (Copy2 offset 64))) = 3 * Z.of_nat k.
Proof.
  induction k as [|k IH]; [reflexivity|].
  cbn [replicate]. rewrite chunksBytes_cons, len_app, IH.
  cbn [chunkBytes]. rewrite !len_cons, len_nil. lia.
Qed.

Lemma emitCopy_loop_ok (fuel : nat) :
  forall (written rest : list byte) (offset length i : Z),
    i = len written ->
    length <= 64 * Z.of_nat fuel + 67 ->
    4 <= length ->
    3 * ((length - 4) / 64) <= len rest ->
    emitCopy_loop fuel (written ++ rest) offset length i
    = Ok ((written
           ++ chunksBytes (replicate (Z.to_nat ((length - 4) / 64))
                                     (Copy2 offset 64)))
          ++ drop (Z.to_nat (3 * ((length - 4) / 64))) rest,
          length - 64 * ((length - 4) / 64),
          i + 3 * ((length - 4) / 64)).
Proof.
  induction fuel as [|fuel IH]; intros written rest offset length i Hi Hf Hl Hr;
    cbn [emitCopy_loop]; rewrite Z.geb_leb;
    destruct (Z.leb_spec 68 length) as [Hge|Hlt]; try lia.
  - rewrite peel_done by lia.
    change (3 * 0) with 0. change (Z.to_nat 0) with 0%nat. cbn [replicate].
    rewrite chunksBytes_nil, app_nil_r, drop_0. res_eq.
  - pose proof (peel_nonneg (length - 64) ltac:(lia)) as Hk.
    rewrite (peel_step length) in * by lia.
    rewrite store3 by lia.
    rewrite IH; try lia.
    + replace (Z.to_nat ((length - 64 - 4) / 64 + 1))
        with (S (Z.to_nat ((length - 64 - 4) / 64))) by lia.
      cbn [replicate]. rewrite chunksBytes_cons. cbn [chunkBytes].
      rewrite drop_drop.
      replace (3 + Z.to_nat (3 * ((length - 64 - 4) / 64)))%nat
        with (Z.to_nat (3 * ((length - 64 - 4) / 64 + 1))) by lia.
      rewrite (u8_low offset), (u8_high offset).
      change (bor (bshl (u8 63) 2) tagCopy2) with (byte_of (4 * (64 - 1) + 2)).
      rewrite <- !app_assoc. cbn [app].
      res_eq.
    + rewrite len_app, !len_cons, len_nil. lia.
    + unfold len. rewrite length_drop. unfold len in Hr. lia.
  - rewrite peel_done by lia.
    change (3 * 0) with 0. change (Z.to_nat 0) with 0%nat. cbn [replicate].
    rewrite chunksBytes_nil, app_nil_r, drop_0. res_eq.
Qed.

Lemma len_chunkBytes_lastCopy (offset length : Z) :
  len (chunkBytes (lastCopy offset length))
  = if (length >=? 12) || (offset >=? 2048) then 3 else 2.
Proof. unfold lastCopy. case_match; reflexivity. Qed.

Lemma len_chunksBytes_copyTail (offset length : Z) :
  len (chunksBytes (copyTail offset length))
  = (if length >? 64 then 3 else 0)
    + (if ((if length >? 64 then length - 60 else length) >=? 12)
          || (offset >=? 2048) then 3 else 2).
Proof.
  unfold copyTail. destruct (length >? 64).
  - rewrite !chunksBytes_cons, chunksBytes_nil, !len_app, len_nil.
    rewrite len_chunkBytes_lastCopy. cbn [chunkBytes].
    rewrite !len_cons, len_nil. lia.
  - rewrite !chunksBytes_cons, chunksBytes_nil, !len_app, len_nil.
    rewrite len_chunkBytes_lastCopy. lia.
Qed.

(** The last chunk of a copy, as the source writes it. *)
Lemma emit_lastCopy {B} (written rest : list byte) (offset length i : Z)
      (K : list byte * Z -> res B) :
  i = len written ->
  0 <= offset <= 65535 -> 4 <= length <= 64 ->
  len (chunkBytes (lastCopy offset length)) <= len rest ->
  (if (length >=? 12) || (offset >=? 2048) then
     let* dst := store (written ++ rest) (i + 0)
                       (bor (bshl (u8 (length - 1)) 2) tagCopy2) in
     let* dst := store dst (i + 1) (u8 offset) in
     let* dst := store dst (i + 2) (u8 (Z.shiftr offset 8)) in
     K (dst, i + 3)
   else
     let* dst := store (written ++ rest) (i + 0)
                  (bor (bor (bshl (u8 (Z.shiftr offset 8)) 5)
                            (bshl (u8 (length - 4)) 2)) tagCopy1) in
     let* dst := store dst (i + 1) (u8 offset) in
     K (dst, i + 2))
  = K ((written ++ chunkBytes (lastCopy offset length))
       ++ drop (Z.to_nat (len (chunkBytes (lastCopy offset length)))) rest,
       i + len (chunkBytes (lastCopy offset length))).
Proof.
  intros Hi Ho Hl Hr. rewrite len_chunkBytes_lastCopy in *.
  unfold lastCopy.
  destruct ((length >=? 12) || (offset >=? 2048)) eqn:E.
  - rewrite store3 by lia.
    rewrite tag_copy2 by lia. rewrite (u8_low offset), (u8_high offset).
    reflexivity.
  - apply orb_false_elim in E as [E1 E2].
    rewrite Z.geb_leb in E1, E2. apply Z.leb_gt in E1, E2.
    rewrite store2 by lia.
    rewrite Z.shiftr_div_pow2 by lia. change (2 ^ 8) with 256.
    rewrite tag_copy1
      by first [lia | split; [apply Z.div_pos; lia
                             | apply Z.div_lt_upper_bound; lia]].
    rewrite (u8_low offset). reflexivity.
Qed.

Lemma len_chunkBytes_lastCopy_bounds (offset length : Z) :
  2 <= len (chunkBytes (lastCopy offset length)) <= 3.
Proof. rewrite len_chunkBytes_lastCopy. case_match; lia. Qed.

Lemma emitCopy_ok (dst : list byte) (offset length : Z) :
  1 <= offset <= 65535 -> 4 <= length <= 65535 ->
  len (chunksBytes (copyChunks offset length)) <= len dst ->
  emitCopy dst offset length
  = Ok (chunksBytes (copyChunks offset length)
        ++ drop (Z.to_nat (len (chunksBytes (copyChunks offset length)))) dst,
        len (chunksBytes (copyChunks offset length))).
Proof.
  intros Ho Hl Hd. unfold emitCopy, copyChunks in *.
  pose proof (peel_nonneg length ltac:(lia)) as Hk.
  pose proof (peel_rest length ltac:(lia)) as Hrem.
  set (k := (length - 4) / 64) in *.
  rewrite chunksBytes_app, len_app, len_chunksBytes_copy2 in *.
  rewrite Z2Nat.id in * by lia.
  change dst with ([] ++ dst) at 1.
  pose proof (len_nonneg (chunksBytes (copyTail offset (length - 64 * k))))
    as Ht.
  rewrite emitCopy_loop_ok; [ | reflexivity | lia | lia | fold k; lia ].
  fold k. cbn [bind app].
  set (W := chunksBytes (replicate (Z.to_nat k) (Copy2 offset 64))).
  assert (HW : len W = 3 * k)
    by (unfold W; rewrite len_chunksBytes_copy2; lia).
  assert (Hdrop : len (drop (Z.to_nat (3 * k)) dst) = len dst - 3 * k)
    by (apply len_drop; lia).
  unfold copyTail in *.
  rewrite Z.gtb_ltb in *.
  destruct (Z.ltb_spec 64 (length - 64 * k)) as [Hgt|Hle].
  - rewrite chunksBytes_2, ?len_app, ?len_chunkBytes_Copy2 in Hd |- *.
    cbn [chunkBytes].
    pose proof (len_chunkBytes_lastCopy_bounds offset (length - 64 * k - 60)) as Hb.
    rewrite store3 by lia. cbn [bind].
    rewrite emit_lastCopy; try lia.
    + change (bor (bshl (u8 59) 2) tagCopy2) with (byte_of (4 * (60 - 1) + 2)).
      rewrite (u8_low offset), (u8_high offset).
      rewrite 2 drop_drop. repeat rewrite <- app_assoc. cbn [app].
      res_eq. list_drop_eq.
    + unfold len in *. rewrite length_app. cbn [Datatypes.length]. lia.
    + rewrite drop_drop. unfold len in *. rewrite length_drop. lia.
  - rewrite chunksBytes_1 in Hd |- *.
    pose proof (len_chunkBytes_lastCopy_bounds offset (length - 64 * k)) as Hb.
    cbn [bind].
    rewrite emit_lastCopy; try lia.
    rewrite drop_drop. repeat rewrite <- app_assoc.
    res_eq. list_drop_eq.
Qed.

(** ** The reference decoder on what the emitters write *)

Lemma b2z_byte_of_small (z : Z) : 0 <= z < 256 -> b2z (byte_of z) = z.
Proof. intros H. unfold byte_of. rewrite b2z_u8. apply Z.mod_small. lia. Qed.

Lemma takeBytes_app (n : Z) (a b : list byte) :
  n = len a -> takeBytes n (a ++ b) = Some (a, b).
Proof.
  intros ->. unfold takeBytes.
  pose proof (len_nonneg a). pose proof (len_nonneg b).
  replace (0 <=? len a) with true by (symmetry; apply Z.leb_le; lia).
  replace (len a <=? len (a ++ b)) with true
    by (symmetry; apply Z.leb_le; rewrite len_app; lia).
  cbn [andb]. unfold len. rewrite Nat2Z.id, take_app_length, drop_app_length.
  reflexivity.
Qed.

Lemma takeBytes_0 (b : list byte) : takeBytes 0 b = Some ([], b).
Proof. exact (takeBytes_app 0 [] b eq_refl). Qed.

Lemma takeBytes_1 (a : byte) (b : list byte) :
  takeBytes 1 (a :: b) = Some ([a], b).
Proof. exact (takeBytes_app 1 [a] b eq_refl). Qed.

Lemma takeBytes_2 (a a' : byte) (b : list byte) :
  takeBytes 2 (a :: a' :: b) = Some ([a; a'], b).
Proof. exact (takeBytes_app 2 [a; a'] b eq_refl). Qed.

Lemma tag_literal_parse (n : Z) :
  0 <= n < 60 ->
  Z.land (b2z (byte_of (4 * n))) 3 = 0 /\ Z.shiftr (b2z (byte_of (4 * n))) 2 = n.
Proof.
  intros Hn.
  pose proof (range_check
    (fun n => (Z.land (b2z (byte_of (4 * n))) 3 =? 0)
              && (Z.shiftr (b2z (byte_of (4 * n))) 2 =? n))
    0 60 ltac:(vm_compute; reflexivity) n ltac:(lia)) as H.
  cbv beta in H. apply andb_true_iff in H as [H1 H2].
  apply Z.eqb_eq in H1, H2. auto.
Qed.

Lemma tag_copy2_parse (n : Z) :
  1 <= n <= 64 ->
  Z.land (b2z (byte_of (4 * (n - 1) + 2))) 3 = 2
  /\ Z.shiftr (b2z (byte_of (4 * (n - 1) + 2))) 2 = n - 1.
Proof.
  intros Hn.
  pose proof (range_check
    (fun n => (Z.land (b2z (byte_of (4 * (n - 1) + 2))) 3 =? 2)
              && (Z.shiftr (b2z (byte_of (4 * (n - 1) + 2))) 2 =? n - 1))
    1 64 ltac:(vm_compute; reflexivity) n ltac:(lia)) as H.
  cbv beta in H. apply andb_true_iff in H as [H1 H2].
  apply Z.eqb_eq in H1, H2. auto.
Qed.

Lemma tag_copy1_parse (h n : Z) :
  0 <= h < 8 -> 4 <= n < 12 ->
  let t := b2z (byte_of (32 * h + 4 * (n - 4) + 1)) in
  Z.land t 3 = 1 /\ Z.shiftr t 5 = h /\ Z.land (Z.shiftr t 2) 7 = n - 4.
Proof.
  intros Hh Hn.
  pose proof (range_check
    (fun h => forallb (fun n =>
       let t := b2z (byte_of (32 * h + 4 * (n - 4) + 1)) in
       (Z.land t 3 =? 1) && (Z.shiftr t 5 =? h)
       && (Z.land (Z.shiftr t 2) 7 =? n - 4)) (seqZ 4 8))
    0 8 ltac:(vm_compute; reflexivity) h ltac:(lia)) as H.
  cbv beta in H.
  pose proof (range_check _ 4 8 H n ltac:(lia)) as H'.
  cbv beta zeta in H'. apply andb_true_iff in H' as [H' H3].
  apply andb_true_iff in H' as [H1 H2].
  apply Z.eqb_eq in H1, H2, H3. cbv zeta. auto.
Qed.

Lemma le_1 (z : Z) : 0 <= z < 256 -> le [byte_of z] = z.
Proof. intros H. cbn [le foldr]. rewrite b2z_byte_of_small by lia. lia. Qed.

Lemma le_2 (z : Z) :
  0 <= z < 65536 -> le [byte_of (z mod 256); byte_of (z / 256)] = z.
Proof.
  intros H. cbn [le foldr].
  pose proof (Z.mod_pos_bound z 256 ltac:(lia)).
  pose proof (Z.div_mod z 256 ltac:(lia)).
  assert (0 <= z / 256 < 256)
    by (split; [apply Z.div_pos; lia | apply Z.div_lt_upper_bound; lia]).
  rewrite !b2z_byte_of_small by lia. lia.
Qed.

Lemma parseChunk_chunkBytes (c : chunk) (rest : list byte) :
  wire c -> parseChunk (chunkBytes c ++ rest) = Some (c, rest).
Proof.
  destruct c as [bs|offset n|offset n|offset n]; cbn [wire chunkBytes].
  - intros Hb. unfold literalHeader. set (m := len bs - 1).
    destruct (m <? 60) eqn:E1; [apply Z.ltb_lt in E1|apply Z.ltb_ge in E1].
    + destruct (tag_literal_parse m ltac:(lia)) as [H1 H2].
      cbn [app parseChunk]. rewrite H1, H2. cbn [Z.eqb].
      replace (m <? 60) with true by (symmetry; apply Z.ltb_lt; lia).
      rewrite takeBytes_0. cbn [mbind option_bind].
      rewrite takeBytes_app by (unfold m; lia). reflexivity.
    + destruct (m <? 256) eqn:E2; [apply Z.ltb_lt in E2|apply Z.ltb_ge in E2].
      * cbn [app parseChunk].
        change (b2z (byte_of (4 * 60))) with 240.
        change (Z.land 240 3) with 0. change (Z.shiftr 240 2) with 60.
        cbn [Z.eqb]. change (60 <? 60) with false. cbv iota.
        change (60 - 59) with 1.
        rewrite takeBytes_1.
        cbn [mbind option_bind]. rewrite le_1 by lia.
        rewrite takeBytes_app by (unfold m; lia). reflexivity.
      * cbn [app parseChunk].
        change (b2z (byte_of (4 * 61))) with 244.
        change (Z.land 244 3) with 0. change (Z.shiftr 244 2) with 61.
        cbn [Z.eqb]. change (61 <? 60) with false. cbv iota.
        change (61 - 59) with 2.
        rewrite takeBytes_2.
        cbn [mbind option_bind]. rewrite le_2 by lia.
        rewrite takeBytes_app by (unfold m; lia). reflexivity.
  - intros [Ho Hn].
    assert (Hh : 0 <= offset / 256 < 8)
      by (split; [apply Z.div_pos; lia | apply Z.div_lt_upper_bound; lia]).
    destruct (tag_copy1_parse (offset / 256) n Hh Hn) as (H1 & H2 & H3).
    cbn [app parseChunk]. cbv zeta in H1, H2, H3. rewrite H1, H2, H3.
    change (1 =? 0) with false. change (1 =? 1) with true. cbv iota.
    rewrite takeBytes_1.
    cbn [mbind option_bind].
    pose proof (Z.mod_pos_bound offset 256 ltac:(lia)).
    rewrite le_1 by lia.
    pose proof (Z.div_mod offset 256 ltac:(lia)).
    repeat f_equal; lia.
  - intros [Ho Hn].
    destruct (tag_copy2_parse n Hn) as [H1 H2].
    cbn [app parseChunk]. rewrite H1, H2.
    change (2 =? 0) with false. change (2 =? 1) with false.
    change (2 =? 2) with true. cbv iota.
    rewrite takeBytes_2.
    cbn [mbind option_bind]. rewrite le_2 by lia.
    repeat f_equal; lia.
  - intros [].
Qed.

Lemma chunkBytes_nonempty (c : chunk) : 1 <= len (chunkBytes c).
Proof.
  destruct c; cbn [chunkBytes]; rewrite ?len_app, ?len_cons, ?len_nil;
    try lia.
  pose proof (len_literalHeader_bounds (len bs - 1)).
  pose proof (len_nonneg bs). lia.
Qed.

Lemma parseChunks_chunksBytes (cs : list chunk) :
  Forall wire cs ->
  forall fuel, (length cs <= fuel)%nat ->
    parseChunks fuel (chunksBytes cs) = Some cs.
Proof.
  induction 1 as [|c cs Hc Hcs IH]; intros fuel Hf.
  - destruct fuel; reflexivity.
  - destruct fuel as [|fuel]; [cbn [length] in Hf; lia|].
    rewrite chunksBytes_cons.
    pose proof (chunkBytes_nonempty c) as Hne.
    destruct (chunkBytes c ++ chunksBytes cs) as [|b l] eqn:E.
    + apply (f_equal len) in E. rewrite len_app, len_nil in E.
      pose proof (len_nonneg (chunksBytes cs)). lia.
    + cbn [parseChunks]. rewrite <- E.
      rewrite parseChunk_chunkBytes by assumption.
      cbn [mbind option_bind].
      rewrite IH by (cbn [length] in Hf; lia). reflexivity.
Qed.

Lemma length_chunksBytes (cs : list chunk) :
  (length cs <= length (chunksBytes cs))%nat.
Proof.
  induction cs as [|c cs IH]; [cbn; lia|].
  rewrite chunksBytes_cons, length_app. cbn [length].
  pose proof (chunkBytes_nonempty c) as H. unfold len in H. lia.
Qed.

(** A well-formed chunk list parses back from its bytes. *)
Lemma parse_chunksBytes (cs : list chunk) :
  Forall wire cs ->
  parseChunks (length (chunksBytes cs)) (chunksBytes cs) = Some cs.
Proof.
  intros H. apply parseChunks_chunksBytes; [exact H|apply length_chunksBytes].
Qed.

(** ** The varint that opens a block *)

Lemma pow2_7_step (fuel : nat) :
  2 ^ (7 * (Z.of_nat (S fuel) + 1)) = 128 * 2 ^ (7 * (Z.of_nat fuel + 1)).
Proof.
  replace (7 * (Z.of_nat (S fuel) + 1)) with (7 + 7 * (Z.of_nat fuel + 1)) by lia.
  rewrite Z.pow_add_r by lia. reflexivity.
Qed.

Lemma shiftr7_bound (fuel : nat) (x : Z) :
  0 <= x < 2 ^ (7 * (Z.of_nat (S fuel) + 1)) ->
  0 <= Z.shiftr x 7 < 2 ^ (7 * (Z.of_nat fuel + 1)).
Proof.
  intros H. rewrite pow2_7_step in H. rewrite Z.shiftr_div_pow2 by lia.
  change (2 ^ 7) with 128. split.
  - apply Z.div_pos; lia.
  - apply Z.div_lt_upper_bound; lia.
Qed.

Lemma len_varintBytes (fuel : nat) (x : Z) :
  1 <= len (varintBytes fuel x) <= Z.of_nat fuel + 1.
Proof.
  revert x. induction fuel as [|fuel IH]; intros x; cbn [varintBytes].
  - rewrite len_cons, len_nil. lia.
  - destruct (x >=? 128).
    + rewrite len_cons. specialize (IH (Z.shiftr x 7)). lia.
    + rewrite len_cons, len_nil. lia.
Qed.

Lemma PutUvarint_loop_ok (fuel : nat) :
  forall (written rest : list byte) (x i : Z),
    i = len written ->
    0 <= x < 2 ^ (7 * (Z.of_nat fuel + 1)) ->
    len (varintBytes fuel x) <= len rest ->
    PutUvarint_loop fuel (written ++ rest) x i
    = Ok ((written ++ varintBytes fuel x)
          ++ drop (Z.to_nat (len (varintBytes fuel x))) rest,
          i + len (varintBytes fuel x)).
Proof.
  assert (Hsmall : forall fuel written rest x i,
            i = len written -> 0 <= x < 128 -> 1 <= len rest ->
            PutUvarint_loop fuel (written ++ rest) x i
            = Ok ((written ++ [u8 x]) ++ drop (Z.to_nat 1) rest, i + 1)).
  { intros f written rest x i Hi Hx Hr.
    destruct rest as [|r0 rest]; [rewrite len_nil in Hr; lia|].
    destruct f; cbn [PutUvarint_loop];
      (replace (x >=? 128) with false
        by (symmetry; rewrite Z.geb_leb; apply Z.leb_gt; lia));
      rewrite store_at by assumption; cbn [bind];
      rewrite <- app_assoc; reflexivity. }
  induction fuel as [|fuel IH]; intros written rest x i Hi Hx Hr.
  - change (2 ^ (7 * (Z.of_nat 0 + 1))) with 128 in Hx.
    cbn [varintBytes] in *. rewrite len_1 in *. apply Hsmall; assumption.
  - cbn [varintBytes] in *. rewrite Z.geb_leb in *.
    destruct (Z.leb_spec 128 x) as [Hge|Hlt].
    + rewrite len_cons in *.
      pose proof (len_varintBytes fuel (Z.shiftr x 7)) as Hv.
      destruct rest as [|r0 rest]; [rewrite len_nil in Hr; lia|].
      rewrite len_cons in Hr.
      cbn [PutUvarint_loop].
      replace (x >=? 128) with true
        by (symmetry; rewrite Z.geb_leb; apply Z.leb_le; lia).
      rewrite store_at by assumption. cbn [bind].
      replace (written ++ bor (u8 x) x80 :: rest)
        with ((written ++ [bor (u8 x) x80]) ++ rest)
        by (rewrite <- app_assoc; reflexivity).
      rewrite IH.
      * repeat rewrite <- app_assoc. cbn [app]. res_eq.
        replace (Z.to_nat (1 + len (varintBytes fuel (Z.shiftr x 7))))
          with (S (Z.to_nat (len (varintBytes fuel (Z.shiftr x 7))))) by lia.
        reflexivity.
      * rewrite len_app, len_1. lia.
      * apply shiftr7_bound. exact Hx.
      * lia.
    + rewrite len_1 in *. apply Hsmall; try assumption. lia.
Qed.

Lemma PutUvarint_ok (buf : list byte) (x : Z) :
  0 <= x < 2 ^ 64 ->
  11 <= len buf ->
  PutUvarint buf x
  = Ok (varintBytes 10 x ++ drop (Z.to_nat (len (varintBytes 10 x))) buf,
        len (varintBytes 10 x)).
Proof.
  intros Hx Hb. unfold PutUvarint.
  pose proof (len_varintBytes 10 x) as Hv.
  change buf with ([] ++ buf) at 1.
  rewrite (PutUvarint_loop_ok 10 [] buf x 0); [reflexivity|reflexivity| |lia].
  change (2 ^ (7 * (Z.of_nat 10 + 1))) with (2 ^ 77).
  assert (2 ^ 64 < 2 ^ 77) by (apply Z.pow_lt_mono_r; lia). lia.
Qed.

Lemma varint_byte (x : Z) :
  (b2z (bor (u8 x) x80) <? 128) = false
  /\ Z.land (b2z (bor (u8 x) x80)) 127 = x mod 128.
Proof.
  rewrite <- (u8_mod x).
  pose proof (Z.mod_pos_bound x 256 ltac:(lia)) as Hm.
  pose proof (range_check
    (fun t => negb (b2z (bor (u8 t) x80) <? 128)
              && (Z.land (b2z (bor (u8 t) x80)) 127 =? t mod 128))
    0 256 ltac:(vm_compute; reflexivity) (x mod 256) ltac:(lia)) as H.
  cbv beta in H. apply andb_true_iff in H as [H1 H2].
  apply negb_true_iff in H1. apply Z.eqb_eq in H2.
  split; [exact H1|]. rewrite H2.
  change 256 with (128 * 2). rewrite Z.rem_mul_r by lia.
  rewrite (Z.mul_comm 128), Z.mod_add by lia. apply Z.mod_mod. lia.
Qed.

Lemma split7 (x : Z) :
  Z.lor (x mod 128) (Z.shiftl (Z.shiftr x 7) 7) = x.
Proof.
  change 128 with (2 ^ 7).
  apply Z.bits_inj'. intros n Hn. rewrite Z.lor_spec.
  destruct (Z.ltb_spec n 7).
  - rewrite Z.mod_pow2_bits_low, Z.shiftl_spec_low by lia.
    apply orb_false_r.
  - rewrite Z.mod_pow2_bits_high, Z.shiftl_spec, Z.shiftr_spec by lia.
    cbn [orb]. f_equal. lia.
Qed.

Lemma Uvarint_varintBytes (fuel : nat) :
  forall (x s acc : Z) (rest : list byte),
    0 <= x < 2 ^ (7 * (Z.of_nat fuel + 1)) ->
    0 <= s -> s + 7 * Z.of_nat fuel <= 63 ->
    Uvarint (varintBytes fuel x ++ rest) s acc
    = Some (Z.lor acc (Z.shiftl x s), rest).
Proof.
  assert (Hsmall : forall x s acc rest, 0 <= x < 128 -> 0 <= s <= 63 ->
            Uvarint ([u8 x] ++ rest) s acc
            = Some (Z.lor acc (Z.shiftl x s), rest)).
  { intros x s acc rest Hx Hs. cbn [app Uvarint].
    replace (63 <? s) with false by (symmetry; apply Z.ltb_ge; lia).
    rewrite b2z_u8, Z.mod_small by lia.
    replace (x <? 128) with true by (symmetry; apply Z.ltb_lt; lia).
    reflexivity. }
  induction fuel as [|fuel IH]; intros x s acc rest Hx Hs Hf;
    cbn [varintBytes].
  - apply Hsmall; [exact Hx | lia].
  - rewrite Z.geb_leb. destruct (Z.leb_spec 128 x) as [Hge|Hlt].
    + destruct (varint_byte x) as [H1 H2].
      cbn [app Uvarint].
      replace (63 <? s) with false by (symmetry; apply Z.ltb_ge; lia).
      rewrite H1, H2.
      rewrite IH; [|apply shiftr7_bound; exact Hx|lia|lia].
      f_equal. f_equal.
      rewrite <- Z.lor_assoc. f_equal.
      replace (s + 7) with (7 + s) by lia.
      rewrite <- Z.shiftl_shiftl by lia.
      rewrite <- Z.shiftl_lor. rewrite split7. reflexivity.
    + apply Hsmall; lia.
Qed.

Lemma Uvarint_PutUvarint (x : Z) (rest : list byte) :
  0 <= x < 2 ^ 64 ->
  Uvarint (varintBytes 10 x ++ rest) 0 0 = Some (x, rest).
Proof.
  intros Hx.
  assert (2 ^ 64 < 2 ^ 70) by (apply Z.pow_lt_mono_r; lia).
  (* nine continuation bytes suffice below 2^70 *)
  assert (Heq : varintBytes 10 x = varintBytes 9 x).
  { assert (G : forall fuel x, 0 <= x < 2 ^ (7 * (Z.of_nat fuel + 1)) ->
                varintBytes (S fuel) x = varintBytes fuel x).
    { clear. induction fuel as [|fuel IH]; intros x Hx.
      - change (2 ^ (7 * (Z.of_nat 0 + 1))) with 128 in Hx.
        cbn [varintBytes].
        replace (x >=? 128) with false
          by (symmetry; rewrite Z.geb_leb; apply Z.leb_gt; lia).
        reflexivity.
      - change (varintBytes (S (S fuel)) x)
          with (if x >=? 128
                then bor (u8 x) x80 :: varintBytes (S fuel) (Z.shiftr x 7)
                else [u8 x]).
        rewrite IH by (apply shiftr7_bound; exact Hx). reflexivity. }
    apply G. change (2 ^ (7 * (Z.of_nat 9 + 1))) with (2 ^ 70). lia. }
  rewrite Heq.
  rewrite (Uvarint_varintBytes 9); [|change (2 ^ (7 * (Z.of_nat 9 + 1))) with (2 ^ 70); lia|lia|simpl; lia].
  rewrite Z.shiftl_0_r, Z.lor_0_l. reflexivity.
Qed.

(** ** Executing the chunks of a log *)

Lemma execChunks_app (a b : list chunk) (out : list byte) :
  execChunks (a ++ b) out = execChunks a out ≫= execChunks b.
Proof.
  revert out. induction a as [|c a IH]; intros out; cbn [app execChunks].
  - reflexivity.
  - destruct (execChunk out c); cbn [mbind option_bind]; [apply IH|reflexivity].
Qed.

Lemma copyBack_replay (pre src : list byte) (off : nat) :
  forall (n base : nat),
    (1 <= off <= base)%nat -> (base + n <= length src)%nat ->
    (forall k, (k < n)%nat ->
       src !! (base + k)%nat = src !! (base - off + k)%nat) ->
    copyBack n off (pre ++ take base src) = Some (pre ++ take (base + n) src).
Proof.
  induction n as [|n IH]; intros base Ho Hl Hm; cbn [copyBack].
  - rewrite Nat.add_0_r. reflexivity.
  - destruct (lookup_lt_is_Some_2 src base ltac:(lia)) as [b Hb].
    assert (Hlook : (pre ++ take base src)
                      !! (length (pre ++ take base src) - off)%nat = Some b).
    { rewrite length_app, length_take_le by lia.
      rewrite lookup_app_r by lia.
      replace (length pre + base - off - length pre)%nat
        with (base - off)%nat by lia.
      rewrite lookup_take_lt by lia.
      rewrite <- Hb. pose proof (Hm 0%nat ltac:(lia)) as H0.
      rewrite !Nat.add_0_r in H0. symmetry. exact H0. }
    rewrite Hlook. cbn [mbind option_bind].
    rewrite <- app_assoc, <- (take_S_r _ _ _ Hb).
    rewrite IH.
    + replace (S base + n)%nat with (base + S n)%nat by lia. reflexivity.
    + lia.
    + lia.
    + intros k Hk. pose proof (Hm (S k) ltac:(lia)) as H1.
      replace (S base + k)%nat with (base + S k)%nat by lia.
      replace (S base - off + k)%nat with (base - off + S k)%nat by lia.
      exact H1.
Qed.

Lemma execCopy_replay (pre src : list byte) (base candidate n a m : Z) :
  matches src base candidate n ->
  0 <= a -> 0 <= m -> a + m <= n ->
  execCopy (pre ++ take (Z.to_nat (base + a)) src) (base - candidate) m
  = Some (pre ++ take (Z.to_nat (base + a + m)) src).
Proof.
  intros (Hc & Hn & Hl & Hm) Ha Hm0 Ham. unfold execCopy.
  assert (Hlen : len (pre ++ take (Z.to_nat (base + a)) src)
                 = len pre + (base + a)).
  { rewrite len_app. f_equal. apply len_take. lia. }
  pose proof (len_nonneg pre).
  replace (1 <=? base - candidate) with true by (symmetry; apply Z.leb_le; lia).
  replace (base - candidate <=? _) with true
    by (symmetry; apply Z.leb_le; lia).
  replace (0 <=? m) with true by (symmetry; apply Z.leb_le; lia).
  cbn [andb].
  rewrite copyBack_replay.
  - replace (Z.to_nat (base + a) + Z.to_nat m)%nat
      with (Z.to_nat (base + a + m)) by lia. reflexivity.
  - lia.
  - unfold len in Hl. lia.
  - intros k Hk.
    pose proof (Hm (a + Z.of_nat k) ltac:(lia)) as H1.
    replace (Z.to_nat (base + a) + k)%nat
      with (Z.to_nat (base + (a + Z.of_nat k))) by lia.
    replace (Z.to_nat (base + a) - Z.to_nat (base - candidate) + k)%nat
      with (Z.to_nat (candidate + (a + Z.of_nat k))) by lia.
    exact H1.
Qed.

Lemma exec_copy64s (pre src : list byte) (base candidate n : Z) :
  matches src base candidate n ->
  forall (k : nat) (a : Z),
    0 <= a -> a + 64 * Z.of_nat k <= n ->
    execChunks (replicate k (Copy2 (base - candidate) 64))
               (pre ++ take (Z.to_nat (base + a)) src)
    = Some (pre ++ take (Z.to_nat (base + a + 64 * Z.of_nat k)) src).
Proof.
  intros Hm. induction k as [|k IH]; intros a Ha Hk; cbn [replicate execChunks].
  - replace (base + a + 64 * Z.of_nat 0) with (base + a) by lia. reflexivity.
  - cbn [execChunk].
    rewrite (execCopy_replay pre src base candidate n a 64 Hm) by lia.
    cbn [mbind option_bind].
    replace (base + a + 64) with (base + (a + 64)) by lia.
    rewrite IH by lia.
    replace (base + (a + 64) + 64 * Z.of_nat k)
      with (base + a + 64 * Z.of_nat (S k)) by lia. reflexivity.
Qed.

Lemma exec_lastCopy (pre src : list byte) (base candidate n a m : Z) :
  matches src base candidate n ->
  0 <= a -> 0 <= m -> a + m <= n ->
  execChunk (pre ++ take (Z.to_nat (base + a)) src)
            (lastCopy (base - candidate) m)
  = Some (pre ++ take (Z.to_nat (base + a + m)) src).
Proof.
  intros Hm Ha Hm0 Ham. unfold lastCopy.
  destruct ((m >=? 12) || (base - candidate >=? 2048)); cbn [execChunk];
    apply (execCopy_replay pre src base candidate n a m Hm); lia.
Qed.

Lemma exec_copyChunks (pre src : list byte) (base candidate n : Z) :
  matches src base candidate n -> 4 <= n ->
  execChunks (copyChunks (base - candidate) n)
             (pre ++ take (Z.to_nat base) src)
  = Some (pre ++ take (Z.to_nat (base + n)) src).
Proof.
  intros Hm Hn. unfold copyChunks.
  pose proof (peel_nonneg n Hn) as Hk.
  pose proof (peel_rest n Hn) as Hrem.
  set (k := (n - 4) / 64) in *.
  rewrite execChunks_app.
  replace (Z.to_nat base) with (Z.to_nat (base + 0)) by (f_equal; lia).
  rewrite (exec_copy64s pre src base candidate n Hm) by lia.
  cbn [mbind option_bind]. rewrite Z2Nat.id by lia.
  unfold copyTail. rewrite Z.gtb_ltb.
  destruct (Z.ltb_spec 64 (n - 64 * k)) as [Hgt|Hle]; cbn [execChunks execChunk].
  - replace (base + 0 + 64 * k) with (base + (64 * k)) by lia.
    rewrite (execCopy_replay pre src base candidate n (64 * k) 60 Hm) by lia.
    cbn [mbind option_bind].
    replace (base + 64 * k + 60) with (base + (64 * k + 60)) by lia.
    rewrite (exec_lastCopy pre src base candidate n (64 * k + 60) _ Hm) by lia.
    cbn [mbind option_bind].
    replace (base + (64 * k + 60) + (n - 64 * k - 60)) with (base + n) by lia.
    reflexivity.
  - replace (base + 0 + 64 * k) with (base + (64 * k)) by lia.
    rewrite (exec_lastCopy pre src base candidate n (64 * k) _ Hm) by lia.
    cbn [mbind option_bind].
    replace (base + 64 * k + (n - 64 * k)) with (base + n) by lia.
    reflexivity.
Qed.

Lemma len_sub (src : list byte) (lo hi : Z) :
  0 <= lo <= hi -> hi <= len src -> len (sub src lo hi) = hi - lo.
Proof.
  intros H1 H2. unfold sub. rewrite len_take; [lia|].
  rewrite len_drop by lia. lia.
Qed.

Lemma take_sub (src : list byte) (lo hi : Z) :
  0 <= lo <= hi ->
  take (Z.to_nat lo) src ++ sub src lo hi = take (Z.to_nat hi) src.
Proof.
  intros H. unfold sub. rewrite take_take_drop. f_equal. lia.
Qed.

Lemma logChunks_snoc (src : list byte) (log : list event) (e : event) :
  logChunks src (log ++ [e]) = logChunks src log ++ eventChunks src e.
Proof.
  unfold logChunks. rewrite map_app, concat_app. cbn [map concat].
  rewrite app_nil_r. reflexivity.
Qed.

Lemma trace_pos (src : list byte) (log : list event) (pos : Z) :
  trace src log pos -> 0 <= pos <= len src.
Proof.
  induction 1 as [|log pos hi Ht IH Hh Hl
                  |log base candidate s Ht IH Ho Hn Hm
                  |log pos v Ht IH Hv].
  - pose proof (len_nonneg src). lia.
  - lia.
  - destruct Hm as (? & ? & ? & ?). lia.
  - exact IH.
Qed.

(** Decoding the chunks of a log that accounts for [src[0:pos]] appends
    exactly these bytes, whatever was decoded before. *)
Lemma exec_trace (src : list byte) (log : list event) (pos : Z) :
  trace src log pos ->
  forall pre,
    execChunks (logChunks src log) pre
    = Some (pre ++ take (Z.to_nat pos) src).
Proof.
  induction 1 as [|log pos hi Ht IH Hh Hl
                  |log base candidate s Ht IH Ho Hn Hm
                  |log pos v Ht IH Hv]; intros pre.
  - cbn. rewrite app_nil_r. reflexivity.
  - pose proof (trace_pos _ _ _ Ht).
    rewrite logChunks_snoc, execChunks_app, IH. cbn.
    rewrite <- app_assoc, take_sub by lia. reflexivity.
  - rewrite logChunks_snoc, execChunks_app, IH. cbn [mbind option_bind eventChunks].
    rewrite (exec_copyChunks pre src base candidate (s - base) Hm) by lia.
    replace (base + (s - base)) with s by lia. reflexivity.
  - rewrite logChunks_snoc, execChunks_app, IH. cbn. reflexivity.
Qed.

Lemma wire_copyChunks (offset n : Z) :
  1 <= offset <= 65535 -> 4 <= n -> Forall wire (copyChunks offset n).
Proof.
  intros Ho Hn. unfold copyChunks.
  pose proof (peel_rest n Hn) as Hrem. set (k := (n - 4) / 64) in *.
  apply Forall_app. split.
  - apply Forall_replicate. cbn. lia.
  - assert (Hlast : forall m, 4 <= m <= 64 -> wire (lastCopy offset m)).
    { intros m Hm. unfold lastCopy.
      destruct ((m >=? 12) || (offset >=? 2048)) eqn:E; cbn [wire]; [lia|].
      apply orb_false_elim in E as [E1 E2].
      rewrite Z.geb_leb in E1, E2. apply Z.leb_gt in E1, E2. lia. }
    unfold copyTail. rewrite Z.gtb_ltb.
    destruct (Z.ltb_spec 64 (n - 64 * k)).
    + apply Forall_cons. split; [cbn; lia|].
      apply Forall_cons. split; [apply Hlast; lia|apply Forall_nil_2].
    + apply Forall_cons. split; [apply Hlast; lia|apply Forall_nil_2].
Qed.

Lemma wire_trace (src : list byte) (log : list event) (pos : Z) :
  trace src log pos -> Forall wire (logChunks src log).
Proof.
  induction 1 as [|log pos hi Ht IH Hh Hl
                  |log base candidate s Ht IH Ho Hn Hm
                  |log pos v Ht IH Hv].
  - apply Forall_nil_2.
  - pose proof (trace_pos _ _ _ Ht).
    rewrite logChunks_snoc. apply Forall_app. split; [exact IH|].
    cbn [eventChunks]. apply Forall_cons. split; [|apply Forall_nil_2].
    cbn [wire]. rewrite len_sub by lia. lia.
  - rewrite logChunks_snoc. apply Forall_app. split; [exact IH|].
    cbn [eventChunks]. apply wire_copyChunks; lia.
  - rewrite logChunks_snoc. apply Forall_app. split; [exact IH|].
    apply Forall_nil_2.
Qed.

Lemma chunksLen_app (a b : list chunk) :
  chunksLen (a ++ b) = chunksLen a + chunksLen b.
Proof.
  induction a as [|c a IH]; [reflexivity|].
  change (chunksLen ((c :: a) ++ b)) with (chunkLen c + chunksLen (a ++ b)).
  change (chunksLen (c :: a)) with (chunkLen c + chunksLen a). lia.
Qed.

Lemma chunksLen_copyChunks (offset n : Z) :
  4 <= n -> chunksLen (copyChunks offset n) = n.
Proof.
  intros Hn. unfold copyChunks.
  pose proof (peel_nonneg n Hn) as Hk.
  set (k := (n - 4) / 64) in *.
  rewrite chunksLen_app.
  assert (H64 : forall j : nat,
            chunksLen (replicate j (Copy2 offset 64)) = 64 * Z.of_nat j).
  { induction j as [|j IH]; [reflexivity|].
    change (chunksLen (replicate (S j) (Copy2 offset 64)))
      with (64 + chunksLen (replicate j (Copy2 offset 64))).
    rewrite IH. lia. }
  rewrite H64, Z2Nat.id by lia.
  assert (Hlast : forall m, chunkLen (lastCopy offset m) = m)
    by (intros m; unfold lastCopy; case_match; reflexivity).
  unfold copyTail. destruct (n - 64 * k >? 64);
    cbn [chunksLen foldr chunkLen]; rewrite Hlast; lia.
Qed.

(** The chunks of a log decode to as many bytes as the log accounts for. *)
Lemma chunksLen_trace (src : list byte) (log : list event) (pos : Z) :
  trace src log pos -> chunksLen (logChunks src log) = pos.
Proof.
  induction 1 as [|log pos hi Ht IH Hh Hl
                  |log base candidate s Ht IH Ho Hn Hm
                  |log pos v Ht IH Hv].
  - reflexivity.
  - pose proof (trace_pos _ _ _ Ht).
    rewrite logChunks_snoc, chunksLen_app, IH.
    cbn [eventChunks chunksLen foldr chunkLen].
    rewrite len_sub by lia. lia.
  - rewrite logChunks_snoc, chunksLen_app, IH.
    cbn [eventChunks]. rewrite chunksLen_copyChunks by lia. lia.
  - rewrite logChunks_snoc, chunksLen_app, IH. cbn. lia.
Qed.

(** ** The cost of chunks in bytes *)

Lemma copy_cost (offset n : Z) :
  4 <= n -> 64 * len (chunksBytes (copyChunks offset n)) <= 65 * n - 68.
Proof.
  intros Hn. unfold copyChunks.
  pose proof (peel_nonneg n Hn) as Hk.
  pose proof (peel_rest n Hn) as Hrem.
  set (k := (n - 4) / 64) in *.
  rewrite chunksBytes_app, len_app, len_chunksBytes_copy2, Z2Nat.id by lia.
  unfold copyTail. rewrite Z.gtb_ltb.
  destruct (Z.ltb_spec 64 (n - 64 * k)).
  - rewrite chunksBytes_2, len_app, len_chunkBytes_Copy2.
    pose proof (len_chunkBytes_lastCopy_bounds offset (n - 64 * k - 60)). lia.
  - rewrite chunksBytes_1.
    pose proof (len_chunkBytes_lastCopy_bounds offset (n - 64 * k)). lia.
Qed.

Lemma literal_cost (n : Z) :
  1 <= n -> 64 * len (literalHeader (n - 1)) <= n + 68.
Proof. intros H. rewrite len_literalHeader. repeat case_match; lia. Qed.

(** ** load32 and load64 *)

Ltac pow_consts :=
  change (2 ^ 8) with 256 in *; change (2 ^ 16) with 65536 in *;
  change (2 ^ 24) with 16777216 in *; change (2 ^ 32) with 4294967296 in *;
  change (2 ^ 40) with 1099511627776 in *;
  change (2 ^ 48) with 281474976710656 in *;
  change (2 ^ 56) with 72057594037927936 in *.

Lemma lor_shiftl_add (a b k : Z) :
  0 <= k -> 0 <= a < 2 ^ k -> Z.lor a (Z.shiftl b k) = a + 2 ^ k * b.
Proof.
  intros Hk Ha.
  assert (Hland : Z.land a (Z.shiftl b k) = 0).
  { apply Z.bits_inj'. intros n Hn. rewrite Z.land_spec, Z.bits_0.
    destruct (Z.ltb_spec n k).
    - rewrite Z.shiftl_spec_low by lia. apply andb_false_r.
    - rewrite <- (Z.mod_small a (2 ^ k)) by lia.
      rewrite Z.mod_pow2_bits_high by lia. reflexivity. }
  rewrite <- Z.lxor_lor by exact Hland.
  rewrite <- Z.add_nocarry_lxor by exact Hland.
  rewrite Z.shiftl_mul_pow2 by lia. lia.
Qed.

Lemma byteZ_range (src : list byte) (i : Z) : 0 <= byteZ src i < 256.
Proof.
  unfold byteZ. destruct (src !! Z.to_nat i); [apply b2z_range|lia].
Qed.

Lemma val32_range (src : list byte) (i : Z) : 0 <= val32 src i < 2 ^ 32.
Proof.
  unfold val32.
  pose proof (byteZ_range src i). pose proof (byteZ_range src (i + 1)).
  pose proof (byteZ_range src (i + 2)). pose proof (byteZ_range src (i + 3)).
  change (2 ^ 8) with 256. change (2 ^ 16) with 65536.
  change (2 ^ 24) with 16777216. change (2 ^ 32) with 4294967296. lia.
Qed.

(** Reading inside a slice. *)
Lemma index_slice (b s : list byte) (i n k : Z) :
  slice b i (i + n) = Ok s -> 0 <= k < n ->
  index s k = Ok (u8 (byteZ b (i + k))) /\ b2z (u8 (byteZ b (i + k))) = byteZ b (i + k).
Proof.
  intros Hs Hk. apply slice_inv in Hs as (H1 & H2 & ->).
  assert (Hlook : take (Z.to_nat (i + n - i)) (drop (Z.to_nat i) b)
                    !! Z.to_nat k = b !! Z.to_nat (i + k)).
  { rewrite lookup_take_lt by lia. rewrite lookup_drop. f_equal. lia. }
  destruct (lookup_lt_is_Some_2 b (Z.to_nat (i + k))) as [x Hx];
    [unfold len in H2; lia|].
  unfold byteZ. rewrite Hx, u8_b2z. split; [|reflexivity].
  apply index_Ok; [lia|]. rewrite Hlook. exact Hx.
Qed.

Lemma load32_val (b : list byte) (i : Z) :
  0 <= i -> i + 4 <= len b -> load32 b i = Ok (val32 b i).
Proof.
  intros Hi Hl. unfold load32.
  pose proof (slice_Ok b i (i + 4) ltac:(lia) ltac:(lia)) as Hs.
  rewrite Hs. cbn [bind].
  destruct (index_slice b _ i 4 0 Hs ltac:(lia)) as [E0 V0].
  destruct (index_slice b _ i 4 1 Hs ltac:(lia)) as [E1 V1].
  destruct (index_slice b _ i 4 2 Hs ltac:(lia)) as [E2 V2].
  destruct (index_slice b _ i 4 3 Hs ltac:(lia)) as [E3 V3].
  rewrite E0. cbn [bind]. rewrite E1. cbn [bind].
  rewrite E2. cbn [bind]. rewrite E3. cbn [bind].
  rewrite V0, V1, V2, V3. f_equal. unfold val32.
  replace (i + 0) with i by lia.
  pose proof (byteZ_range b i). pose proof (byteZ_range b (i + 1)).
  pose proof (byteZ_range b (i + 2)). pose proof (byteZ_range b (i + 3)).
  rewrite (lor_shiftl_add _ _ 8) by (change (2 ^ 8) with 256; lia).
  rewrite (lor_shiftl_add _ _ 16)
    by (change (2 ^ 8) with 256; change (2 ^ 16) with 65536; lia).
  rewrite (lor_shiftl_add _ _ 24)
    by (change (2 ^ 8) with 256; change (2 ^ 16) with 65536;
        change (2 ^ 24) with 16777216; lia).
  reflexivity.
Qed.

Lemma load32_inv (b : list byte) (i v : Z) :
  load32 b i = Ok v -> 0 <= i /\ i + 4 <= len b.
Proof.
  unfold load32. intros H. apply bind_Ok in H as (s & Hs & _).
  apply slice_inv in Hs. lia.
Qed.

Lemma load64_val (b : list byte) (i : Z) :
  0 <= i -> i + 8 <= len b -> load64 b i = Ok (val64 b i).
Proof.
  intros Hi Hl. unfold load64.
  pose proof (slice_Ok b i (i + 8) ltac:(lia) ltac:(lia)) as Hs.
  rewrite Hs. cbn [bind].
  destruct (index_slice b _ i 8 0 Hs ltac:(lia)) as [E0 V0].
  destruct (index_slice b _ i 8 1 Hs ltac:(lia)) as [E1 V1].
  destruct (index_slice b _ i 8 2 Hs ltac:(lia)) as [E2 V2].
  destruct (index_slice b _ i 8 3 Hs ltac:(lia)) as [E3 V3].
  destruct (index_slice b _ i 8 4 Hs ltac:(lia)) as [E4 V4].
  destruct (index_slice b _ i 8 5 Hs ltac:(lia)) as [E5 V5].
  destruct (index_slice b _ i 8 6 Hs ltac:(lia)) as [E6 V6].
  destruct (index_slice b _ i 8 7 Hs ltac:(lia)) as [E7 V7].
  rewrite E0. cbn [bind]. rewrite E1. cbn [bind].
  rewrite E2. cbn [bind]. rewrite E3. cbn [bind].
  rewrite E4. cbn [bind]. rewrite E5. cbn [bind].
  rewrite E6. cbn [bind]. rewrite E7. cbn [bind].
  rewrite V0, V1, V2, V3, V4, V5, V6, V7. f_equal. unfold val64, val32.
  replace (i + 0) with i by lia.
  replace (i + 4 + 1) with (i + 5) by lia.
  replace (i + 4 + 2) with (i + 6) by lia.
  replace (i + 4 + 3) with (i + 7) by lia.
  pose proof (byteZ_range b i). pose proof (byteZ_range b (i + 1)).
  pose proof (byteZ_range b (i + 2)). pose proof (byteZ_range b (i + 3)).
  pose proof (byteZ_range b (i + 4)). pose proof (byteZ_range b (i + 5)).
  pose proof (byteZ_range b (i + 6)). pose proof (byteZ_range b (i + 7)).
  rewrite (lor_shiftl_add _ _ 8) by (pow_consts; lia).
  rewrite (lor_shiftl_add _ _ 16) by (pow_consts; lia).
  rewrite (lor_shiftl_add _ _ 24) by (pow_consts; lia).
  rewrite (lor_shiftl_add _ _ 32) by (pow_consts; lia).
  rewrite (lor_shiftl_add _ _ 40) by (pow_consts; lia).
  rewrite (lor_shiftl_add _ _ 48) by (pow_consts; lia).
  rewrite (lor_shiftl_add _ _ 56) by (pow_consts; lia).
  pow_consts. lia.
Qed.

Ltac dlia := Z.div_mod_to_equations; lia.

Lemma val64_shift0 (src : list byte) (i : Z) :
  u32 (Z.shiftr (val64 src i) 0) = val32 src i.
Proof.
  rewrite Z.shiftr_0_r. unfold u32, val64.
  pose proof (val32_range src i). pose proof (val32_range src (i + 4)).
  pow_consts. dlia.
Qed.

Lemma val64_shift8 (src : list byte) (i : Z) :
  u32 (Z.shiftr (val64 src i) 8) = val32 src (i + 1).
Proof.
  rewrite Z.shiftr_div_pow2 by lia. unfold u32, val64, val32.
  replace (i + 1 + 1) with (i + 2) by lia.
  replace (i + 1 + 2) with (i + 3) by lia.
  replace (i + 1 + 3) with (i + 4) by lia.
  replace (i + 4 + 1) with (i + 5) by lia.
  replace (i + 4 + 2) with (i + 6) by lia.
  replace (i + 4 + 3) with (i + 7) by lia.
  pose proof (byteZ_range src i). pose proof (byteZ_range src (i + 1)).
  pose proof (byteZ_range src (i + 2)). pose proof (byteZ_range src (i + 3)).
  pose proof (byteZ_range src (i + 4)). pose proof (byteZ_range src (i + 5)).
  pose proof (byteZ_range src (i + 6)). pose proof (byteZ_range src (i + 7)).
  pow_consts. dlia.
Qed.

Lemma val64_shift16 (src : list byte) (i : Z) :
  u32 (Z.shiftr (val64 src i) 16) = val32 src (i + 2).
Proof.
  rewrite Z.shiftr_div_pow2 by lia. unfold u32, val64, val32.
  replace (i + 2 + 1) with (i + 3) by lia.
  replace (i + 2 + 2) with (i + 4) by lia.
  replace (i + 2 + 3) with (i + 5) by lia.
  replace (i + 4 + 1) with (i + 5) by lia.
  replace (i + 4 + 2) with (i + 6) by lia.
  replace (i + 4 + 3) with (i + 7) by lia.
  pose proof (byteZ_range src i). pose proof (byteZ_range src (i + 1)).
  pose proof (byteZ_range src (i + 2)). pose proof (byteZ_range src (i + 3)).
  pose proof (byteZ_range src (i + 4)). pose proof (byteZ_range src (i + 5)).
  pose proof (byteZ_range src (i + 6)). pose proof (byteZ_range src (i + 7)).
  pow_consts. dlia.
Qed.

Lemma byteZ_eq_lookup (src : list byte) (i j : Z) :
  0 <= i < len src -> 0 <= j < len src ->
  byteZ src i = byteZ src j -> src !! Z.to_nat i = src !! Z.to_nat j.
Proof.
  intros Hi Hj. unfold byteZ.
  destruct (lookup_lt_is_Some_2 src (Z.to_nat i)) as [x Hx];
    [unfold len in Hi; lia|].
  destruct (lookup_lt_is_Some_2 src (Z.to_nat j)) as [y Hy];
    [unfold len in Hj; lia|].
  rewrite Hx, Hy. intros E. f_equal. apply b2z_inj. exact E.
Qed.

(** Two equal 4-byte words are equal byte by byte. *)
Lemma val32_eq_bytes (src : list byte) (i j : Z) :
  0 <= i -> i + 4 <= len src -> 0 <= j -> j + 4 <= len src ->
  val32 src i = val32 src j ->
  forall k, 0 <= k < 4 -> src !! Z.to_nat (i + k) = src !! Z.to_nat (j + k).
Proof.
  intros Hi Hil Hj Hjl E k Hk. unfold val32 in E.
  pose proof (byteZ_range src i). pose proof (byteZ_range src (i + 1)).
  pose proof (byteZ_range src (i + 2)). pose proof (byteZ_range src (i + 3)).
  pose proof (byteZ_range src j). pose proof (byteZ_range src (j + 1)).
  pose proof (byteZ_range src (j + 2)). pose proof (byteZ_range src (j + 3)).
  pow_consts.
  apply byteZ_eq_lookup; [lia|lia|].
  assert (k = 0 \/ k = 1 \/ k = 2 \/ k = 3) as [ -> | [ -> | [ -> | -> ]]] by lia;
    rewrite ?Z.add_0_r; lia.
Qed.

(** ** The hash table *)

Lemma mask_range (h : Z) : 0 <= Z.land h tableMask < maxTableSize.
Proof.
  change tableMask with (Z.ones 14). rewrite Z.land_ones by lia.
  change maxTableSize with (2 ^ 14). apply Z.mod_pos_bound. lia.
Qed.

Lemma table_index (table : list Z) (s h : Z) :
  tableInv table s ->
  exists c, index table (Z.land h tableMask) = Ok c /\ 0 <= c < s.
Proof.
  intros [Hl Hf]. pose proof (mask_range h) as Hm.
  destruct (index_in_range table (Z.land h tableMask) ltac:(lia))
    as (c & Hc & Hlook).
  exists c. split; [exact Hc|].
  rewrite Forall_lookup in Hf. exact (Hf _ _ Hlook).
Qed.

Lemma table_store (table : list Z) (s s' h v : Z) :
  tableInv table s -> s <= s' -> 0 <= v < s' -> v < 65536 ->
  exists table',
    store table (Z.land h tableMask) (uint16 v) = Ok table'
    /\ tableInv table' s'.
Proof.
  intros [Hl Hf] Hs Hv Hv'. pose proof (mask_range h) as Hm.
  eexists. split; [apply store_Ok; lia|].
  split; [rewrite len_insert; exact Hl|].
  apply Forall_insert.
  - eapply Forall_impl; [exact Hf|]. cbv beta. intros. lia.
  - unfold uint16. change (2 ^ 16) with 65536.
    rewrite Z.mod_small by lia. lia.
Qed.

Lemma tableInv_init : tableInv (replicate (Z.to_nat maxTableSize) 0) 1.
Proof.
  split; [apply len_replicate; discriminate|].
  apply Forall_replicate. lia.
Qed.

(** ** The output buffer *)

Lemma written_snoc (src : list byte) (log : list event) (e : event) :
  written src (log ++ [e])
  = written src log ++ chunksBytes (eventChunks src e).
Proof. unfold written. rewrite logChunks_snoc, chunksBytes_app. reflexivity. Qed.

Lemma written_store (src : list byte) (log : list event) (v : Z) :
  written src (log ++ [TableStore v]) = written src log.
Proof. rewrite written_snoc. cbn. apply app_nil_r. Qed.

Lemma len_buffer (dst0 w : list byte) :
  len w <= len dst0 -> len (buffer dst0 w) = len dst0.
Proof.
  intros H. unfold buffer. pose proof (len_nonneg w).
  rewrite len_app, len_drop by lia. lia.
Qed.

Lemma slice_from_buffer (dst0 w : list byte) (d : Z) :
  d = len w ->
  slice_from (buffer dst0 w) d = Ok (drop (Z.to_nat d) dst0).
Proof. intros ->. unfold buffer. apply slice_from_app. reflexivity. Qed.

Lemma splice_buffer (dst0 w bytes : list byte) (d n : Z) :
  d = len w -> n = len bytes ->
  splice (buffer dst0 w) d (bytes ++ drop (Z.to_nat n) (drop (Z.to_nat d) dst0))
  = buffer dst0 (w ++ bytes).
Proof.
  intros -> ->. unfold buffer. rewrite splice_app by reflexivity.
  rewrite drop_drop, <- app_assoc, len_app.
  pose proof (len_nonneg w). pose proof (len_nonneg bytes).
  replace (Z.to_nat (len w) + Z.to_nat (len bytes))%nat
    with (Z.to_nat (len w + len bytes)) by lia.
  reflexivity.
Qed.

Lemma slice_sub (src : list byte) (lo hi : Z) :
  0 <= lo <= hi -> hi <= len src -> slice src lo hi = Ok (sub src lo hi).
Proof. intros. unfold sub. apply slice_Ok; lia. Qed.

Lemma slice_from_sub (src : list byte) (lo : Z) :
  0 <= lo <= len src -> slice_from src lo = Ok (sub src lo (len src)).
Proof. intros. unfold slice_from. apply slice_sub; lia. Qed.

(** ** The loops of encodeBlock *)

Lemma tableInv_mono (table : list Z) (s s' : Z) :
  tableInv table s -> s <= s' -> tableInv table s'.
Proof.
  intros [Hl Hf] Hs. split; [exact Hl|].
  eapply Forall_impl; [exact Hf|]. cbv beta. intros. lia.
Qed.

Section Loops.

Variable src : list byte.
Variable dst0 : list byte.
Variable shift : Z.

Hypothesis Hsrc : 17 <= len src <= 65536.
Hypothesis Hcap : blockBound (len src) <= len dst0.

Let sLimit := len src - inputMargin.

Lemma cap_bound : 65 * len src + 129 <= 64 * len dst0.
Proof. unfold blockBound in Hcap. dlia. Qed.

Lemma extend_ok (fuel : nat) :
  forall i s,
    0 <= i < s -> s <= len src -> len src - s <= Z.of_nat fuel ->
    exists s',
      extend src fuel i s = Ok s' /\ s <= s' <= len src
      /\ forall k, 0 <= k < s' - s ->
           src !! Z.to_nat (s + k) = src !! Z.to_nat (i + k).
Proof.
  induction fuel as [|fuel IH]; intros i s Hi Hs Hf.
  - exists s. cbn [extend].
    replace (s <? len src) with false by (symmetry; apply Z.ltb_ge; lia).
    split; [reflexivity|]. split; [lia|]. intros k Hk. lia.
  - cbn [extend]. destruct (Z.ltb_spec s (len src)) as [Hlt|Hge].
    + destruct (index_in_range src i ltac:(lia)) as (a & Ha & Hla).
      destruct (index_in_range src s ltac:(lia)) as (b & Hb & Hlb).
      rewrite Ha. cbn [bind]. rewrite Hb. cbn [bind].
      destruct (Byte.eqb a b) eqn:E.
      * apply byte_eqb_eq in E. subst b.
        destruct (IH (i + 1) (s + 1) ltac:(lia) ltac:(lia) ltac:(lia))
          as (s' & He & Hs' & Hk).
        exists s'. split; [exact He|]. split; [lia|].
        intros k Hk0. destruct (Z.eq_dec k 0) as [->|Hne].
        -- rewrite !Z.add_0_r. congruence.
        -- specialize (Hk (k - 1) ltac:(lia)).
           replace (s + 1 + (k - 1)) with (s + k) in Hk by lia.
           replace (i + 1 + (k - 1)) with (i + k) in Hk by lia.
           exact Hk.
      * exists s. split; [reflexivity|]. split; [lia|]. intros k Hk. lia.
    + exists s. split; [reflexivity|]. split; [lia|]. intros k Hk. lia.
Qed.

Lemma search_ok (fuel : nat) :
  forall table log skip nextS nextHash pos,
    tableInv table nextS -> 1 <= nextS -> 32 <= skip ->
    trace src log pos ->
    1 <= Z.of_nat fuel -> sLimit - nextS + 1 <= Z.of_nat fuel ->
    exists r,
      search src shift sLimit fuel table log skip nextS nextHash = Ok r
      /\ search_post src sLimit log pos nextS r.
Proof.
  induction fuel as [|fuel IH];
    intros table log skip nextS nextHash pos Hinv Hs Hskip Htr Hf1 Hf2;
    [lia|].
  cbn [search].
  assert (Hbb : 1 <= Z.shiftr skip 5)
    by (rewrite Z.shiftr_div_pow2 by lia; change (2 ^ 5) with 32; dlia).
  set (bb := Z.shiftr skip 5) in *.
  rewrite Z.gtb_ltb. destruct (Z.ltb_spec sLimit (nextS + bb)) as [Hout|Hin].
  - exists (SearchRemainder table log). split; [reflexivity|].
    split; [exact Htr|reflexivity].
  - unfold sLimit, inputMargin in *.
    destruct (table_index table nextS nextHash Hinv) as (c & Hc & Hcr).
    rewrite Hc. cbn [bind].
    destruct (table_store table nextS (nextS + 1) nextHash nextS Hinv
                ltac:(lia) ltac:(lia) ltac:(lia)) as (t' & Ht' & Hinv').
    rewrite Ht'. cbn [bind].
    rewrite (load32_val src (nextS + bb)) by lia. cbn [bind].
    rewrite (load32_val src nextS) by lia. cbn [bind].
    rewrite (load32_val src c) by lia. cbn [bind].
    assert (Htr' : trace src (log ++ [TableStore nextS]) pos)
      by (apply trace_store; [exact Htr|lia]).
    destruct (Z.eqb_spec (val32 src nextS) (val32 src c)) as [E|E].
    + eexists. split; [reflexivity|]. cbn [search_post].
      rewrite written_store. unfold sLimit, inputMargin.
      splits; try assumption; try lia.
    + destruct (IH t' (log ++ [TableStore nextS]) (skip + bb) (nextS + bb)
                  (hash (val32 src (nextS + bb)) shift) pos)
        as (r & Hr & Hpost); try lia; try assumption.
      * apply (tableInv_mono _ _ _ Hinv'). lia.
      * exists r. split; [exact Hr|].
        destruct r; cbn [search_post] in *; rewrite written_store in Hpost;
          splits; try tauto; try lia.
Qed.

Lemma matches_extend (s candidate s1 : Z) :
  0 <= candidate < s -> s + 4 <= s1 <= len src ->
  val32 src s = val32 src candidate ->
  (forall k, 0 <= k < s1 - (s + 4) ->
     src !! Z.to_nat (s + 4 + k) = src !! Z.to_nat (candidate + 4 + k)) ->
  matches src s candidate (s1 - s).
Proof.
  intros Hc Hs1 Hv Hext. split; [lia|]. split; [lia|]. split; [lia|].
  intros k Hk. destruct (Z.ltb_spec k 4) as [Hlt|Hge].
  - apply (val32_eq_bytes src s candidate); lia.
  - specialize (Hext (k - 4) ltac:(lia)).
    replace (s + 4 + (k - 4)) with (s + k) in Hext by lia.
    replace (candidate + 4 + (k - 4)) with (candidate + k) in Hext by lia.
    exact Hext.
Qed.

Lemma copyLoop_ok (fuel : nat) :
  forall dst d table log s candidate,
    trace src log s ->
    dst = buffer dst0 (written src log) -> d = len (written src log) ->
    64 * d <= 65 * s + 68 ->
    0 <= candidate < s -> s < sLimit ->
    val32 src s = val32 src candidate ->
    tableInv table (s + 1) ->
    sLimit - s <= Z.of_nat fuel ->
    exists r,
      copyLoop src shift sLimit fuel dst d table log s candidate = Ok r
      /\ copy_post src dst0 sLimit s r.
Proof.
  pose proof cap_bound as Hcb.
  induction fuel as [|fuel IH];
    intros dst d table log s candidate Htr Hdst Hd Hbound Hc Hs Hv Hinv Hf;
    [lia|].
  cbn [copyLoop]. unfold sLimit, inputMargin in *.
  destruct (extend_ok (length src) (candidate + 4) (s + 4)
              ltac:(lia) ltac:(lia) ltac:(unfold len; lia))
    as (s1 & He & Hs1 & Hext).
  rewrite He. cbn [bind].
  pose proof (matches_extend s candidate s1 Hc ltac:(lia) Hv Hext) as Hm.
  pose proof (copy_cost (s - candidate) (s1 - s) ltac:(lia)) as Hcost.
  pose proof (len_nonneg (written src log)) as Hw0.
  subst dst d.
  rewrite slice_from_buffer by reflexivity. cbn [bind].
  rewrite emitCopy_ok; [|lia|lia|rewrite len_drop by lia; lia].
  cbn [bind].
  rewrite splice_buffer by reflexivity.
  change (chunksBytes (copyChunks (s - candidate) (s1 - s)))
    with (chunksBytes (eventChunks src (CallEmitCopy s candidate s1))) in *.
  rewrite <- written_snoc. rewrite <- len_app, <- written_snoc.
  assert (Hlen1 : 64 * len (written src (log ++ [CallEmitCopy s candidate s1]))
                  <= 65 * s1).
  { rewrite written_snoc, len_app. lia. }
  assert (Htr1 : trace src (log ++ [CallEmitCopy s candidate s1]) s1)
    by (apply trace_copy; [exact Htr|lia|lia|exact Hm]).
  set (log1 := log ++ [CallEmitCopy s candidate s1]) in *.
  rewrite Z.geb_leb.
  destruct (Z.leb_spec (len src - (16 - 1)) s1) as [Hout|Hin].
  - eexists. split; [reflexivity|]. cbn [copy_post]. unfold emitted.
    splits; try assumption; lia.
  - rewrite (load64_val src (s1 - 1)) by lia. cbn [bind].
    destruct (table_store table (s + 1) s1
                (hash (u32 (Z.shiftr (val64 src (s1 - 1)) 0)) shift)
                (s1 - 1) Hinv ltac:(lia) ltac:(lia) ltac:(lia))
      as (t1 & Ht1 & Hinv1).
    rewrite Ht1. cbn [bind].
    destruct (table_index t1 s1
                (hash (u32 (Z.shiftr (val64 src (s1 - 1)) 8)) shift) Hinv1)
      as (c2 & Hc2 & Hc2r).
    rewrite Hc2. cbn [bind].
    destruct (table_store t1 s1 (s1 + 1)
                (hash (u32 (Z.shiftr (val64 src (s1 - 1)) 8)) shift)
                s1 Hinv1 ltac:(lia) ltac:(lia) ltac:(lia))
      as (t2 & Ht2 & Hinv2).
    rewrite Ht2. cbn [bind].
    rewrite (load32_val src c2) by lia. cbn [bind].
    rewrite val64_shift8. replace (s1 - 1 + 1) with s1 by lia.
    assert (Htr2 : trace src ((log1 ++ [TableStore (s1 - 1)])
                              ++ [TableStore s1]) s1)
      by (apply trace_store; [apply trace_store; [exact Htr1|lia]|lia]).
    assert (Hw2 : written src ((log1 ++ [TableStore (s1 - 1)])
                               ++ [TableStore s1]) = written src log1)
      by (rewrite !written_store; reflexivity).
    destruct (Z.eqb_spec (val32 src s1) (val32 src c2)) as [E|E];
      cbn [negb].
    + destruct (IH (buffer dst0 (written src log1))
                  (len (written src log1)) t2
                  ((log1 ++ [TableStore (s1 - 1)]) ++ [TableStore s1])
                  s1 c2) as (r & Hr & Hpost);
        try assumption; try lia.
      * rewrite Hw2. reflexivity.
      * rewrite Hw2. reflexivity.
      * exists r. split; [exact Hr|].
        destruct r; cbn [copy_post] in *; splits; try tauto; lia.
    + eexists. split; [reflexivity|]. cbn [copy_post]. unfold emitted.
      rewrite Hw2. splits; try assumption; lia.
Qed.

Lemma mainLoop_ok (fuel : nat) :
  forall dst d table log nextEmit s nextHash,
    emitted src dst0 dst d log nextEmit ->
    nextEmit < s -> tableInv table s ->
    1 <= Z.of_nat fuel -> sLimit - s + 1 <= Z.of_nat fuel ->
    exists dst' d' log' nextEmit',
      mainLoop src shift sLimit fuel dst d table log nextEmit s nextHash
      = Ok (dst', d', log', nextEmit')
      /\ emitted src dst0 dst' d' log' nextEmit'.
Proof.
  pose proof cap_bound as Hcb.
  induction fuel as [|fuel IH];
    intros dst d table log nextEmit s nextHash Hem Hs Hinv Hf1 Hf2; [lia|].
  destruct Hem as (Htr & Hdst & Hd & Hbound).
  pose proof (trace_pos _ _ _ Htr) as Hpos.
  cbn [mainLoop].
  destruct (search_ok (length src) table log 32 s nextHash nextEmit
              Hinv ltac:(lia) ltac:(lia) Htr
              ltac:(unfold len in Hsrc; lia)
              ltac:(unfold sLimit, inputMargin, len in *; lia))
    as (r & Hr & Hpost).
  rewrite Hr. cbn [bind].
  destruct r as [s1 c nh t' log'|t' log']; cbn [search_post] in Hpost.
  - destruct Hpost as (Htr' & Hw' & Hs1 & Hc & Hv & Hinv').
    unfold sLimit, inputMargin in *.
    pose proof (len_nonneg (written src log)) as Hw0.
    pose proof (literal_cost (s1 - nextEmit) ltac:(lia)) as Hlc.
    pose proof (len_literalHeader_bounds (s1 - nextEmit - 1)) as Hh.
    subst dst d.
    rewrite slice_from_buffer by reflexivity. cbn [bind].
    rewrite slice_sub by lia. cbn [bind].
    rewrite emitLiteral_ok;
      rewrite ?len_sub by lia; [|lia|rewrite len_drop by lia; lia].
    cbn [bind].
    rewrite (app_assoc (literalHeader (s1 - nextEmit - 1))).
    assert (Hcb1 : chunksBytes (eventChunks src (CallEmitLiteral nextEmit s1))
                   = literalHeader (s1 - nextEmit - 1) ++ sub src nextEmit s1).
    { cbn [eventChunks]. rewrite chunksBytes_1. cbn [chunkBytes].
      rewrite len_sub by lia. reflexivity. }
    rewrite <- Hcb1.
    rewrite splice_buffer;
      [|reflexivity|rewrite Hcb1, len_app, len_sub by lia; reflexivity].
    assert (Hwl : len (written src log') = len (written src log))
      by (rewrite Hw'; reflexivity).
    rewrite <- Hw', <- written_snoc.
    assert (Hlen1 : len (written src (log' ++ [CallEmitLiteral nextEmit s1]))
                    = len (written src log')
                      + (len (literalHeader (s1 - nextEmit - 1))
                         + (s1 - nextEmit))).
    { rewrite written_snoc, len_app, Hcb1, len_app, len_sub by lia.
      reflexivity. }
    rewrite <- Hlen1.
    destruct (copyLoop_ok (length src)
                (buffer dst0 (written src (log' ++ [CallEmitLiteral nextEmit s1])))
                (len (written src (log' ++ [CallEmitLiteral nextEmit s1])))
                t' (log' ++ [CallEmitLiteral nextEmit s1]) s1 c)
      as (r2 & Hr2 & Hpost2);
      try assumption; try reflexivity; try lia;
      try (apply trace_literal; [exact Htr'|lia|lia]);
      try (unfold sLimit, inputMargin, len in *; lia).
    unfold sLimit, inputMargin in Hr2, Hpost2.
    rewrite Hr2. cbn [bind].
    destruct r2 as [dst2 d2 t2 log2 ne2|dst2 d2 t2 log2 ne2 s2 nh2];
      cbn [copy_post] in Hpost2.
    + eexists _, _, _, _. split; [reflexivity|tauto].
    + destruct Hpost2 as (Hem2 & Hlt2 & Hs2 & Hne2 & Hinv2).
      apply IH; try assumption; try lia.
  - destruct Hpost as (Htr' & Hw').
    eexists _, _, _, _. split; [reflexivity|].
    unfold emitted. rewrite Hw'. auto.
Qed.

End Loops.

(** ** The size of the hash table *)

Lemma tableSize_loop_step (fuel : nat) (n shift tableSize : Z) :
  tableSize < maxTableSize -> tableSize < n ->
  tableSize_loop (S fuel) n shift tableSize
  = tableSize_loop fuel n (u32 (shift - 1)) (tableSize * 2).
Proof.
  intros H1 H2. cbn [tableSize_loop].
  replace (tableSize <? maxTableSize) with true
    by (symmetry; apply Z.ltb_lt; exact H1).
  replace (tableSize <? n) with true by (symmetry; apply Z.ltb_lt; exact H2).
  reflexivity.
Qed.

Lemma tableSize_loop_stop (fuel : nat) (n shift tableSize : Z) :
  maxTableSize <= tableSize \/ n <= tableSize ->
  tableSize_loop fuel n shift tableSize = Ok (shift, tableSize).
Proof.
  intros H.
  assert (E : (tableSize <? maxTableSize) && (tableSize <? n) = false).
  { apply andb_false_iff. destruct H; [left|right]; apply Z.ltb_ge; lia. }
  destruct fuel; cbn [tableSize_loop]; rewrite E; reflexivity.
Qed.

(** The table size is the least power of two from [2^8] to [2^14] that is
    not below [n], and [2^14] when there is none; [shift] is 32 minus its
    logarithm. *)
Lemma tableParams_spec (n : Z) :
  exists k,
    8 <= k <= 14 /\ tableParams n = Ok (32 - k, 2 ^ k)
    /\ (n <= 2 ^ k \/ k = 14) /\ (k = 8 \/ 2 ^ (k - 1) < n).
Proof.
  unfold tableParams.
  change (u32 (32 - 8)) with 24. change (Z.shiftl 1 8) with 256.
  pow_consts.
  destruct (Z.le_gt_cases n 256) as [H8|H8].
  { exists 8. rewrite tableSize_loop_stop by (right; lia).
    pow_consts. splits; lia. }
  rewrite tableSize_loop_step by (try exact H8; reflexivity).
  change (u32 (24 - 1)) with 23. change (256 * 2) with 512.
  destruct (Z.le_gt_cases n 512) as [H9|H9].
  { exists 9. rewrite tableSize_loop_stop by (right; lia).
    change (9 - 1) with 8. pow_consts. splits; lia. }
  rewrite tableSize_loop_step by (try exact H9; reflexivity).
  change (u32 (23 - 1)) with 22. change (512 * 2) with 1024.
  destruct (Z.le_gt_cases n 1024) as [H10|H10].
  { exists 10. rewrite tableSize_loop_stop by (right; lia).
    change (10 - 1) with 9. pow_consts. splits; lia. }
  rewrite tableSize_loop_step by (try exact H10; reflexivity).
  change (u32 (22 - 1)) with 21. change (1024 * 2) with 2048.
  destruct (Z.le_gt_cases n 2048) as [H11|H11].
  { exists 11. rewrite tableSize_loop_stop by (right; lia).
    change (11 - 1) with 10. pow_consts. splits; lia. }
  rewrite tableSize_loop_step by (try exact H11; reflexivity).
  change (u32 (21 - 1)) with 20. change (2048 * 2) with 4096.
  destruct (Z.le_gt_cases n 4096) as [H12|H12].
  { exists 12. rewrite tableSize_loop_stop by (right; lia).
    change (12 - 1) with 11. pow_consts. splits; lia. }
  rewrite tableSize_loop_step by (try exact H12; reflexivity).
  change (u32 (20 - 1)) with 19. change (4096 * 2) with 8192.
  destruct (Z.le_gt_cases n 8192) as [H13|H13].
  { exists 13. rewrite tableSize_loop_stop by (right; lia).
    change (13 - 1) with 12. pow_consts. splits; lia. }
  rewrite tableSize_loop_step by (try exact H13; reflexivity).
  change (u32 (19 - 1)) with 18. change (8192 * 2) with 16384.
  exists 14. rewrite tableSize_loop_stop by (left; reflexivity).
  change (14 - 1) with 13. pow_consts. splits; lia.
Qed.

(** ** One block *)

Lemma encodeBlock_run_ok (dst src : list byte) :
  17 <= len src <= 65536 ->
  blockBound (len src) <= len dst ->
  exists log,
    encodeBlock_run dst src
    = Ok (buffer dst (written src log), len (written src log), log)
    /\ trace src log (len src)
    /\ len (written src log) <= blockBound (len src).
Proof.
  intros Hsrc Hcap.
  assert (Hcb : 65 * len src + 129 <= 64 * len dst)
    by (unfold blockBound in Hcap; dlia).
  unfold encodeBlock_run.
  destruct (tableParams_spec (len src)) as (k & Hk & Htp & _).
  rewrite Htp. cbn [bind].
  rewrite load32_val by lia. cbn [bind].
  destruct (mainLoop_ok src dst (32 - k) Hsrc Hcap (length src)
              dst 0 (replicate (Z.to_nat maxTableSize) 0) [] 0 1
              (hash (val32 src 1) (32 - k)))
    as (dst' & d' & log' & ne & Hrun & Htr & Hdst & Hd & Hbound).
  { unfold emitted. splits; first [apply trace_nil|cbn; lia]. }
  { lia. }
  { apply tableInv_init. }
  { unfold len in Hsrc. lia. }
  { unfold inputMargin, len in *. lia. }
  rewrite Hrun. cbn [bind].
  pose proof (trace_pos _ _ _ Htr) as Hpos.
  pose proof (len_nonneg (written src log')) as Hw0.
  destruct (Z.ltb_spec ne (len src)) as [Hlt|Hge].
  - pose proof (literal_cost (len src - ne) ltac:(lia)) as Hlc.
    pose proof (len_literalHeader_bounds (len src - ne - 1)) as Hh.
    subst dst' d'.
    rewrite slice_from_buffer by reflexivity. cbn [bind].
    rewrite slice_from_sub by lia. cbn [bind].
    rewrite emitLiteral_ok;
      rewrite ?len_sub by lia; [|lia|rewrite len_drop by lia; lia].
    cbn [bind].
    rewrite (app_assoc (literalHeader (len src - ne - 1))).
    assert (Hcb1 : chunksBytes (eventChunks src (CallEmitLiteral ne (len src)))
                   = literalHeader (len src - ne - 1) ++ sub src ne (len src)).
    { cbn [eventChunks]. rewrite chunksBytes_1. cbn [chunkBytes].
      rewrite len_sub by lia. reflexivity. }
    rewrite <- Hcb1.
    rewrite splice_buffer;
      [|reflexivity|rewrite Hcb1, len_app, len_sub by lia; reflexivity].
    rewrite <- written_snoc.
    assert (Hlen1 : len (written src (log' ++ [CallEmitLiteral ne (len src)]))
                    = len (written src log')
                      + (len (literalHeader (len src - ne - 1))
                         + (len src - ne))).
    { rewrite written_snoc, len_app, Hcb1, len_app, len_sub by lia.
      reflexivity. }
    rewrite <- Hlen1.
    exists (log' ++ [CallEmitLiteral ne (len src)]).
    splits.
    + apply trace_literal; [exact Htr|lia|lia].
    + unfold blockBound. dlia.
  - assert (ne = len src) by lia. subst ne.
    exists log'. subst dst' d'. splits; [exact Htr|].
    unfold blockBound. dlia.
Qed.

(** ** MaxEncodedLen *)

Lemma MaxEncodedLen_eq (n : Z) :
  0 <= n -> 32 + n + n / 6 <= 0xffffffff ->
  MaxEncodedLen n = 32 + n + n / 6.
Proof.
  intros H0 H1.
  assert (Hd : 0 <= n / 6) by (apply Z.div_pos; lia).
  unfold MaxEncodedLen. cbv zeta.
  rewrite (u64_small n) by lia.
  rewrite (u64_small (32 + n + n / 6)) by lia.
  destruct (Z.gtb_spec n 4294967295); [lia|].
  destruct (Z.gtb_spec (32 + n + n / 6) 4294967295); [lia|reflexivity].
Qed.

Lemma MaxEncodedLen_neg (n : Z) :
  - 2 ^ 63 <= n < 2 ^ 63 ->
  n < 0 \/ 0xffffffff < n \/ 0xffffffff < 32 + n + n / 6 ->
  MaxEncodedLen n = -1.
Proof.
  intros Hr H.
  unfold MaxEncodedLen. cbv zeta.
  destruct (Z.gtb_spec (u64 n) 4294967295) as [_|Hle]; [reflexivity|].
  assert (Hn : 0 <= n <= 4294967295).
  { unfold u64 in Hle. destruct (Z.neg_nonneg_cases n) as [Hneg|Hpos].
    - exfalso.
      assert (E : n mod 2 ^ 64 = n + 2 ^ 64).
      { symmetry. apply (Z.mod_unique n (2 ^ 64) (-1)); lia. }
      lia.
    - rewrite Z.mod_small in Hle by lia. lia. }
  assert (Hd : 0 <= n / 6 <= n) by (split; [apply Z.div_pos; lia|dlia]).
  rewrite (u64_small n) by lia.
  rewrite (u64_small (32 + n + n / 6)) by lia.
  destruct (Z.gtb_spec (32 + n + n / 6) 4294967295); [reflexivity|lia].
Qed.

Lemma MaxEncodedLen_nonneg (n : Z) :
  0 <= n < 2 ^ 63 -> 0 <= MaxEncodedLen n ->
  n <= 0xffffffff /\ 32 + n + n / 6 <= 0xffffffff
  /\ MaxEncodedLen n = 32 + n + n / 6.
Proof.
  intros H0 H.
  destruct (Z.le_gt_cases n 0xffffffff) as [H1|H1];
    [|rewrite MaxEncodedLen_neg in H by lia; lia].
  destruct (Z.le_gt_cases (32 + n + n / 6) 0xffffffff) as [H2|H2];
    [|rewrite MaxEncodedLen_neg in H by lia; lia].
  splits; try assumption. apply MaxEncodedLen_eq; lia.
Qed.

Lemma blockBound_MaxEncodedLen (n : Z) :
  0 <= n <= 65536 -> blockBound n <= MaxEncodedLen n.
Proof.
  intros H. rewrite MaxEncodedLen_eq by dlia. unfold blockBound. dlia.
Qed.

(** ** One block of Encode *)

Lemma block_ok (dst p : list byte) :
  1 <= len p <= 65536 ->
  blockBound (len p) <= len dst ->
  exists cs,
    (if len p <? minNonLiteralBlockSize then emitLiteral dst p
     else encodeBlock dst p)
    = Ok (buffer dst (chunksBytes cs), len (chunksBytes cs))
    /\ encodes cs p
    /\ len (chunksBytes cs) <= blockBound (len p).
Proof.
  intros Hp Hcap. change minNonLiteralBlockSize with 17.
  destruct (Z.ltb_spec (len p) 17) as [Hlt|Hge].
  - exists [Literal p].
    pose proof (len_literalHeader_bounds (len p - 1)) as Hh.
    pose proof (literal_cost (len p) ltac:(lia)) as Hc.
    assert (Hb : len (literalHeader (len p - 1)) + len p <= blockBound (len p))
      by (unfold blockBound; dlia).
    rewrite chunksBytes_1. cbn [chunkBytes].
    rewrite emitLiteral_ok by lia.
    unfold buffer. rewrite len_app, <- app_assoc.
    splits; [|exact Hb].
    unfold encodes. splits.
    + apply Forall_cons. split; [exact Hp|apply Forall_nil_2].
    + cbn. lia.
  - destruct (encodeBlock_run_ok dst p ltac:(lia) Hcap)
      as (log & Hrun & Htr & Hlen).
    exists (logChunks p log). unfold encodeBlock. rewrite Hrun. cbn [bind].
    fold (written p log). splits.
    + unfold encodes. splits.
      * eapply wire_trace. exact Htr.
      * eapply chunksLen_trace. exact Htr.
      * intros pre. rewrite (exec_trace _ _ _ Htr).
        rewrite take_ge by (unfold len; lia). reflexivity.
    + exact Hlen.
Qed.

(** ** The loop of Encode *)

Lemma encodes_nil : encodes [] [].
Proof.
  unfold encodes. splits; [apply Forall_nil_2|].
  intros pre. cbn [execChunks]. rewrite app_nil_r. reflexivity.
Qed.

Lemma encodes_app (a b : list chunk) (p q : list byte) :
  encodes a p -> encodes b q -> encodes (a ++ b) (p ++ q).
Proof.
  intros (Ha1 & Ha2 & Ha3) (Hb1 & Hb2 & Hb3). unfold encodes. splits.
  - apply Forall_app. split; assumption.
  - rewrite chunksLen_app, len_app. lia.
  - intros pre. rewrite execChunks_app, Ha3. cbn [mbind option_bind].
    rewrite Hb3, app_assoc. reflexivity.
Qed.

Lemma sub_split (src : list byte) (k : Z) :
  0 <= k <= len src -> sub src 0 k ++ sub src k (len src) = src.
Proof.
  intros H. unfold sub. change (Z.to_nat 0) with 0%nat.
  rewrite drop_0, Z.sub_0_r.
  rewrite (take_ge (drop _ _)) by (rewrite length_drop; unfold len; lia).
  apply take_drop.
Qed.

Lemma Encode_loop_nil (fuel : nat) (dst : list byte) (d : Z) :
  Encode_loop fuel dst d [] = Ok (dst, d).
Proof. destruct fuel; reflexivity. Qed.

Lemma Encode_loop_ok (fuel : nat) :
  forall (src dst0 W : list byte),
    (length src <= fuel)%nat ->
    len W + encodeBound (len src) <= len dst0 ->
    exists cs,
      Encode_loop fuel (buffer dst0 W) (len W) src
      = Ok (buffer dst0 (W ++ chunksBytes cs), len (W ++ chunksBytes cs))
      /\ encodes cs src
      /\ len (chunksBytes cs) <= encodeBound (len src).
Proof.
  induction fuel as [|fuel IH]; intros src dst0 W Hf Hcap.
  { destruct src; [|cbn in Hf; lia].
    exists []. rewrite Encode_loop_nil, chunksBytes_nil, app_nil_r.
    splits; [apply encodes_nil|]. rewrite ?len_nil. unfold encodeBound. dlia. }
  pose proof (len_nonneg src) as Hs0. pose proof (len_nonneg W) as Hw0.
  destruct (Z.leb_spec (len src) 0) as [Hz|Hpos].
  { assert (src = []) by (apply len_0_nil; lia). subst src.
    exists []. rewrite Encode_loop_nil, chunksBytes_nil, app_nil_r.
    splits; [apply encodes_nil|]. rewrite ?len_nil. unfold encodeBound. dlia. }
  cbn [Encode_loop].
  destruct (Z.gtb_spec (len src) 0) as [_|]; [|lia].
  change maxBlockSize with 65536.
  unfold encodeBound in *.
  destruct (Z.gtb_spec (len src) 65536) as [Hbig|Hsmall].
  - rewrite slice_sub by lia. cbn [bind].
    rewrite slice_from_sub by lia. cbn [bind].
    rewrite slice_from_buffer by reflexivity. cbn [bind].
    set (p := sub src 0 65536). set (rest := sub src 65536 (len src)).
    assert (Hp : len p = 65536) by (unfold p; rewrite len_sub; lia).
    assert (Hr : len rest = len src - 65536)
      by (unfold rest; rewrite len_sub; lia).
    assert (E : p ++ rest = src) by (apply sub_split; lia).
    destruct (block_ok (drop (Z.to_nat (len W)) dst0) p) as (cs & Hb & He & Hl).
    { lia. }
    { rewrite len_drop by dlia. rewrite Hp. unfold blockBound. dlia. }
    rewrite Hb. cbn [bind]. unfold buffer at 2.
    rewrite splice_buffer by reflexivity. rewrite <- len_app.
    rewrite Hp in Hl. unfold blockBound in Hl.
    destruct (IH rest dst0 (W ++ chunksBytes cs)) as (cs' & Hrun & He' & Hl').
    { unfold len in Hr. unfold len in Hbig. lia. }
    { rewrite len_app, Hr. dlia. }
    exists (cs ++ cs'). rewrite Hrun, chunksBytes_app, app_assoc.
    splits.
    + rewrite <- E. apply encodes_app; assumption.
    + rewrite len_app. rewrite Hr in Hl'. dlia.
  - cbn [bind].
    rewrite slice_from_buffer by reflexivity. cbn [bind].
    destruct (block_ok (drop (Z.to_nat (len W)) dst0) src) as (cs & Hb & He & Hl).
    { lia. }
    { rewrite len_drop by dlia. unfold blockBound. dlia. }
    rewrite Hb. cbn [bind]. unfold buffer at 2.
    rewrite splice_buffer by reflexivity. rewrite <- len_app.
    rewrite Encode_loop_nil.
    exists cs. splits; [exact He|]. unfold blockBound in Hl. dlia.
Qed.

(** ** Encode *)

Lemma len_varintBytes_small (fuel : nat) :
  forall (k : nat) (x : Z),
    0 <= x < 2 ^ (7 * (Z.of_nat k + 1)) ->
    len (varintBytes fuel x) <= Z.of_nat k + 1.
Proof.
  induction fuel as [|fuel IH]; intros k x Hx; cbn [varintBytes].
  - rewrite len_1. lia.
  - destruct (Z.geb_spec x 128) as [Hge|Hlt]; [|rewrite len_1; lia].
    destruct k as [|k].
    { change (2 ^ (7 * (Z.of_nat 0 + 1))) with 128 in Hx. lia. }
    rewrite len_cons.
    specialize (IH k (Z.shiftr x 7)).
    assert (0 <= Z.shiftr x 7 < 2 ^ (7 * (Z.of_nat k + 1))).
    { rewrite Z.shiftr_div_pow2 by lia.
      replace (7 * (Z.of_nat (S k) + 1)) with (7 * (Z.of_nat k + 1) + 7) in Hx
        by lia.
      rewrite Z.pow_add_r in Hx by lia.
      split; [apply Z.div_pos; lia|apply Z.div_lt_upper_bound; lia]. }
    lia.
Qed.

Lemma Encode_buf_ok (dst src : list byte) :
  len src < 2 ^ 63 -> 0 <= MaxEncodedLen (len src) ->
  exists cs,
    let enc := varintBytes 10 (len src) ++ chunksBytes cs in
    let buf := if len dst <? MaxEncodedLen (len src)
               then replicate (Z.to_nat (MaxEncodedLen (len src))) x00
               else dst in
    Encode_buf dst src
    = Ok (buffer buf enc, len enc, negb (len dst <? MaxEncodedLen (len src)))
    /\ encodes cs src
    /\ len enc <= MaxEncodedLen (len src).
Proof.
  intros Hint Hacc.
  pose proof (len_nonneg src) as Hs0.
  destruct (MaxEncodedLen_nonneg (len src) ltac:(lia) Hacc) as (Hn & Hsum & Heq).
  set (buf := if len dst <? MaxEncodedLen (len src)
              then replicate (Z.to_nat (MaxEncodedLen (len src))) x00
              else dst).
  assert (Hbuf : MaxEncodedLen (len src) <= len buf).
  { unfold buf. destruct (Z.ltb_spec (len dst) (MaxEncodedLen (len src))).
    - rewrite len_replicate by lia. lia.
    - assumption. }
  assert (Hx : 0 <= len src < 2 ^ 64) by lia.
  pose proof (len_varintBytes_small 10 4 (len src) ltac:(simpl; lia)) as Hv.
  pose proof (len_varintBytes 10 (len src)) as Hv1.
  change (Z.of_nat 4 + 1) with 5 in Hv.
  assert (Hrun : (let* (dst0, d) := PutUvarint buf (u64 (len src)) in
                  let* (dst1, d0) := Encode_loop (length src) dst0 d src in
                  Ok (dst1, d0, negb (len dst <? MaxEncodedLen (len src))))
                 = Encode_buf dst src).
  { unfold Encode_buf. cbv zeta.
    destruct (Z.ltb_spec (MaxEncodedLen (len src)) 0) as [|_]; [lia|].
    unfold buf. destruct (len dst <? MaxEncodedLen (len src)); reflexivity. }
  cbv zeta. fold buf. rewrite <- Hrun. clear Hrun.
  rewrite u64_small by exact Hx.
  rewrite PutUvarint_ok by (try exact Hx; dlia).
  cbn [bind]. fold (buffer buf (varintBytes 10 (len src))).
  destruct (Encode_loop_ok (length src) src buf (varintBytes 10 (len src)))
    as (cs & Hloop & He & Hl).
  { lia. }
  { unfold encodeBound. dlia. }
  exists cs. rewrite Hloop. cbn [bind].
  splits; [exact He|].
  rewrite len_app. unfold encodeBound in Hl. dlia.
Qed.

Lemma Encode_ok (dst src : list byte) :
  len src < 2 ^ 63 -> 0 <= MaxEncodedLen (len src) ->
  exists cs,
    Encode dst src = Ok (varintBytes 10 (len src) ++ chunksBytes cs)
    /\ encodes cs src
    /\ len (varintBytes 10 (len src) ++ chunksBytes cs)
       <= MaxEncodedLen (len src).
Proof.
  intros Hint Hacc.
  destruct (Encode_buf_ok dst src Hint Hacc) as (cs & Hrun & He & Hl).
  cbv zeta in Hrun. exists cs. unfold Encode. rewrite Hrun. cbn [bind].
  unfold buffer. rewrite slice_0_app by reflexivity. auto.
Qed.

Lemma decode_encodes (cs : list chunk) (src : list byte) :
  len src < 2 ^ 64 -> encodes cs src ->
  decode (varintBytes 10 (len src) ++ chunksBytes cs) = Some src.
Proof.
  intros Hx (Hw & Hlen & Hexec). pose proof (len_nonneg src).
  unfold decode. rewrite Uvarint_PutUvarint by lia.
  cbn [mbind option_bind]. rewrite parse_chunksBytes by exact Hw.
  cbn [mbind option_bind]. rewrite Hexec. cbn [mbind option_bind app].
  rewrite Z.eqb_refl. reflexivity.
Qed.

(** ** The chunk header *)

Lemma len_leBytes (k : nat) (z : Z) : len (leBytes k z) = Z.of_nat k.
Proof.
  revert z. induction k as [|k IH]; intros z; cbn [leBytes].
  - reflexivity.
  - rewrite len_cons, IH. lia.
Qed.

Lemma le_leBytes (k : nat) :
  forall z, 0 <= z < 256 ^ Z.of_nat k -> le (leBytes k z) = z.
Proof.
  induction k as [|k IH]; intros z Hz.
  - cbn in *. lia.
  - cbn [leBytes le foldr]. fold (le (leBytes k (z / 256))).
    rewrite Nat2Z.inj_succ, Z.pow_succ_r in Hz by lia.
    rewrite IH by (split; [apply Z.div_pos; lia|apply Z.div_lt_upper_bound; lia]).
    rewrite b2z_u8. dlia.
Qed.

Lemma len_chunkHeader (t : byte) (n c : Z) : len (chunkHeader t n c) = 8.
Proof. reflexivity. Qed.

Lemma store_mid {A} (pre xs : list A) (x y : A) (rest : list A) (i : Z) :
  i = len pre + len xs ->
  store (pre ++ xs ++ x :: rest) i y = Ok (pre ++ xs ++ y :: rest).
Proof.
  intros ->. rewrite !app_assoc. apply store_at. rewrite len_app. reflexivity.
Qed.

(** The eight stores that fill in the chunk header. *)
Lemma store_chunkHeader {B} (M H T : list byte) (t : byte) (n c : Z)
      (k : list byte -> res B) :
  len M = len magicChunk -> len H = 8 ->
  (let* o := store (M ++ H ++ T) (len magicChunk + 0) t in
   let* o := store o (len magicChunk + 1) (u8 (Z.shiftr n 0)) in
   let* o := store o (len magicChunk + 2) (u8 (Z.shiftr n 8)) in
   let* o := store o (len magicChunk + 3) (u8 (Z.shiftr n 16)) in
   let* o := store o (len magicChunk + 4) (u8 (Z.shiftr c 0)) in
   let* o := store o (len magicChunk + 5) (u8 (Z.shiftr c 8)) in
   let* o := store o (len magicChunk + 6) (u8 (Z.shiftr c 16)) in
   let* o := store o (len magicChunk + 7) (u8 (Z.shiftr c 24)) in
   k o)
  = k (M ++ chunkHeader t (n - 4) c ++ T).
Proof.
  intros HM HH.
  destruct H as [|h0 [|h1 [|h2 [|h3 [|h4 [|h5 [|h6 [|h7 [|h8 H]]]]]]]]];
    try (rewrite ?len_cons, ?len_nil in HH; lia).
  2:{ rewrite !len_cons in HH. pose proof (len_nonneg H). lia. }
  rewrite <- HM. cbn [app].
  do 8 (match goal with
        | |- context [store (?P ++ ?x :: ?r) ?i ?y] =>
            rewrite (store_at P x y r i)
              by (rewrite ?len_app, ?len_cons, ?len_nil; lia);
            cbn [bind]; rewrite (cons_middle y P r), (app_assoc P [y] r)
        end).
  repeat rewrite <- app_assoc. cbn [app].
  f_equal. f_equal. unfold chunkHeader. cbn [leBytes app].
  replace (4 + (n - 4)) with n by lia.
  rewrite !Z.shiftr_div_pow2 by lia.
  change (2 ^ 0) with 1. rewrite !Z.div_1_r.
  rewrite !Z.div_div by lia.
  reflexivity.
Qed.

Lemma obufLen_eq : obufLen = 76508.
Proof. vm_compute. reflexivity. Qed.

Lemma MaxEncodedLen_block (n : Z) :
  0 <= n <= 65536 -> 0 <= MaxEncodedLen n <= 76490.
Proof. intros H. rewrite MaxEncodedLen_eq by dlia. dlia. Qed.

Lemma obuf_parts (o : list byte) :
  len o = obufLen ->
  exists M H T,
    o = M ++ H ++ T /\ len M = 10 /\ len H = 8 /\ len T = 76490
    /\ M = take 10 o /\ T = drop 18 o.
Proof.
  intros Ho. rewrite obufLen_eq in Ho.
  exists (take 10 o), (take 8 (drop 10 o)), (drop 18 o).
  splits.
  - rewrite <- (take_drop 10 o) at 1. f_equal.
    rewrite <- (take_drop 8 (drop 10 o)) at 1. f_equal.
    rewrite drop_drop. reflexivity.
  - unfold len in *. rewrite length_take. lia.
  - unfold len in *. rewrite length_take, length_drop. lia.
  - unfold len in *. rewrite length_drop. lia.
Qed.

Lemma slice_mid {A} (M X R : list A) (start e : Z) :
  0 <= start <= len M -> e = len M + len X ->
  slice (M ++ X ++ R) start e = Ok (drop (Z.to_nat start) M ++ X).
Proof.
  intros Hs ->. pose proof (len_nonneg X).
  rewrite slice_Ok by (rewrite ?len_app; pose proof (len_nonneg R); lia).
  f_equal. rewrite drop_app_le by (unfold len in Hs; lia).
  rewrite app_assoc. apply take_app_length'.
  rewrite length_app, length_drop. unfold len in *. lia.
Qed.

Section WriterProofs.

Context {K : Type} {sink_K : Sink K}.
Variable crc32c : list byte -> Z.

(** ** One block of Writer.write *)

Lemma write_block_ok (wr : @Writer K) (start : Z) (u : list byte) :
  len (obuf wr) = obufLen -> 1 <= len u <= 65536 ->
  0 <= start <= len magicChunk ->
  exists compressed wr' e e1,
    Encode (drop 18 (obuf wr)) u = Ok compressed
    /\ decode compressed = Some u
    /\ len compressed <= MaxEncodedLen (len u)
    /\ write_block crc32c wr start u = Ok (wr', e)
    /\ calls wr'
       = calls wr
         ++ (drop (Z.to_nat start) (take 10 (obuf wr))
             ++ dataChunkHeader crc32c compressed u
             ++ (if sentRaw compressed u then [] else compressed), e1)
         :: (if sentRaw compressed u
             then match e1 with None => [(u, e)] | Some _ => [] end
             else [])
    /\ (e1 = None \/ e = e1)
    /\ (sentRaw compressed u = false -> e = e1)
    /\ err wr' = match e with Some x => Some x | None => err wr end
    /\ len (obuf wr') = obufLen
    /\ take 10 (obuf wr') = take 10 (obuf wr)
    /\ ibuf wr' = ibuf wr
    /\ wroteStreamHeader wr' = wroteStreamHeader wr.
Proof.
  intros Ho Hu Hstart.
  destruct wr as [k0 e0 ib o hd cl]. cbn [obuf calls err ibuf wroteStreamHeader] in *.
  destruct (obuf_parts o Ho) as (M & H & T & -> & HM & HH & HT & _ & _).
  clear Ho.
  assert (Hd18 : drop 18 (M ++ H ++ T) = T).
  { rewrite app_assoc. apply drop_app_length'. rewrite length_app.
    unfold len in *. lia. }
  assert (Ht10 : forall X, take 10 (M ++ X) = M).
  { intros X. apply take_app_length'. unfold len in *. lia. }
  rewrite Hd18, Ht10.
  destruct (Encode_buf_ok T u ltac:(lia) ltac:(apply MaxEncodedLen_block; lia))
    as (cs & Hbuf & He & Hl).
  cbv zeta in Hbuf.
  pose proof (MaxEncodedLen_block (len u) ltac:(lia)) as HMb.
  destruct (Z.ltb_spec (len T) (MaxEncodedLen (len u))) as [|_]; [lia|].
  cbn [negb] in Hbuf.
  pose proof (decode_encodes cs u ltac:(lia) He) as Hdec.
  set (enc := varintBytes 10 (len u) ++ chunksBytes cs) in *.
  assert (Henc : Encode T u = Ok enc).
  { unfold Encode. rewrite Hbuf. cbn [bind]. unfold buffer.
    apply slice_0_app. reflexivity. }
  pose proof (len_nonneg enc) as Henc0.
  exists enc.
  unfold write_block. cbn [obuf].
  change obufHeaderLen with 18.
  assert (Hsf : slice_from (M ++ H ++ T) 18 = Ok T).
  { rewrite app_assoc. apply slice_from_app. rewrite len_app. lia. }
  assert (Hsp : forall X, splice (M ++ H ++ T) 18 X = M ++ H ++ X).
  { intros X. rewrite (app_assoc M H T), splice_app by (rewrite len_app; lia).
    symmetry. apply app_assoc. }
  rewrite Hsf. cbn [bind]. rewrite Hbuf. cbn [bind].
  unfold set_obuf at 1. cbn [obuf w err ibuf wroteStreamHeader calls].
  rewrite Hsp.
  unfold buffer at 1. rewrite slice_0_app by reflexivity. cbn [bind].
  fold (buffer T enc).
  fold (sentRaw enc u).
  unfold dataChunkHeader, chunkType, payload.
  destruct (sentRaw enc u) eqn:Hraw.
  - rewrite (store_chunkHeader M H (buffer T enc)) by (try exact HH; rewrite HM; reflexivity).
    unfold set_obuf. cbn [obuf w err ibuf wroteStreamHeader calls].
    replace (4 + len u - 4) with (len u) by lia.
    rewrite (slice_mid M _ (buffer T enc) start 18)
      by (rewrite ?len_chunkHeader, ?HM; change (len magicChunk) with 10 in *; lia).
    cbn [bind]. rewrite app_nil_r.
    assert (Hlo : len (M ++ chunkHeader chunkTypeUncompressedData (len u)
                              (crc crc32c u) ++ buffer T enc) = obufLen).
    { rewrite !len_app, len_chunkHeader, len_buffer, obufLen_eq by lia. lia. }
    unfold w_Write. cbn [w err ibuf obuf wroteStreamHeader calls].
    destruct (sinkWrite k0 _) as [k1 [x|]].
    + eexists _, (Some x), (Some x).
      splits; first [assumption | reflexivity | right; reflexivity | apply Ht10].
    + change (chunkTypeUncompressedData =? chunkTypeUncompressedData)%byte
        with true.
      cbn [w err ibuf obuf wroteStreamHeader calls].
      destruct (sinkWrite k1 u) as [k2 [y|]].
      * eexists _, (Some y), None.
        splits;
          first [assumption | reflexivity | left; reflexivity | apply Ht10
                | discriminate
                | unfold set_err; cbn [calls]; rewrite <- app_assoc; reflexivity].
      * eexists _, None, None.
        splits;
          first [assumption | reflexivity | left; reflexivity | apply Ht10
                | discriminate
                | cbn [calls]; rewrite <- app_assoc; reflexivity].
  - rewrite (store_chunkHeader M H (buffer T enc)) by (try exact HH; rewrite HM; reflexivity).
    unfold set_obuf. cbn [obuf w err ibuf wroteStreamHeader calls].
    replace (4 + len enc - 4) with (len enc) by lia.
    unfold buffer.
    rewrite (app_assoc (chunkHeader _ _ _) enc).
    rewrite (slice_mid M _ _ start (18 + len enc))
      by (rewrite ?len_app, ?len_chunkHeader, ?HM;
          change (len magicChunk) with 10 in *; lia).
    cbn [bind].
    assert (Hlo : len (M ++ (chunkHeader chunkTypeCompressedData (len enc)
                               (crc crc32c u) ++ enc)
                         ++ drop (Z.to_nat (len enc)) T) = obufLen).
    { rewrite !len_app, len_chunkHeader, len_drop, obufLen_eq by lia. lia. }
    unfold w_Write. cbn [w err ibuf obuf wroteStreamHeader calls].
    destruct (sinkWrite k0 _) as [k1 [x|]].
    + eexists _, (Some x), (Some x).
      splits;
        first [assumption | reflexivity | right; reflexivity | apply Ht10
              | unfold set_err; cbn [calls]; rewrite <- app_assoc; reflexivity].
    + change (chunkTypeCompressedData =? chunkTypeUncompressedData)%byte
        with false.
      eexists _, None, None.
      splits;
        first [assumption | reflexivity | left; reflexivity | apply Ht10
              | cbn [calls]; rewrite <- app_assoc; reflexivity].
Qed.

(** What the loops of the writer need of one block. *)
Lemma write_block_sum (wr : @Writer K) (start : Z) (u : list byte) :
  len (obuf wr) = obufLen -> 1 <= len u <= 65536 ->
  0 <= start <= len magicChunk ->
  exists wr' e new,
    write_block crc32c wr start u = Ok (wr', e)
    /\ calls wr' = calls wr ++ new
    /\ (forall b y, In (b, Some y) new -> e = Some y)
    /\ err wr' = match e with Some x => Some x | None => err wr end
    /\ len (obuf wr') = obufLen
    /\ ibuf wr' = ibuf wr.
Proof.
  intros Ho Hu Hs.
  destruct (write_block_ok wr start u Ho Hu Hs)
    as (enc & wr' & e & e1 & _ & _ & _ & Hrun & Hcalls & He1 & _ & Herr & Hlo
        & _ & Hib & _).
  exists wr', e. eexists. splits; try eassumption.
  intros b y Hin. destruct Hin as [Hin|Hin].
  - inversion Hin; subst. destruct He1 as [He1|He1]; congruence.
  - destruct (sentRaw enc u); [|destruct Hin].
    destruct e1; [destruct Hin|].
    destruct Hin as [Hin|[]]. congruence.
Qed.

Lemma withStreamHeader_ok (wr : @Writer K) :
  len (obuf wr) = obufLen ->
  len (obuf (fst (withStreamHeader wr))) = obufLen
  /\ calls (fst (withStreamHeader wr)) = calls wr
  /\ err (fst (withStreamHeader wr)) = err wr
  /\ ibuf (fst (withStreamHeader wr)) = ibuf wr
  /\ 0 <= snd (withStreamHeader wr) <= len magicChunk.
Proof.
  intros Ho. unfold withStreamHeader.
  destruct (wroteStreamHeader wr); cbn [negb fst snd].
  - splits; try assumption. change (len magicChunk) with 10. lia.
  - unfold set_obuf, set_wroteStreamHeader.
    cbn [obuf calls err ibuf wroteStreamHeader].
    splits; [|change (len magicChunk) with 10; lia].
    rewrite copy_fits by (rewrite Ho, obufLen_eq; change (len magicChunk) with 10; lia).
    cbn [fst]. rewrite len_app, len_drop; rewrite Ho, obufLen_eq;
      change (len magicChunk) with 10; lia.
Qed.

(** ** The loop of Writer.write *)

Lemma write_loop_ok (fuel : nat) :
  forall (wr : @Writer K) (p : list byte) (nRet : Z),
    len (obuf wr) = obufLen -> (length p <= fuel)%nat ->
    exists wr' n e new,
      write_loop crc32c fuel wr p nRet = Ok (wr', n, e)
      /\ calls wr' = calls wr ++ new
      /\ (forall b y, In (b, Some y) new -> e = Some y)
      /\ err wr' = match e with Some x => Some x | None => err wr end
      /\ len (obuf wr') = obufLen
      /\ ibuf wr' = ibuf wr
      /\ nRet <= n <= nRet + len p
      /\ (e = None -> n = nRet + len p).
Proof.
  induction fuel as [|fuel IH]; intros wr p nRet Ho Hf.
  { destruct p; [|cbn in Hf; lia].
    exists wr, nRet, None, []. cbn [write_loop]. rewrite len_nil, app_nil_r.
    splits; first [assumption | lia | intros ? ? []]. }
  pose proof (len_nonneg p) as Hp0.
  destruct (Z.leb_spec (len p) 0) as [Hz|Hpos].
  { assert (p = []) by (apply len_0_nil; lia). subst p.
    exists wr, nRet, None, []. cbn [write_loop]. rewrite len_nil, app_nil_r.
    splits; first [assumption | lia | intros ? ? []]. }
  cbn [write_loop].
  destruct (Z.gtb_spec (len p) 0) as [_|]; [|lia].
  fold (withStreamHeader wr).
  destruct (withStreamHeader_ok wr Ho) as (Ho0 & Hc0 & He0 & Hi0 & Hs0).
  destruct (withStreamHeader wr) as [wr0 start]. cbn [fst snd] in *.
  change maxBlockSize with 65536.
  destruct (Z.gtb_spec (len p) 65536) as [Hbig|Hsmall].
  - rewrite slice_sub by lia. cbn [bind].
    rewrite slice_from_sub by lia. cbn [bind].
    set (u := sub p 0 65536). set (rest := sub p 65536 (len p)).
    assert (Hu : len u = 65536) by (unfold u; rewrite len_sub; lia).
    assert (Hr : len rest = len p - 65536)
      by (unfold rest; rewrite len_sub; lia).
    destruct (write_block_sum wr0 start u Ho0 ltac:(lia) Hs0)
      as (wr1 & e & new & Hrun & Hc1 & Hn1 & He1 & Ho1 & Hi1).
    rewrite Hrun. cbn [bind].
    destruct e as [x|].
    + exists wr1, nRet, (Some x), new.
      splits; first [congruence | lia | assumption | discriminate].
    + destruct (IH wr1 rest (nRet + len u) Ho1) as
          (wr2 & n & e & new2 & Hrun2 & Hc2 & Hn2 & He2 & Ho2 & Hi2 & Hb2 & Hd2).
      { unfold len in Hr, Hbig. lia. }
      exists wr2, n, e, (new ++ new2). rewrite Hrun2.
      splits; try assumption; try lia.
      * rewrite Hc2, Hc1, Hc0, app_assoc. reflexivity.
      * intros b y Hin. apply in_app_or in Hin. destruct Hin as [Hin|Hin].
        -- specialize (Hn1 b y Hin). discriminate.
        -- eapply Hn2. exact Hin.
      * rewrite He2, He1, He0. reflexivity.
      * congruence.
      * intros E. specialize (Hd2 E). lia.
  - cbn [bind].
    destruct (write_block_sum wr0 start p Ho0 ltac:(lia) Hs0)
      as (wr1 & e & new & Hrun & Hc1 & Hn1 & He1 & Ho1 & Hi1).
    rewrite Hrun. cbn [bind].
    destruct e as [x|].
    + exists wr1, nRet, (Some x), new.
      splits; first [congruence | lia | assumption | discriminate].
    + exists wr1, (nRet + len p), None, new.
      destruct fuel; cbn [write_loop]; rewrite len_nil; cbn.
      all: splits; first [congruence | lia | assumption | reflexivity].
Qed.

(** ** Writer.write and Writer.Flush *)

Lemma write_latched (wr : @Writer K) (p : list byte) (x : error) :
  err wr = Some x -> write crc32c wr p = Ok (wr, 0, Some x).
Proof. intros E. unfold write. rewrite E. reflexivity. Qed.

Lemma write_ok (wr : @Writer K) (p : list byte) :
  len (obuf wr) = obufLen ->
  exists wr' n e new,
    write crc32c wr p = Ok (wr', n, e)
    /\ calls wr' = calls wr ++ new
    /\ (forall b y, In (b, Some y) new -> e = Some y)
    /\ err wr' = match e with Some x => Some x | None => err wr end
    /\ len (obuf wr') = obufLen
    /\ ibuf wr' = ibuf wr
    /\ 0 <= n <= len p
    /\ (e = None -> n = len p).
Proof.
  intros Ho. unfold write. pose proof (len_nonneg p).
  destruct (err wr) as [x|] eqn:E.
  - exists wr, 0, (Some x), []. rewrite app_nil_r.
    splits; first [assumption | lia | discriminate | intros ? ? []].
  - destruct (write_loop_ok (length p) wr p 0 Ho ltac:(lia))
      as (wr' & n & e & new & Hrun & Hc & Hn & He & Ho' & Hi & Hb & Hd).
    exists wr', n, e, new. rewrite E in He.
    splits; first [assumption | lia].
Qed.

(** A block of at most [maxBlockSize] bytes takes one turn of the loop. *)
Lemma write_single (wr : @Writer K) (p : list byte) :
  err wr = None -> 1 <= len p <= 65536 ->
  write crc32c wr p
  = let* (wr1, e) :=
      write_block crc32c (fst (withStreamHeader wr))
                  (snd (withStreamHeader wr)) p in
    Ok (wr1, match e with Some _ => 0 | None => len p end, e).
Proof.
  intros E Hp. unfold write. rewrite E.
  destruct (length p) as [|fuel] eqn:El; [unfold len in Hp; lia|].
  cbn [write_loop].
  destruct (Z.gtb_spec (len p) 0) as [_|]; [|lia].
  fold (withStreamHeader wr).
  destruct (withStreamHeader wr) as [wr0 start]. cbn [fst snd].
  change maxBlockSize with 65536.
  destruct (Z.gtb_spec (len p) 65536) as [|_]; [lia|].
  cbn [bind].
  destruct (write_block crc32c wr0 start p) as [[wr1 [x|]]| |]; cbn [bind];
    try reflexivity.
  destruct fuel; reflexivity.
Qed.

Lemma Flush_latched (wr : @Writer K) (x : error) :
  err wr = Some x -> Flush crc32c wr = Ok (wr, Some x).
Proof. intros E. unfold Flush. rewrite E. reflexivity. Qed.

Lemma Flush_ok (wr : @Writer K) :
  len (obuf wr) = obufLen ->
  exists wr' new,
    Flush crc32c wr = Ok (wr', err wr')
    /\ calls wr' = calls wr ++ new
    /\ (forall b y, In (b, Some y) new -> err wr' = Some y)
    /\ (err wr' = None -> err wr = None)
    /\ len (obuf wr') = obufLen
    /\ (err wr = None ->
        ibuf wr' = match ibuf wr with Some _ => Some [] | None => None end)
    /\ (forall x, err wr = Some x -> wr' = wr).
Proof.
  intros Ho. unfold Flush.
  destruct (err wr) as [x|] eqn:E.
  { exists wr, []. rewrite app_nil_r, E.
    splits; first [assumption | discriminate | intros ? ? []]. }
  destruct (Z.eqb_spec (ibuf_len wr) 0) as [Hz|Hnz].
  { exists wr, []. rewrite app_nil_r, E.
    splits; try first [assumption | discriminate | intros ? ? []].
    intros _. unfold ibuf_len in Hz. destruct (ibuf wr) as [b|]; [|reflexivity].
    apply len_0_nil in Hz. subst. reflexivity. }
  destruct (write_ok wr (ibuf_bytes wr) Ho)
    as (wr' & n & e & new & Hrun & Hc & Hn & He & Ho' & Hi & _ & _).
  rewrite Hrun. cbn [bind]. rewrite E in He.
  exists (set_ibuf wr' (match ibuf wr' with Some _ => Some [] | None => None end)),
    new.
  unfold set_ibuf. cbn [err calls obuf ibuf].
  splits; try first [assumption | discriminate].
  - intros b y Hin. rewrite He, (Hn b y Hin). reflexivity.
  - intros _. rewrite Hi. reflexivity.
Qed.

(** ** Writer.Write on a buffered writer *)

Lemma free_slice (b : list byte) :
  len b <= 65536 ->
  slice (b ++ replicate (Z.to_nat (65536 - len b)) x00) (len b) 65536
  = Ok (replicate (Z.to_nat (65536 - len b)) x00).
Proof.
  intros Hb. pose proof (len_nonneg b).
  replace 65536 with (len (b ++ replicate (Z.to_nat (65536 - len b)) x00)) at 2
    by (rewrite len_app, len_replicate; lia).
  apply slice_from_app. reflexivity.
Qed.

Lemma Write_rest_latched (wr : @Writer K) (p : list byte) (nRet : Z)
      (x : error) :
  err wr = Some x -> Write_rest wr p nRet = Ok (wr, nRet, Some x).
Proof. intros E. unfold Write_rest. rewrite E. reflexivity. Qed.

Lemma Write_rest_fits (wr : @Writer K) (b p : list byte) (nRet : Z) :
  ibuf wr = Some b -> err wr = None -> len p <= 65536 - len b ->
  Write_rest wr p nRet = Ok (set_ibuf wr (Some (b ++ p)), nRet + len p, None).
Proof.
  intros Hi E Hp. pose proof (len_nonneg p).
  unfold Write_rest, ibuf_bytes, ibuf_cap, ibuf_len. rewrite Hi, E.
  change maxBlockSize with 65536.
  rewrite free_slice by lia. cbn [bind].
  rewrite copy_fits by (rewrite len_replicate; lia).
  rewrite slice_0_all. reflexivity.
Qed.

Lemma Write_loop_exit (fuel : nat) (wr : @Writer K) (p : list byte) (nRet : Z) :
  len p <= ibuf_cap wr - ibuf_len wr \/ err wr <> None ->
  Write_loop crc32c fuel wr p nRet = Ok (wr, p, nRet).
Proof.
  intros H.
  assert (E : (len p >? ibuf_cap wr - ibuf_len wr)
              && match err wr with None => true | Some _ => false end = false).
  { destruct H as [H|H].
    - destruct (Z.gtb_spec (len p) (ibuf_cap wr - ibuf_len wr)); [lia|].
      reflexivity.
    - destruct (err wr); [apply andb_false_r|congruence]. }
  destruct fuel; cbn [Write_loop]; rewrite E; reflexivity.
Qed.

Lemma Write_loop_direct (fuel : nat) (wr : @Writer K) (p : list byte)
      (nRet : Z) :
  ibuf wr = Some [] -> err wr = None -> 65536 < len p ->
  Write_loop crc32c (S fuel) wr p nRet
  = let* (wr2, n, _) := write crc32c wr p in
    let* p' := slice_from p n in
    Write_loop crc32c fuel wr2 p' (nRet + n).
Proof.
  intros Hi E Hp. cbn [Write_loop].
  unfold ibuf_cap, ibuf_len. rewrite Hi, E. change maxBlockSize with 65536.
  rewrite len_nil, Z.sub_0_r.
  destruct (Z.gtb_spec (len p) 65536) as [_|]; [|lia].
  cbn [andb Z.eqb].
  destruct (write crc32c wr p) as [[[wr2 n] e]| |]; reflexivity.
Qed.

Lemma Write_loop_fill (fuel : nat) (wr : @Writer K) (b p : list byte)
      (nRet : Z) :
  ibuf wr = Some b -> b <> [] -> len b <= 65536 -> err wr = None ->
  65536 - len b < len p ->
  Write_loop crc32c (S fuel) wr p nRet
  = let* (wr1, _) :=
      Flush crc32c (set_ibuf wr (Some (b ++ sub p 0 (65536 - len b)))) in
    Write_loop crc32c fuel wr1 (sub p (65536 - len b) (len p))
               (nRet + (65536 - len b)).
Proof.
  intros Hi Hb Hlb E Hp. pose proof (len_nonneg b) as Hb0.
  cbn [Write_loop].
  unfold ibuf_cap, ibuf_len, ibuf_bytes. rewrite Hi, E.
  change maxBlockSize with 65536.
  destruct (Z.gtb_spec (len p) (65536 - len b)) as [_|]; [|lia].
  cbn [andb].
  destruct (Z.eqb_spec (len b) 0) as [Hz|_];
    [apply len_0_nil in Hz; congruence|].
  rewrite free_slice by lia. cbn [bind].
  unfold copy. rewrite len_replicate by lia.
  rewrite Z.min_l by lia.
  rewrite slice_sub by lia. cbn [bind].
  destruct (Flush crc32c _) as [[wr1 e]| |]; cbn [bind]; try reflexivity.
  rewrite slice_from_sub by lia. reflexivity.
Qed.

Lemma set_ibuf_same (wr : @Writer K) (b : option (list byte)) :
  ibuf wr = b -> set_ibuf wr b = wr.
Proof. intros <-. destruct wr. reflexivity. Qed.

(** [Write] from a writer that has nothing buffered. *)
Lemma Write_from_empty (fuel : nat) (wr : @Writer K) (p : list byte)
      (nRet : Z) :
  len (obuf wr) = obufLen -> ibuf wr = Some [] -> err wr = None ->
  exists wr1 n e new,
    (let* (w', p', nRet') := Write_loop crc32c (S fuel) wr p nRet in
     Write_rest w' p' nRet') = Ok (wr1, nRet + n, e)
    /\ (if len p <=? 65536
        then wr1 = set_ibuf wr (Some p) /\ e = None
        else write crc32c wr p = Ok (wr1, n, e) /\ ibuf wr1 = Some [])
    /\ calls wr1 = calls wr ++ new
    /\ (forall b y, In (b, Some y) new -> e = Some y)
    /\ err wr1 = e
    /\ len (obuf wr1) = obufLen
    /\ ibuf_len wr1 <= 65536
    /\ ibuf wr1 <> None
    /\ 0 <= n <= len p
    /\ (e = None -> n = len p).
Proof.
  intros Ho Hi E. pose proof (len_nonneg p) as Hp0.
  destruct (Z.leb_spec (len p) 65536) as [Hsmall|Hbig].
  - rewrite Write_loop_exit
      by (left; unfold ibuf_cap, ibuf_len; rewrite Hi; rewrite len_nil;
          change maxBlockSize with 65536; lia).
    cbn [bind].
    rewrite (Write_rest_fits wr [] p) by (rewrite ?len_nil; first [assumption|lia]).
    cbn [app].
    exists (set_ibuf wr (Some p)), (len p), None, [].
    unfold set_ibuf at 2 3 4 5 6. unfold ibuf_len.
    cbn [calls err obuf ibuf]. rewrite app_nil_r.
    splits; first [assumption | lia | discriminate | intros ? ? []].
  - rewrite Write_loop_direct by assumption.
    destruct (write_ok wr p Ho)
      as (wr1 & n & e & new & Hrun & Hc & Hn & He & Ho1 & Hi1 & Hb & Hd).
    rewrite Hrun. cbn [bind].
    rewrite slice_from_sub by lia. cbn [bind].
    rewrite E in He. rewrite Hi in Hi1.
    exists wr1, n, e, new.
    assert (Hil : ibuf_len wr1 = 0) by (unfold ibuf_len; rewrite Hi1; reflexivity).
    splits; try first [assumption | lia | congruence].
    + destruct e as [x|].
      * rewrite Write_loop_exit by (right; congruence).
        cbn [bind]. apply Write_rest_latched. exact He.
      * specialize (Hd eq_refl). subst n.
        assert (Hnil : sub p (len p) (len p) = [])
          by (apply len_0_nil; rewrite len_sub; lia).
        rewrite Hnil.
        rewrite Write_loop_exit
          by (left; unfold ibuf_cap; rewrite Hil, Hi1, len_nil;
              change maxBlockSize with 65536; lia).
        cbn [bind].
        rewrite (Write_rest_fits wr1 [] []) by (rewrite ?len_nil; first [assumption|lia]).
        cbn [app]. rewrite set_ibuf_same by exact Hi1.
        rewrite len_nil, Z.add_0_r. reflexivity.
    + destruct e; assumption.
Qed.

Lemma Write_latched (wr : @Writer K) (p : list byte) (x : error) :
  err wr = Some x -> Write crc32c wr p = Ok (wr, 0, Some x).
Proof.
  intros E. unfold Write. destruct (ibuf wr).
  - rewrite Write_loop_exit by (right; congruence). cbn [bind].
    apply Write_rest_latched. exact E.
  - apply write_latched. exact E.
Qed.

Lemma Write_fits (wr : @Writer K) (b p : list byte) :
  ibuf wr = Some b -> err wr = None -> len p <= 65536 - len b ->
  Write crc32c wr p = Ok (set_ibuf wr (Some (b ++ p)), len p, None).
Proof.
  intros Hi E Hp. unfold Write. rewrite Hi.
  rewrite Write_loop_exit
    by (left; unfold ibuf_cap, ibuf_len; rewrite Hi;
        change maxBlockSize with 65536; lia).
  cbn [bind]. rewrite (Write_rest_fits wr b p) by assumption.
  reflexivity.
Qed.

Lemma Write_direct (wr : @Writer K) (p : list byte) :
  len (obuf wr) = obufLen -> ibuf wr = Some [] -> err wr = None ->
  65536 < len p ->
  exists wr1 n e,
    write crc32c wr p = Ok (wr1, n, e)
    /\ Write crc32c wr p = Ok (wr1, n, e)
    /\ ibuf wr1 = Some [].
Proof.
  intros Ho Hi E Hp. unfold Write. rewrite Hi.
  replace (length p + 2)%nat with (S (length p + 1)) by lia.
  destruct (Write_from_empty (length p + 1) wr p 0 Ho Hi E)
    as (wr1 & n & e & new & Hrun & Hcase & _).
  destruct (Z.leb_spec (len p) 65536); [lia|].
  destruct Hcase as (Hw & Hi1).
  exists wr1, n, e. rewrite Hrun. auto.
Qed.

(** A flush of a buffer that holds one block sends that block. *)
Lemma Flush_block (wr : @Writer K) (full : list byte) :
  len (obuf wr) = obufLen -> err wr = None -> ibuf wr = Some full ->
  1 <= len full <= 65536 ->
  exists wr1 e,
    write_block crc32c (fst (withStreamHeader wr)) (snd (withStreamHeader wr))
                full = Ok (wr1, e)
    /\ Flush crc32c wr = Ok (set_ibuf wr1 (Some []), e).
Proof.
  intros Ho E Hi Hf.
  destruct (withStreamHeader_ok wr Ho) as (Ho0 & Hc0 & He0 & Hi0 & Hs0).
  destruct (write_block_sum (fst (withStreamHeader wr))
                            (snd (withStreamHeader wr)) full Ho0 Hf Hs0)
    as (wr1 & e & new & Hrun & Hc1 & Hn1 & He1 & Ho1 & Hi1).
  exists wr1, e. split; [exact Hrun|].
  unfold Flush. rewrite E. unfold ibuf_len, ibuf_bytes. rewrite Hi.
  destruct (Z.eqb_spec (len full) 0) as [|_]; [lia|].
  rewrite write_single by assumption.
  rewrite Hrun. cbn [bind].
  rewrite Hi1, Hi0, Hi.
  unfold set_ibuf at 2. cbn [err].
  rewrite He1, He0, E. destruct e; reflexivity.
Qed.

Lemma Write_fill (wr : @Writer K) (b p : list byte) :
  len (obuf wr) = obufLen -> ibuf wr = Some b -> b <> [] ->
  len b <= 65536 -> err wr = None -> 65536 - len b < len p ->
  exists wr1 new,
    Flush crc32c (set_ibuf wr (Some (b ++ sub p 0 (65536 - len b))))
    = Ok (wr1, err wr1)
    /\ ibuf wr1 = Some []
    /\ len (obuf wr1) = obufLen
    /\ calls wr1 = calls wr ++ new
    /\ (forall c y, In (c, Some y) new -> err wr1 = Some y)
    /\ Write crc32c wr p
       = match err wr1 with
         | Some x => Ok (wr1, 65536 - len b, Some x)
         | None =>
             if len (sub p (65536 - len b) (len p)) <=? 65536
             then Ok (set_ibuf wr1 (Some (sub p (65536 - len b) (len p))),
                      len p, None)
             else
               let* (wr2, n, e) :=
                 write crc32c wr1 (sub p (65536 - len b) (len p)) in
               Ok (wr2, 65536 - len b + n, e)
         end.
Proof.
  intros Ho Hi Hb Hlb E Hp. pose proof (len_nonneg b) as Hb0.
  set (free := 65536 - len b) in *.
  set (wrf := set_ibuf wr (Some (b ++ sub p 0 free))).
  destruct (Flush_ok wrf Ho)
    as (wr1 & new & Hfl & Hc1 & Hn1 & _ & Ho1 & Hi1 & _).
  specialize (Hi1 E). cbn [wrf set_ibuf ibuf] in Hi1.
  exists wr1, new.
  splits; try assumption.
  unfold Write. rewrite Hi.
  replace (length p + 2)%nat with (S (S (length p))) by lia.
  rewrite (Write_loop_fill _ wr b p 0) by assumption.
  fold free. fold wrf. rewrite Hfl. cbn [bind].
  destruct (err wr1) as [x|] eqn:E1.
  - rewrite Write_loop_exit by (right; congruence). cbn [bind].
    rewrite (Write_rest_latched _ _ _ x) by exact E1. reflexivity.
  - destruct (Write_from_empty (length p) wr1 (sub p free (len p)) (0 + free)
                Ho1 Hi1 E1)
      as (wr2 & n & e & new2 & Hrun & Hcase & _ & _ & _ & _ & _ & _ & _ & Hd).
    rewrite Hrun.
    assert (Hrest : len (sub p free (len p)) = len p - free)
      by (rewrite len_sub; lia).
    destruct (Z.leb_spec (len (sub p free (len p))) 65536).
    + destruct Hcase as (-> & ->). specialize (Hd eq_refl).
      replace (0 + free + n) with (len p) by lia. reflexivity.
    + destruct Hcase as (Hw & _). rewrite Hw. cbn [bind]. reflexivity.
Qed.

(** [Write] returns, and a sink error it meets is the error it returns and
    latches. *)
Lemma Write_ok (wr : @Writer K) (p : list byte) :
  len (obuf wr) = obufLen -> ibuf_len wr <= 65536 ->
  exists wr' n e new,
    Write crc32c wr p = Ok (wr', n, e)
    /\ calls wr' = calls wr ++ new
    /\ (forall c y, In (c, Some y) new -> e = Some y)
    /\ err wr' = match e with Some x => Some x | None => err wr end
    /\ len (obuf wr') = obufLen
    /\ ibuf_len wr' <= 65536.
Proof.
  intros Ho Hil.
  destruct (err wr) as [x|] eqn:E.
  { exists wr, 0, (Some x), []. rewrite app_nil_r.
    splits; try first [assumption | intros ? ? []].
    apply Write_latched. exact E. }
  destruct (ibuf wr) as [b|] eqn:Hi.
  2:{ destruct (write_ok wr p Ho)
        as (wr' & n & e & new & Hrun & Hc & Hn & He & Ho' & Hi' & _).
      exists wr', n, e, new. unfold Write. rewrite Hi.
      rewrite E in He.
      splits; try assumption.
      unfold ibuf_len. rewrite Hi', Hi. lia. }
  unfold ibuf_len in Hil. rewrite Hi in Hil.
  pose proof (len_nonneg b) as Hb0. pose proof (len_nonneg p) as Hp0.
  destruct (Z.le_gt_cases (len p) (65536 - len b)) as [Hfit|Hbig].
  { exists (set_ibuf wr (Some (b ++ p))), (len p), None, [].
    rewrite app_nil_r. unfold set_ibuf at 2 3 4 5. unfold ibuf_len.
    cbn [calls err obuf ibuf].
    splits; try first [assumption | intros ? ? []].
    - apply Write_fits; assumption.
    - rewrite len_app. lia. }
  destruct b as [|b0 b].
  { destruct (Write_direct wr p Ho Hi E ltac:(rewrite len_nil in Hbig; lia))
      as (wr1 & n & e & Hw & Hrun & Hi1).
    destruct (write_ok wr p Ho)
      as (wr' & n' & e' & new & Hrun' & Hc & Hn & He & Ho' & Hi' & _).
    rewrite Hw in Hrun'. inversion Hrun'; subst wr' n' e'.
    exists wr1, n, e, new. rewrite E in He.
    splits; try assumption.
    unfold ibuf_len. rewrite Hi1, len_nil. lia. }
  destruct (Write_fill wr (b0 :: b) p Ho Hi ltac:(discriminate) Hil E Hbig)
    as (wr1 & new1 & _ & Hi1 & Ho1 & Hc1 & Hn1 & Hrun).
  rewrite Hrun.
  assert (Hil1 : ibuf_len wr1 <= 65536)
    by (unfold ibuf_len; rewrite Hi1, len_nil; lia).
  destruct (err wr1) as [x|] eqn:E1.
  { exists wr1, (65536 - len (b0 :: b)), (Some x), new1.
    splits; try assumption. }
  set (rest := sub p (65536 - len (b0 :: b)) (len p)) in *.
  destruct (Z.leb_spec (len rest) 65536) as [Hr|Hr].
  { exists (set_ibuf wr1 (Some rest)), (len p), None, new1.
    unfold set_ibuf at 2 3 4 5. unfold ibuf_len.
    cbn [calls err obuf ibuf].
    splits; first [assumption
                  | intros c y Hin; specialize (Hn1 c y Hin); congruence]. }
  destruct (write_ok wr1 rest Ho1)
    as (wr2 & n & e & new2 & Hrun2 & Hc2 & Hn2 & He2 & Ho2 & Hi2 & _).
  rewrite Hrun2. cbn [bind].
  exists wr2, (65536 - len (b0 :: b) + n), e, (new1 ++ new2).
  splits; try assumption.
  - rewrite Hc2, Hc1, app_assoc. reflexivity.
  - intros c y Hin. apply in_app_or in Hin. destruct Hin as [Hin|Hin].
    + specialize (Hn1 c y Hin). discriminate.
    + eapply Hn2. exact Hin.
  - rewrite He2, E1. reflexivity.
  - unfold ibuf_len. rewrite Hi2, Hi1, len_nil. lia.
Qed.

(** ** Writer.Close *)

Lemma Close_ok (wr : @Writer K) :
  len (obuf wr) = obufLen ->
  exists wr1 new,
    Flush crc32c wr = Ok (wr1, err wr1)
    /\ Close crc32c wr
       = Ok (match err wr1 with
             | None => set_err wr1 (Some errClosed)
             | Some _ => wr1
             end, err wr1)
    /\ calls wr1 = calls wr ++ new
    /\ (forall c y, In (c, Some y) new -> err wr1 = Some y)
    /\ (forall x, err wr = Some x -> wr1 = wr).
Proof.
  intros Ho.
  destruct (Flush_ok wr Ho) as (wr1 & new & Hfl & Hc & Hn & _ & _ & _ & Hl).
  exists wr1, new. unfold Close. rewrite Hfl. cbn [bind].
  splits; assumption.
Qed.

End WriterProofs.

(** * The properties of the specification *)

(** ** What a log tells *)

Lemma trace_snoc_inv (src : list byte) (log : list event) (e : event) (pos : Z) :
  trace src (log ++ [e]) pos ->
  exists pos0,
    trace src log pos0
    /\ match e with
       | CallEmitLiteral lo hi =>
           lo = pos0 /\ hi = pos /\ pos0 < hi <= len src /\ hi - pos0 <= 65536
       | CallEmitCopy base candidate s =>
           base = pos0 /\ s = pos /\ 1 <= base - candidate <= 65535
           /\ 4 <= s - base <= 65535 /\ matches src base candidate (s - base)
       | TableStore v => pos = pos0 /\ 0 <= v < 65536
       end.
Proof.
  intros H. remember (log ++ [e]) as l eqn:El.
  destruct H as [|log' pos' hi Ht Hh Hl
                 |log' base candidate s Ht Ho Hn Hm
                 |log' pos' v Ht Hv].
  - destruct log; discriminate.
  - apply app_inj_tail in El as [-> <-]. exists pos'. auto.
  - apply app_inj_tail in El as [-> <-]. exists base. auto 10.
  - apply app_inj_tail in El as [-> <-]. exists pos'. auto.
Qed.

Lemma trace_app_inv (src : list byte) (before after : list event) (pos : Z) :
  trace src (before ++ after) pos -> exists pos0, trace src before pos0.
Proof.
  revert pos. induction after as [|e after IH] using rev_ind; intros pos H.
  - rewrite app_nil_r in H. eauto.
  - rewrite app_assoc in H. apply trace_snoc_inv in H as (pos0 & H & _).
    eapply IH. exact H.
Qed.

(** A copy in the log starts where the events before it end, and reads
    from an earlier position of the source. *)
Lemma trace_copy_inv (src : list byte) (before after : list event)
      (base candidate s pos : Z) :
  trace src (before ++ CallEmitCopy base candidate s :: after) pos ->
  trace src before base
  /\ 1 <= base - candidate <= 65535 /\ 4 <= s - base <= 65535
  /\ matches src base candidate (s - base).
Proof.
  intros H.
  replace (before ++ CallEmitCopy base candidate s :: after)
    with ((before ++ [CallEmitCopy base candidate s]) ++ after) in H
    by (rewrite <- app_assoc; reflexivity).
  apply trace_app_inv in H as (pos1 & H).
  apply trace_snoc_inv in H as (pos0 & H & -> & _ & Ho & Hn & Hm).
  auto.
Qed.

Lemma trace_stores (src : list byte) (log : list event) (pos : Z) :
  trace src log pos ->
  forall v, In (TableStore v) log -> 0 <= v < 65536.
Proof.
  induction 1 as [|log pos hi Ht IH Hh Hl
                  |log base candidate s Ht IH Ho Hn Hm
                  |log pos v' Ht IH Hv]; intros v Hin.
  - destruct Hin.
  - apply in_app_or in Hin as [Hin|[Hin|[]]]; [auto|discriminate].
  - apply in_app_or in Hin as [Hin|[Hin|[]]]; [auto|discriminate].
  - apply in_app_or in Hin as [Hin|[Hin|[]]]; [auto|].
    inversion Hin; subst. exact Hv.
Qed.

Lemma trace_start (src : list byte) (log : list event) :
  trace src log 0 -> logChunks src log = [].
Proof.
  intros H. remember 0 as pos eqn:E.
  induction H as [|log pos hi Ht IH Hh Hl
                  |log base candidate s Ht IH Ho Hn Hm
                  |log pos v Ht IH Hv].
  - reflexivity.
  - pose proof (trace_pos _ _ _ Ht). lia.
  - pose proof (trace_pos _ _ _ Ht). lia.
  - rewrite logChunks_snoc, IH by exact E. reflexivity.
Qed.

(** The first chunk of a block is a literal. *)
Lemma trace_first (src : list byte) (log : list event) (pos : Z) :
  trace src log pos -> 0 < pos ->
  exists lit rest,
    logChunks src log = Literal lit :: rest /\ 1 <= len lit <= 65536.
Proof.
  induction 1 as [|log pos hi Ht IH Hh Hl
                  |log base candidate s Ht IH Ho Hn Hm
                  |log pos v Ht IH Hv]; intros Hpos.
  - lia.
  - pose proof (trace_pos _ _ _ Ht) as Hp.
    rewrite logChunks_snoc. cbn [eventChunks].
    destruct (Z.eq_dec pos 0) as [->|Hne].
    + rewrite (trace_start _ _ Ht). cbn [app].
      eexists _, _. split; [reflexivity|]. rewrite len_sub by lia. lia.
    + destruct IH as (lit & rest & E & Hlit); [lia|].
      rewrite E. cbn [app]. eauto.
  - destruct Hm as (Hc & _).
    destruct IH as (lit & rest & E & Hlit); [lia|].
    rewrite logChunks_snoc, E. cbn [app]. eauto.
  - destruct IH as (lit & rest & E & Hlit); [lia|].
    rewrite logChunks_snoc, E. cbn [app]. eauto.
Qed.

(** ** Encode *)

(** C1: for every [src] that [Encode] accepts (it does not fail with
    [ErrTooLarge], which needs [len src <= 2^32 - 1]; a slice is shorter
    than [2^63]), [Encode dst src] returns a block [enc] that opens with
    the unsigned varint of [len src], followed by the wire form of chunks
    [cs] that the reference decoder reads back, whose literal and copy
    lengths add up to [len src] and whose execution yields [src]; so
    decoding [enc] gives [src]. *)
Theorem C1_Encode_round_trip (dst src : list byte) :
  len src < 2 ^ 63 -> 0 <= MaxEncodedLen (len src) ->
  exists enc cs,
    Encode dst src = Ok enc
    /\ len src <= 0xffffffff
    /\ Uvarint enc 0 0 = Some (len src, chunksBytes cs)
    /\ parseChunks (length (chunksBytes cs)) (chunksBytes cs) = Some cs
    /\ chunksLen cs = len src
    /\ execChunks cs [] = Some src
    /\ decode enc = Some src.
Proof.
  intros Hint Hacc. pose proof (len_nonneg src) as H0.
  destruct (Encode_ok dst src Hint Hacc) as (cs & Henc & He & _).
  destruct (MaxEncodedLen_nonneg (len src) ltac:(lia) Hacc) as (Hn & _).
  exists (varintBytes 10 (len src) ++ chunksBytes cs), cs.
  pose proof (decode_encodes cs src ltac:(lia) He) as Hdec.
  destruct He as (Hw & Hlen & Hexec).
  splits; try assumption.
  - apply Uvarint_PutUvarint. lia.
  - apply parse_chunksBytes. exact Hw.
  - apply (Hexec []).
Qed.

Lemma C1_Encode_round_trip_witness :
  exists enc, Encode [] abcd5 = Ok enc /\ decode enc = Some abcd5.
Proof.
  destruct (C1_Encode_round_trip [] abcd5) as (enc & cs & H & _ & _ & _ & _ & _ & Hd).
  - vm_compute. reflexivity.
  - vm_compute. discriminate.
  - exists enc. split; assumption.
Defined.

(** C2: [MaxEncodedLen n] is [32 + n + n/6] when [n] and that sum are at
    most [2^32 - 1], and negative for every other [int]; and whenever
    [MaxEncodedLen (len src)] is not negative, [Encode dst src] returns at
    most that many bytes. *)
Theorem C2_MaxEncodedLen_bound (dst src : list byte) :
  len src < 2 ^ 63 -> 0 <= MaxEncodedLen (len src) ->
  (exists enc,
      Encode dst src = Ok enc /\ len enc <= MaxEncodedLen (len src))
  /\ (forall n, 0 <= n <= 0xffffffff -> 32 + n + n / 6 <= 0xffffffff ->
                MaxEncodedLen n = 32 + n + n / 6)
  /\ (forall n, - 2 ^ 63 <= n < 2 ^ 63 ->
                n < 0 \/ 0xffffffff < n \/ 0xffffffff < 32 + n + n / 6 ->
                MaxEncodedLen n < 0).
Proof.
  intros Hint Hacc. splits.
  - destruct (Encode_ok dst src Hint Hacc) as (cs & Henc & _ & Hl). eauto.
  - intros n Hn Hs. apply MaxEncodedLen_eq; lia.
  - intros n Hn Hc. rewrite MaxEncodedLen_neg by assumption. lia.
Qed.

Lemma C2_MaxEncodedLen_bound_witness :
  exists enc, Encode [] abcd5 = Ok enc /\ len enc <= MaxEncodedLen 20.
Proof.
  destruct (C2_MaxEncodedLen_bound [] abcd5) as ((enc & H & Hl) & _).
  - vm_compute. reflexivity.
  - vm_compute. discriminate.
  - exists enc. split; assumption.
Defined.

(** ** encodeBlock *)

Lemma literalHeader_tag (n : Z) :
  0 <= n < 65536 ->
  exists tag rest,
    literalHeader n = tag :: rest /\ Z.land (b2z tag) 3 = b2z tagLiteral.
Proof.
  intros Hn. unfold literalHeader.
  destruct (Z.ltb_spec n 60); [|destruct (Z.ltb_spec n 256)].
  - eexists _, _. split; [reflexivity|].
    rewrite b2z_byte_of_small by lia.
    change 3 with (Z.ones 2). rewrite Z.land_ones by lia.
    change (b2z tagLiteral) with 0. change (2 ^ 2) with 4.
    rewrite Z.mul_comm. apply Z.mod_mul. lia.
  - eexists _, _. split; reflexivity.
  - eexists _, _. split; reflexivity.
Qed.

(** C3: under the preconditions of [encodeBlock], every call of [emitCopy]
    that the run logs has an offset [base - candidate] from 1 to 65535 that
    does not exceed [base], and a length [s - base] of at least 4; [base] is
    the number of bytes that the chunks emitted before the call decode to,
    and those chunks decode to [src[:base]], so the copy reads bytes that
    are already there.  The bytes written are the wire form of the logged
    chunks, the first of which is a literal: the block starts with a literal
    tag. *)
Theorem C3_copies_reference_emitted_bytes (dst src : list byte) :
  17 <= len src <= 65536 -> MaxEncodedLen (len src) <= len dst ->
  exists dst' d log,
    encodeBlock_run dst src = Ok (dst', d, log)
    /\ encodeBlock dst src = Ok (dst', d)
    /\ take (Z.to_nat d) dst' = chunksBytes (logChunks src log)
    /\ (forall before base candidate s after,
          log = before ++ CallEmitCopy base candidate s :: after ->
          1 <= base - candidate <= 65535
          /\ 4 <= s - base
          /\ base - candidate <= base
          /\ chunksLen (logChunks src before) = base
          /\ execChunks (logChunks src before) []
             = Some (take (Z.to_nat base) src))
    /\ (exists lit rest,
          logChunks src log = Literal lit :: rest /\ 1 <= len lit)
    /\ (exists tag,
          dst' !! 0%nat = Some tag /\ Z.land (b2z tag) 3 = b2z tagLiteral).
Proof.
  intros Hsrc Hcap.
  pose proof (blockBound_MaxEncodedLen (len src) ltac:(lia)) as Hbb.
  destruct (encodeBlock_run_ok dst src Hsrc ltac:(lia))
    as (log & Hrun & Htr & Hlen).
  exists (buffer dst (written src log)), (len (written src log)), log.
  destruct (trace_first _ _ _ Htr ltac:(lia)) as (lit & rest & Efirst & Hlit).
  split; [exact Hrun|]. splits.
  - unfold encodeBlock. rewrite Hrun. reflexivity.
  - unfold buffer, written, len. rewrite Nat2Z.id. apply take_app_length.
  - intros before base candidate s after ->.
    destruct (trace_copy_inv _ _ _ _ _ _ _ Htr) as (Hb & Ho & Hn & Hm).
    destruct Hm as (Hc & _).
    splits; try lia.
    + eapply chunksLen_trace. exact Hb.
    + rewrite (exec_trace _ _ _ Hb). reflexivity.
  - exists lit, rest. split; [exact Efirst|lia].
  - unfold buffer, written. rewrite Efirst, chunksBytes_cons.
    cbn [chunkBytes].
    destruct (literalHeader_tag (len lit - 1) ltac:(lia))
      as (tag & hrest & Eh & Htag).
    rewrite Eh. exists tag. split; [reflexivity|exact Htag].
Qed.

Lemma C3_copies_reference_emitted_bytes_witness :
  exists dst' d log,
    encodeBlock_run room55 abcd5 = Ok (dst', d, log)
    /\ forall before base candidate s after,
         log = before ++ CallEmitCopy base candidate s :: after ->
         1 <= base - candidate <= 65535 /\ 4 <= s - base.
Proof.
  destruct (C3_copies_reference_emitted_bytes room55 abcd5)
    as (dst' & d & log & Hrun & _ & _ & Hcopy & _).
  - vm_compute. split; discriminate.
  - vm_compute. discriminate.
  - exists dst', d, log. split; [exact Hrun|].
    intros before base candidate s after E.
    destruct (Hcopy before base candidate s after E) as (H1 & H2 & _).
    split; assumption.
Defined.

Lemma load64_inv (b : list byte) (i v : Z) :
  load64 b i = Ok v -> 0 <= i /\ i + 8 <= len b.
Proof.
  unfold load64. intros H. apply bind_Ok in H as (s & Hs & _).
  apply slice_inv in Hs. lia.
Qed.

(** C10: under the preconditions of [encodeBlock] the run ends without a
    panic, so none of its bounds checks fails: the checks are those of
    [load32] ([i + 4 <= len b]), of [load64] ([i + 8 <= len b]), of the reads
    and writes of the table, whose index [h & tableMask] is below
    [maxTableSize], and of the writes to [dst], which keeps its length and
    holds the [d] bytes written.  Every position stored in the table is
    below 65536, so that the conversion to [uint16] keeps it. *)
Theorem C10_encodeBlock_in_bounds (dst src : list byte) :
  17 <= len src <= 65536 -> MaxEncodedLen (len src) <= len dst ->
  (exists dst' d log,
      encodeBlock_run dst src = Ok (dst', d, log)
      /\ encodeBlock dst src = Ok (dst', d)
      /\ 0 <= d <= len dst /\ len dst' = len dst
      /\ forall v, In (TableStore v) log -> 0 <= v < 65536 /\ uint16 v = v)
  /\ (forall b i v, load32 b i = Ok v -> 0 <= i /\ i + 4 <= len b)
  /\ (forall b i v, load64 b i = Ok v -> 0 <= i /\ i + 8 <= len b)
  /\ (forall h, 0 <= Z.land h tableMask < maxTableSize)
  /\ (forall (t : list Z) i v, index t i = Ok v -> 0 <= i < len t)
  /\ (forall (t t' : list Z) i v, store t i v = Ok t' -> 0 <= i < len t)
  /\ (forall (b b' : list byte) i v, store b i v = Ok b' -> 0 <= i < len b).
Proof.
  intros Hsrc Hcap.
  pose proof (blockBound_MaxEncodedLen (len src) ltac:(lia)) as Hbb.
  destruct (encodeBlock_run_ok dst src Hsrc ltac:(lia))
    as (log & Hrun & Htr & Hlen).
  pose proof (len_nonneg (written src log)) as Hw0.
  split.
  { exists (buffer dst (written src log)), (len (written src log)), log.
    split; [exact Hrun|]. splits.
    - unfold encodeBlock. rewrite Hrun. reflexivity.
    - lia.
    - lia.
    - apply len_buffer. lia.
    - intros v Hin. pose proof (trace_stores _ _ _ Htr v Hin) as Hv.
      split; [exact Hv|]. unfold uint16. apply Z.mod_small.
      change (2 ^ 16) with 65536. lia. }
  splits.
  - intros b i v H. eapply load32_inv. exact H.
  - intros b i v H. eapply load64_inv. exact H.
  - intros h. apply mask_range.
  - intros t i v H. apply index_inv in H. tauto.
  - intros t t' i v H. apply store_inv in H. tauto.
  - intros b b' i v H. apply store_inv in H. tauto.
Qed.

Lemma C10_encodeBlock_in_bounds_witness :
  exists dst' d, encodeBlock room55 abcd5 = Ok (dst', d) /\ 0 <= d <= 55.
Proof.
  destruct (C10_encodeBlock_in_bounds room55 abcd5)
    as ((dst' & d & log & _ & Hrun & Hd & _) & _).
  - vm_compute. split; discriminate.
  - vm_compute. discriminate.
  - exists dst', d. split; [exact Hrun|exact Hd].
Defined.

(** ** The emitters *)

Lemma copyPeel_copyChunks (fuel : nat) :
  forall offset length,
    4 <= length <= 64 * Z.of_nat fuel + 67 ->
    copyPeel fuel offset length = copyChunks offset length.
Proof.
  induction fuel as [|fuel IH]; intros offset length H; cbn [copyPeel].
  - destruct (Z.geb_spec length 68); [lia|].
    unfold copyChunks. cbv zeta. rewrite peel_done by lia.
    rewrite Z.mul_0_r, Z.sub_0_r. reflexivity.
  - destruct (Z.geb_spec length 68) as [Hge|Hlt].
    + rewrite IH by lia. unfold copyChunks. cbv zeta.
      rewrite (peel_step length) by lia.
      pose proof (peel_nonneg (length - 64) ltac:(lia)) as Hk.
      rewrite Z2Nat.inj_add by lia.
      change (Z.to_nat 1) with 1%nat. rewrite Nat.add_1_r.
      cbn [replicate app]. do 3 f_equal. lia.
    + unfold copyChunks. cbv zeta. rewrite peel_done by lia.
      rewrite Z.mul_0_r, Z.sub_0_r. reflexivity.
Qed.

(** C4: for an offset from 1 to 65535 and a length from 4 to 65535,
    [emitCopy] writes at the front of [dst] the chunks of the algorithm: a
    [COPY_2] of length 64 (three bytes, the first [63<<2 | tagCopy2]) as
    long as at least 68 bytes remain, then a [COPY_2] of length 60 if more
    than 64 remain, then one [COPY_2] (three bytes) if at least 12 bytes
    remain or the offset is 2048 or more, and one [COPY_1] (two bytes)
    otherwise; it returns the number of bytes written and leaves the rest
    of [dst] as it was.  The lengths of the chunks add up to [length]. *)
Theorem C4_emitCopy_chunks (dst : list byte) (offset length : Z) :
  1 <= offset <= 65535 -> 4 <= length <= 65535 ->
  len (chunksBytes (copyPeel (Z.to_nat length) offset length)) <= len dst ->
  let cs := copyPeel (Z.to_nat length) offset length in
  emitCopy dst offset length
  = Ok (chunksBytes cs ++ drop (Z.to_nat (len (chunksBytes cs))) dst,
        len (chunksBytes cs))
  /\ chunksLen cs = length
  /\ chunkBytes (Copy2 offset 64)
     = [bor (bshl (u8 63) 2) tagCopy2; u8 offset; u8 (Z.shiftr offset 8)]
  /\ (forall n, len (chunkBytes (Copy2 offset n)) = 3)
  /\ (forall n, len (chunkBytes (Copy1 offset n)) = 2).
Proof.
  intros Ho Hl Hcap. cbv zeta.
  rewrite copyPeel_copyChunks in * by lia.
  splits.
  - apply emitCopy_ok; assumption.
  - apply chunksLen_copyChunks; lia.
  - cbn [chunkBytes]. rewrite (u8_low offset), (u8_high offset).
    reflexivity.
Qed.

Lemma C4_emitCopy_chunks_witness :
  emitCopy room55 5 70
  = Ok (chunksBytes (copyPeel 70 5 70)
        ++ drop (Z.to_nat (len (chunksBytes (copyPeel 70 5 70)))) room55,
        len (chunksBytes (copyPeel 70 5 70))).
Proof.
  apply (C4_emitCopy_chunks room55 5 70).
  - lia.
  - lia.
  - vm_compute. discriminate.
Defined.

(** C5: for a literal of 1 to 65536 bytes and [n = len lit - 1],
    [emitLiteral] writes at the front of [dst] a header of one byte
    [uint8(n)<<2 | tagLiteral] when [n < 60], of two bytes
    [60<<2 | tagLiteral], [uint8(n)] when [60 <= n < 256], and of three
    bytes [61<<2 | tagLiteral] and [n] as two little-endian bytes otherwise,
    then the bytes of the literal; it returns the length of the header plus
    [len lit] and leaves the rest of [dst] as it was. *)
Theorem C5_emitLiteral_header (dst lit : list byte) :
  1 <= len lit <= 65536 ->
  len (literalHeader (len lit - 1)) + len lit <= len dst ->
  let n := len lit - 1 in
  let header :=
    if n <? 60 then [bor (bshl (u8 n) 2) tagLiteral]
    else if n <? 256 then [bor (bshl (u8 60) 2) tagLiteral; u8 n]
    else [bor (bshl (u8 61) 2) tagLiteral; u8 n; u8 (Z.shiftr n 8)] in
  emitLiteral dst lit
  = Ok (header ++ lit ++ drop (Z.to_nat (len header + len lit)) dst,
        len header + len lit)
  /\ header = literalHeader n
  /\ len header = (if n <? 60 then 1 else if n <? 256 then 2 else 3)
  /\ (256 <= n -> le (drop 1 header) = n).
Proof.
  intros Hl Hcap. cbv zeta.
  assert (Hh : (if len lit - 1 <? 60
                then [bor (bshl (u8 (len lit - 1)) 2) tagLiteral]
                else if len lit - 1 <? 256
                     then [bor (bshl (u8 60) 2) tagLiteral; u8 (len lit - 1)]
                     else [bor (bshl (u8 61) 2) tagLiteral; u8 (len lit - 1);
                           u8 (Z.shiftr (len lit - 1) 8)])
               = literalHeader (len lit - 1)).
  { unfold literalHeader.
    destruct (Z.ltb_spec (len lit - 1) 60);
      [|destruct (Z.ltb_spec (len lit - 1) 256)].
    - rewrite tag_literal by lia. reflexivity.
    - reflexivity.
    - rewrite (u8_low (len lit - 1)), (u8_high (len lit - 1)). reflexivity. }
  rewrite Hh. splits.
  - apply emitLiteral_ok; assumption.
  - apply len_literalHeader.
  - intros Hbig. unfold literalHeader.
    destruct (Z.ltb_spec (len lit - 1) 60); [lia|].
    destruct (Z.ltb_spec (len lit - 1) 256); [lia|].
    cbn [drop]. apply le_2. lia.
Qed.

Lemma C5_emitLiteral_header_witness :
  emitLiteral room55 abcd5
  = Ok ([bor (bshl (u8 19) 2) tagLiteral] ++ abcd5
        ++ drop (Z.to_nat (1 + 20)) room55, 1 + 20).
Proof.
  apply (C5_emitLiteral_header room55 abcd5).
  - vm_compute. split; discriminate.
  - vm_compute. discriminate.
Defined.

(** ** The hash table *)

(** C6, as the specification states it, fails: for a block of 300 bytes
    the table size is 512, which exceeds the length of the block. *)
Lemma C6_table_size_counterexample :
  17 <= len zeros300 <= 65536
  /\ tableParams (len zeros300) = Ok (23, 512)
  /\ ~ largestPowerOfTwoUpTo 512 (len zeros300).
Proof.
  split; [vm_compute; split; discriminate|].
  split; [vm_compute; reflexivity|].
  intros (_ & H & _). vm_compute in H. apply H. reflexivity.
Qed.

(** C6, amended: for a block of 17 to 65536 bytes the table size is [2^k]
    for the least [k] from 8 to 14 with [len src <= 2^k], and [2^14] when
    there is none: the smallest power of two from 256 to 16384 that is not
    below the length of the block, or 16384.  The shift is [32 - k], and
    [hash u shift] is [(u * 0x1e35a7bd) >> shift] on 32 bits, a value below
    the table size. *)
Theorem C6_table_size_amended (src : list byte) :
  17 <= len src <= 65536 ->
  exists k,
    8 <= k <= 14
    /\ tableParams (len src) = Ok (32 - k, 2 ^ k)
    /\ (len src <= 2 ^ k \/ k = 14)
    /\ (k = 8 \/ 2 ^ (k - 1) < len src)
    /\ forall u,
         hash u (32 - k) = Z.shiftr ((u * 0x1e35a7bd) mod 2 ^ 32) (32 - k)
         /\ 0 <= hash u (32 - k) < 2 ^ k.
Proof.
  intros _.
  destruct (tableParams_spec (len src)) as (k & Hk & Htp & Hup & Hlow).
  exists k. do 4 (split; [first [assumption | lia]|]).
  intros u. split; [reflexivity|].
  unfold hash, u32. rewrite Z.shiftr_div_pow2 by lia.
  pose proof (Z.mod_pos_bound (u * 0x1e35a7bd) (2 ^ 32) ltac:(lia)) as Hm.
  assert (Hp : 0 < 2 ^ (32 - k)) by (apply Z.pow_pos_nonneg; lia).
  assert (Hs : 2 ^ 32 = 2 ^ (32 - k) * 2 ^ k).
  { rewrite <- Z.pow_add_r by lia. f_equal. lia. }
  split.
  - apply Z.div_pos; [apply Hm|exact Hp].
  - apply Z.div_lt_upper_bound; [exact Hp|]. rewrite <- Hs. apply Hm.
Qed.

Lemma C6_table_size_amended_witness :
  exists k, tableParams (len zeros300) = Ok (32 - k, 2 ^ k)
            /\ (len zeros300 <= 2 ^ k \/ k = 14).
Proof.
  destruct (C6_table_size_amended zeros300) as (k & _ & H & Hup & _).
  - vm_compute. split; discriminate.
  - exists k. split; assumption.
Defined.

(** ** The framed writer *)

Lemma sentRaw_ltb (compressed u : list byte) :
  sentRaw compressed u = negb (len compressed <? len u - len u / 8).
Proof.
  unfold sentRaw.
  destruct (Z.geb_spec (len compressed) (len u - len u / 8));
    destruct (Z.ltb_spec (len compressed) (len u - len u / 8));
    first [reflexivity | lia].
Qed.

Lemma crc_range (crc32c : list byte -> Z) (u : list byte) :
  0 <= crc crc32c u < 256 ^ 4.
Proof.
  unfold crc, mask, u32. change (256 ^ 4) with (2 ^ 32).
  apply Z.mod_pos_bound. lia.
Qed.

(** C7: for a block [u] of 1 to 65536 bytes, [Writer.write] encodes [u]
    into [obuf[18:]] and hands the sink one data chunk: when the encoding
    is shorter than [len u - len u / 8], the type byte [0x00] and the
    encoding as the payload, else the type byte [0x01] and, as the payload,
    the bytes of [u] themselves (sent with a second call of the sink, unless
    the first one fails).  In both cases the header holds, after the type,
    the length [4 + len payload] as three little-endian bytes and the
    masked CRC-32C of [u] as four little-endian bytes.  The chunk follows
    [obuf[start:10]], the stream header when [start] is 0. *)
Theorem C7_data_chunk {K : Type} {sink_K : Sink K} (crc32c : list byte -> Z)
        (wr : @Writer K) (start : Z) (u : list byte) :
  len (obuf wr) = obufLen -> 1 <= len u <= 65536 ->
  0 <= start <= len magicChunk ->
  exists compressed wr' e e1,
    Encode (drop 18 (obuf wr)) u = Ok compressed
    /\ decode compressed = Some u
    /\ write_block crc32c wr start u = Ok (wr', e)
    /\ let small := len compressed <? len u - len u / 8 in
       let body := if small then compressed else u in
       let header :=
         (if small then chunkTypeCompressedData
          else chunkTypeUncompressedData)
         :: leBytes 3 (4 + len body) ++ leBytes 4 (crc crc32c u) in
       calls wr'
       = calls wr
         ++ (drop (Z.to_nat start) (take 10 (obuf wr)) ++ header
             ++ (if small then compressed else []), e1)
         :: (if small then []
             else match e1 with None => [(u, e)] | Some _ => [] end)
       /\ le (leBytes 3 (4 + len body)) = 4 + len body
       /\ le (leBytes 4 (crc crc32c u)) = crc crc32c u
       /\ crc crc32c u = mask (u32 (crc32c u)).
Proof.
  intros Ho Hu Hs.
  destruct (write_block_ok crc32c wr start u Ho Hu Hs)
    as (enc & wr' & e & e1 & Henc & Hdec & Hl & Hrun & Hcalls & _).
  exists enc, wr', e, e1.
  pose proof (MaxEncodedLen_block (len u) ltac:(lia)) as HM.
  pose proof (len_nonneg enc) as He0.
  do 3 (split; [assumption|]). cbv zeta.
  unfold dataChunkHeader, chunkHeader, chunkType, payload in Hcalls.
  rewrite sentRaw_ltb in Hcalls.
  destruct (len enc <? len u - len u / 8); cbn [negb] in Hcalls.
  - split; [exact Hcalls|]. splits.
    + apply le_leBytes. change (256 ^ Z.of_nat 3) with 16777216. lia.
    + apply le_leBytes. apply crc_range.
  - split; [exact Hcalls|]. splits.
    + apply le_leBytes. change (256 ^ Z.of_nat 3) with 16777216. lia.
    + apply le_leBytes. apply crc_range.
Qed.

Lemma C7_data_chunk_witness :
  exists compressed wr' e,
    Encode (drop 18 (obuf (NewWriter 2%nat))) abcd5 = Ok compressed
    /\ write_block crc32Castagnoli (NewWriter 2%nat) 0 abcd5 = Ok (wr', e).
Proof.
  destruct (C7_data_chunk crc32Castagnoli (NewWriter 2%nat) 0 abcd5)
    as (compressed & wr' & e & e1 & H1 & _ & H2 & _).
  - vm_compute. reflexivity.
  - vm_compute. split; discriminate.
  - vm_compute. split; discriminate.
  - exists compressed, wr', e. split; assumption.
Defined.

(** C8, as the specification states it, fails: a buffered writer that has
    nothing buffered and is given a piece of exactly [maxBlockSize] bytes
    copies the piece into its input buffer, which is then full, and calls
    neither the encoder nor the sink: the piece is not passed through, and
    the full buffer is not flushed. *)
Lemma C8_buffered_write_counterexample :
  ibuf (NewBufferedWriter 2%nat) = Some []
  /\ err (NewBufferedWriter 2%nat) = None
  /\ len zeros65536 = maxBlockSize
  /\ exists wr',
       Write crc32Castagnoli (NewBufferedWriter 2%nat) zeros65536
       = Ok (wr', maxBlockSize, None)
       /\ ibuf wr' = Some zeros65536
       /\ calls wr' = [].
Proof.
  assert (Hl : len zeros65536 = 65536) by (apply (len_replicate 65536); lia).
  do 3 (split; [first [reflexivity | exact Hl]|]).
  exists (set_ibuf (NewBufferedWriter 2%nat) (Some ([] ++ zeros65536))).
  split; [|split; reflexivity].
  rewrite (Write_fits crc32Castagnoli (NewBufferedWriter 2%nat) [] zeros65536);
    [rewrite Hl; reflexivity|reflexivity|reflexivity|].
  rewrite Hl, len_nil. lia.
Qed.

(** C8, amended: on a buffered writer without a latched error, whose
    buffer holds [b], [Write p] does the following, with
    [free = maxBlockSize - len b].  When [len p <= free], it appends [p] to
    the buffer and does nothing else, even when that fills the buffer.
    When [len p > free] and the buffer is empty (so [len p > maxBlockSize]),
    it hands [p] to [Writer.write] without copying it, and returns what
    [write] returns.  When [len p > free] and the buffer is not empty, it
    fills the buffer with the first [free] bytes of [p] and flushes it as
    one block of [maxBlockSize] bytes; if that fails it returns [free] and
    the error; else what is left of [p] is buffered when it is at most
    [maxBlockSize] bytes, and handed to [Writer.write] when it is more. *)
Theorem C8_buffered_write_amended {K : Type} {sink_K : Sink K}
        (crc32c : list byte -> Z) (wr : @Writer K) (b p : list byte) :
  len (obuf wr) = obufLen -> ibuf wr = Some b -> len b <= maxBlockSize ->
  err wr = None ->
  let free := maxBlockSize - len b in
  (len p <= free ->
   Write crc32c wr p = Ok (set_ibuf wr (Some (b ++ p)), len p, None))
  /\ (free < len p -> b = [] ->
      exists wr1 n e,
        write crc32c wr p = Ok (wr1, n, e)
        /\ Write crc32c wr p = Ok (wr1, n, e)
        /\ ibuf wr1 = Some [])
  /\ (free < len p -> b <> [] ->
      let full := b ++ sub p 0 free in
      let rest := sub p free (len p) in
      let wrf := set_ibuf wr (Some full) in
      exists wr0 e0 wr1,
        len full = maxBlockSize
        /\ write_block crc32c (fst (withStreamHeader wrf))
                       (snd (withStreamHeader wrf)) full = Ok (wr0, e0)
        /\ wr1 = set_ibuf wr0 (Some [])
        /\ Flush crc32c wrf = Ok (wr1, e0)
        /\ Write crc32c wr p
           = match e0 with
             | Some x => Ok (wr1, free, Some x)
             | None =>
                 if len rest <=? maxBlockSize
                 then Ok (set_ibuf wr1 (Some rest), len p, None)
                 else
                   let* (wr2, n, e) := write crc32c wr1 rest in
                   Ok (wr2, free + n, e)
             end).
Proof.
  change maxBlockSize with 65536.
  intros Ho Hi Hlb E. cbv zeta. pose proof (len_nonneg b) as Hb0.
  splits.
  - intros Hfit. apply Write_fits; assumption.
  - intros Hbig ->. rewrite len_nil in Hbig.
    apply Write_direct; first [assumption | lia].
  - intros Hbig Hne.
    destruct (Write_fill crc32c wr b p Ho Hi Hne Hlb E Hbig)
      as (wr1 & new & Hfl & Hi1 & Ho1 & _ & _ & Hrun).
    assert (Hfull : len (b ++ sub p 0 (65536 - len b)) = 65536)
      by (rewrite len_app, len_sub; lia).
    destruct (Flush_block crc32c
                (set_ibuf wr (Some (b ++ sub p 0 (65536 - len b))))
                (b ++ sub p 0 (65536 - len b)) Ho E eq_refl ltac:(lia))
      as (wr0 & e0 & Hblock & Hfl').
    rewrite Hfl in Hfl'. injection Hfl' as Hwr He.
    exists wr0, e0, wr1. subst e0.
    do 4 (split; [assumption|]). exact Hrun.
Qed.

Lemma C8_buffered_write_amended_witness :
  Write crc32Castagnoli (NewBufferedWriter 2%nat) abcd5
  = Ok (set_ibuf (NewBufferedWriter 2%nat) (Some ([] ++ abcd5)),
        len abcd5, None).
Proof.
  apply (C8_buffered_write_amended crc32Castagnoli (NewBufferedWriter 2%nat)
                                   [] abcd5).
  - vm_compute. reflexivity.
  - reflexivity.
  - vm_compute. discriminate.
  - reflexivity.
  - vm_compute. discriminate.
Defined.

Lemma Close_latched {K : Type} {sink_K : Sink K} (crc32c : list byte -> Z)
      (wr : @Writer K) (x : error) :
  err wr = Some x -> Close crc32c wr = Ok (wr, Some x).
Proof.
  intros E. unfold Close. rewrite (Flush_latched crc32c wr x E).
  cbn [bind]. rewrite E. reflexivity.
Qed.

(** C9: a writer that holds an error returns it from every [Write],
    [Flush] and [Close] and stays as it is, so nothing more reaches the
    sink.  When a call of the sink made by [Write] or [Flush] returns an
    error, the writer holds that error afterwards and the call returns it.
    [Close] flushes, returns the error the writer holds after the flush
    (none when there is none) and, when there is none, leaves the writer
    with [errClosed], which every later [Write], [Flush] and [Close]
    returns. *)
Theorem C9_error_latching {K : Type} {sink_K : Sink K}
        (crc32c : list byte -> Z) (wr : @Writer K) (p : list byte) :
  len (obuf wr) = obufLen -> ibuf_len wr <= maxBlockSize ->
  (forall x, err wr = Some x ->
     Write crc32c wr p = Ok (wr, 0, Some x)
     /\ Flush crc32c wr = Ok (wr, Some x)
     /\ Close crc32c wr = Ok (wr, Some x))
  /\ (exists wr' n e new,
        Write crc32c wr p = Ok (wr', n, e)
        /\ calls wr' = calls wr ++ new
        /\ forall c y, In (c, Some y) new -> e = Some y /\ err wr' = Some y)
  /\ (exists wr' new,
        Flush crc32c wr = Ok (wr', err wr')
        /\ calls wr' = calls wr ++ new
        /\ forall c y, In (c, Some y) new -> err wr' = Some y)
  /\ (exists wr1,
        Flush crc32c wr = Ok (wr1, err wr1)
        /\ (err wr1 = None -> err wr = None)
        /\ Close crc32c wr
           = Ok (match err wr1 with
                 | None => set_err wr1 (Some errClosed)
                 | Some _ => wr1
                 end, err wr1))
  /\ (forall wr2,
        Close crc32c wr = Ok (wr2, None) ->
        err wr2 = Some errClosed
        /\ forall q,
             Write crc32c wr2 q = Ok (wr2, 0, Some errClosed)
             /\ Flush crc32c wr2 = Ok (wr2, Some errClosed)
             /\ Close crc32c wr2 = Ok (wr2, Some errClosed)).
Proof.
  intros Ho Hil. change maxBlockSize with 65536 in Hil.
  destruct (Flush_ok crc32c wr Ho)
    as (wr1 & new1 & Hfl & Hc1 & Hn1 & Hnone & _).
  assert (Hclose : Close crc32c wr
                   = Ok (match err wr1 with
                         | None => set_err wr1 (Some errClosed)
                         | Some _ => wr1
                         end, err wr1)).
  { unfold Close. rewrite Hfl. reflexivity. }
  split; [|split; [|split; [|split]]].
  - intros x E. split; [|split].
    + apply Write_latched. exact E.
    + apply Flush_latched. exact E.
    + apply Close_latched. exact E.
  - destruct (Write_ok crc32c wr p Ho Hil)
      as (wr' & n & e & new & Hrun & Hc & Hn & He & _).
    exists wr', n, e, new. do 2 (split; [assumption|]).
    intros c y Hin. specialize (Hn c y Hin). subst e. auto.
  - exists wr1, new1. auto.
  - exists wr1. auto.
  - intros wr2 H2. rewrite Hclose in H2.
    injection H2 as Hwr He. rewrite He in Hwr. subst wr2.
    assert (E : err (set_err wr1 (Some errClosed)) = Some errClosed)
      by reflexivity.
    split; [exact E|]. intros q. split; [|split].
    + apply Write_latched. exact E.
    + apply Flush_latched. exact E.
    + apply Close_latched. exact E.
Qed.

Lemma C9_error_latching_witness :
  exists wr' n e,
    Write crc32Castagnoli (NewWriter 0%nat) abcd5 = Ok (wr', n, e).
Proof.
  destruct (C9_error_latching crc32Castagnoli (NewWriter 0%nat) abcd5)
    as (_ & (wr' & n & e & new & H & _) & _).
  - vm_compute. reflexivity.
  - vm_compute. discriminate.
  - exists wr', n, e. exact H.
Defined.

(** * Further properties of the code *)

(** ** load32 and load64 *)

Lemma byteZ_drop (b : list byte) (i : Z) (k : nat) :
  0 <= i ->
  byteZ b (i + Z.of_nat k)
  = match drop (Z.to_nat i) b !! k with Some x => b2z x | None => 0 end.
Proof.
  intros Hi. unfold byteZ. rewrite lookup_drop.
  replace (Z.to_nat (i + Z.of_nat k)) with (Z.to_nat i + k)%nat by lia.
  reflexivity.
Qed.

Lemma val32_le (b : list byte) (i : Z) :
  0 <= i -> i + 4 <= len b -> val32 b i = le (sub b i (i + 4)).
Proof.
  intros Hi Hl. unfold val32, sub.
  replace (i + 4 - i) with 4 by lia. change (Z.to_nat 4) with 4%nat.
  replace i with (i + Z.of_nat 0) at 1 by lia.
  change 1 with (Z.of_nat 1) at 1. change 2 with (Z.of_nat 2) at 3.
  change 3 with (Z.of_nat 3).
  rewrite !byteZ_drop by lia.
  assert (Hd : (4 <= length (drop (Z.to_nat i) b))%nat)
    by (rewrite length_drop; unfold len in Hl; lia).
  destruct (drop (Z.to_nat i) b) as [|a0 [|a1 [|a2 [|a3 l]]]];
    try (cbn in Hd; lia).
  cbn [lookup list_lookup take le foldr]. rewrite take_0. cbn [foldr]. pow_consts. lia.
Qed.

(** X1: [load32] and [load64] panic unless the four (eight) bytes from [i]
    lie inside [b], and then read them as a little-endian word; the three
    32-bit windows that [encodeBlock] cuts out of one [load64] at [i] are
    the words [load32] reads at [i], [i + 1] and [i + 2]. *)
Theorem X1_load_words (b : list byte) (i : Z) :
  (0 <= i /\ i + 4 <= len b -> load32 b i = Ok (le (sub b i (i + 4))))
  /\ (~ (0 <= i /\ i + 4 <= len b) -> load32 b i = Panic IndexOutOfRange)
  /\ (~ (0 <= i /\ i + 8 <= len b) -> load64 b i = Panic IndexOutOfRange)
  /\ (0 <= i /\ i + 8 <= len b ->
      exists x,
        load64 b i = Ok x
        /\ x = le (sub b i (i + 4)) + 2 ^ 32 * le (sub b (i + 4) (i + 8))
        /\ load32 b i = Ok (u32 (Z.shiftr x 0))
        /\ load32 b (i + 1) = Ok (u32 (Z.shiftr x 8))
        /\ load32 b (i + 2) = Ok (u32 (Z.shiftr x 16))).
Proof.
  split; [|split; [|split]].
  - intros [Hi Hl]. rewrite load32_val, val32_le by lia. reflexivity.
  - intros Hn. unfold load32, slice.
    destruct (Z.leb_spec 0 i); cbn [andb]; [|reflexivity].
    destruct (Z.leb_spec i (i + 4)); cbn [andb]; [|reflexivity].
    destruct (Z.leb_spec (i + 4) (len b)); [lia|reflexivity].
  - intros Hn. unfold load64, slice.
    destruct (Z.leb_spec 0 i); cbn [andb]; [|reflexivity].
    destruct (Z.leb_spec i (i + 8)); cbn [andb]; [|reflexivity].
    destruct (Z.leb_spec (i + 8) (len b)); [lia|reflexivity].
  - intros [Hi Hl]. exists (val64 b i).
    split; [apply load64_val; lia|]. split; [|split; [|split]].
    + unfold val64. rewrite !val32_le by lia.
      replace (i + 4 + 4) with (i + 8) by lia. reflexivity.
    + rewrite val64_shift0. apply load32_val; lia.
    + rewrite val64_shift8. apply load32_val; lia.
    + rewrite val64_shift16. apply load32_val; lia.
Qed.

(** ** Encode *)

Lemma varintBytes_small (x : Z) : 0 <= x < 128 -> varintBytes 10 x = [u8 x].
Proof.
  intros H. cbn [varintBytes].
  destruct (Z.geb_spec x 128); [lia|reflexivity].
Qed.

Lemma Encode_loop_short (fuel : nat) (src dst0 W : list byte) :
  1 <= len src < 17 -> len W + 1 + len src <= len dst0 ->
  Encode_loop (S fuel) (buffer dst0 W) (len W) src
  = Ok (buffer dst0 (W ++ literalHeader (len src - 1) ++ src),
        len (W ++ literalHeader (len src - 1) ++ src)).
Proof.
  intros Hs Hcap. pose proof (len_nonneg W) as Hw0.
  assert (Hh : len (literalHeader (len src - 1)) = 1).
  { rewrite len_literalHeader. destruct (Z.ltb_spec (len src - 1) 60); [reflexivity|lia]. }
  cbn [Encode_loop].
  destruct (Z.gtb_spec (len src) 0) as [_|]; [|lia].
  change maxBlockSize with 65536. change minNonLiteralBlockSize with 17.
  destruct (Z.gtb_spec (len src) 65536) as [|_]; [lia|].
  cbn [bind].
  rewrite slice_from_buffer by reflexivity. cbn [bind].
  destruct (Z.ltb_spec (len src) 17) as [_|]; [|lia].
  rewrite emitLiteral_ok by (rewrite ?len_drop, ?Hh; lia).
  cbn [bind].
  rewrite (app_assoc (literalHeader (len src - 1))).
  rewrite splice_buffer by (rewrite ?len_app; reflexivity).
  rewrite Encode_loop_nil. rewrite !len_app. do 2 f_equal.
Qed.

(** X2: an input of fewer than 17 bytes is stored as it is: [Encode]
    returns the length byte alone for the empty input, and otherwise the
    length byte, the tag byte [4 * (len src - 1)] of a literal and the
    bytes of [src]; [dst] plays no part in the result. *)
Theorem X2_Encode_short_input (dst src : list byte) :
  len src < 17 ->
  Encode dst src
  = Ok (u8 (len src)
        :: (if len src =? 0 then []
            else u8 (4 * (len src - 1)) :: src)).
Proof.
  intros Hs. pose proof (len_nonneg src) as H0.
  assert (HM : MaxEncodedLen (len src) = 32 + len src + len src / 6)
    by (apply MaxEncodedLen_eq; dlia).
  unfold Encode, Encode_buf. cbv zeta. rewrite HM.
  destruct (Z.ltb_spec (32 + len src + len src / 6) 0) as [|_]; [dlia|].
  set (buf := if len dst <? 32 + len src + len src / 6
              then replicate (Z.to_nat (32 + len src + len src / 6)) x00
              else dst).
  assert (Hbuf : 32 + len src + len src / 6 <= len buf).
  { unfold buf.
    destruct (Z.ltb_spec (len dst) (32 + len src + len src / 6)).
    - rewrite len_replicate by dlia. lia.
    - assumption. }
  assert (Hrun : forall own : bool,
             (let* (dst0, d) := PutUvarint buf (u64 (len src)) in
              let* (dst1, d0) := Encode_loop (length src) dst0 d src in
              Ok (dst1, d0, own))
             = Ok (buffer buf
                     (u8 (len src)
                      :: (if len src =? 0 then []
                          else u8 (4 * (len src - 1)) :: src)),
                   len (u8 (len src)
                        :: (if len src =? 0 then []
                            else u8 (4 * (len src - 1)) :: src)), own)).
  { intros own. rewrite u64_small by lia.
    rewrite PutUvarint_ok by dlia.
    rewrite varintBytes_small by lia. cbn [bind].
    fold (buffer buf [u8 (len src)]).
    destruct (Z.eqb_spec (len src) 0) as [Hz|Hnz].
    - apply len_0_nil in Hz. subst src. rewrite Encode_loop_nil. reflexivity.
    - destruct (length src) as [|fuel] eqn:El; [unfold len in Hnz; lia|].
      rewrite Encode_loop_short by (rewrite ?len_1; dlia).
      cbn [bind]. unfold literalHeader.
      destruct (Z.ltb_spec (len src - 1) 60); [|lia].
      reflexivity. }
  destruct (len dst <? 32 + len src + len src / 6); rewrite Hrun; cbn [bind];
    unfold buffer; apply slice_0_app; reflexivity.
Qed.

Lemma X2_Encode_short_input_witness :
  Encode room55 ["h"; "i"]%byte = Ok [x02; x04; "h"; "i"]%byte.
Proof.
  apply (X2_Encode_short_input room55 ["h"; "i"]%byte).
  vm_compute. reflexivity.
Defined.

(** X3: [Encode] panics with [ErrTooLarge] exactly when
    [32 + len src + len src / 6] exceeds [2^32 - 1]; for every other input
    it returns a block, so that none of its bounds checks fails, whatever
    [dst] is. *)
Theorem X3_Encode_too_large (dst src : list byte) :
  len src < 2 ^ 63 ->
  (0xffffffff < 32 + len src + len src / 6 ->
   Encode dst src = Panic ErrTooLarge)
  /\ (32 + len src + len src / 6 <= 0xffffffff ->
      exists enc, Encode dst src = Ok enc /\ 1 <= len enc).
Proof.
  intros Hint. pose proof (len_nonneg src) as H0. split.
  - intros Hbig. unfold Encode, Encode_buf. cbv zeta.
    rewrite MaxEncodedLen_neg by lia. reflexivity.
  - intros Hok.
    assert (HM : MaxEncodedLen (len src) = 32 + len src + len src / 6)
      by (apply MaxEncodedLen_eq; dlia).
    destruct (Encode_ok dst src Hint ltac:(rewrite HM; dlia))
      as (cs & Henc & _ & _).
    eexists. split; [exact Henc|].
    rewrite len_app. pose proof (len_varintBytes 10 (len src)).
    pose proof (len_nonneg (chunksBytes cs)). lia.
Qed.

Lemma X3_Encode_too_large_witness :
  exists enc, Encode [] abcd5 = Ok enc /\ 1 <= len enc.
Proof.
  apply (X3_Encode_too_large [] abcd5).
  - vm_compute. reflexivity.
  - vm_compute. discriminate.
Defined.

(** X4: when [dst] has at least [MaxEncodedLen (len src)] bytes, [Encode]
    writes the block at the front of [dst], leaves the bytes of [dst] after
    it as they were and returns that front; when [dst] is shorter, [Encode]
    returns the front of a new buffer of [MaxEncodedLen (len src)] bytes. *)
Theorem X4_Encode_reuses_dst (dst src : list byte) :
  len src < 2 ^ 63 -> 0 <= MaxEncodedLen (len src) ->
  exists enc,
    Encode dst src = Ok enc
    /\ (MaxEncodedLen (len src) <= len dst ->
        Encode_buf dst src
        = Ok (enc ++ drop (Z.to_nat (len enc)) dst, len enc, true))
    /\ (len dst < MaxEncodedLen (len src) ->
        exists buf,
          Encode_buf dst src = Ok (buf, len enc, false)
          /\ len buf = MaxEncodedLen (len src)
          /\ take (Z.to_nat (len enc)) buf = enc).
Proof.
  intros Hint Hacc.
  destruct (Encode_buf_ok dst src Hint Hacc) as (cs & Hbuf & _ & Hl).
  cbv zeta in Hbuf.
  set (enc := varintBytes 10 (len src) ++ chunksBytes cs) in *.
  pose proof (len_nonneg enc) as He0.
  exists enc. split; [|split].
  - unfold Encode. rewrite Hbuf. cbn [bind]. unfold buffer.
    apply slice_0_app. reflexivity.
  - intros Hbig. rewrite Hbuf.
    destruct (Z.ltb_spec (len dst) (MaxEncodedLen (len src))); [lia|].
    reflexivity.
  - intros Hsmall. rewrite Hbuf.
    destruct (Z.ltb_spec (len dst) (MaxEncodedLen (len src))); [|lia].
    eexists. split; [reflexivity|]. split.
    + rewrite len_buffer; rewrite len_replicate by lia; lia.
    + unfold buffer, len. rewrite Nat2Z.id. apply take_app_length.
Qed.

Lemma X4_Encode_reuses_dst_witness :
  exists enc,
    Encode room55 abcd5 = Ok enc
    /\ Encode_buf room55 abcd5
       = Ok (enc ++ drop (Z.to_nat (len enc)) room55, len enc, true).
Proof.
  destruct (X4_Encode_reuses_dst room55 abcd5) as (enc & H1 & H2 & _).
  - vm_compute. reflexivity.
  - vm_compute. discriminate.
  - exists enc. split; [exact H1|]. apply H2. vm_compute. discriminate.
Defined.

(** ** encodeBlock *)

(** X5: [encodeBlock] needs no more room than
    [len src + len src / 64 + 3] bytes: with that much, it writes at most
    that many bytes at the front of [dst], leaves the rest of [dst] as it
    was, and the bytes written read back as chunks whose lengths add up to
    [len src] and that decode to [src]. *)
Theorem X5_encodeBlock_room (dst src : list byte) :
  17 <= len src <= 65536 -> len src + len src / 64 + 3 <= len dst ->
  exists enc cs,
    encodeBlock dst src
    = Ok (enc ++ drop (Z.to_nat (len enc)) dst, len enc)
    /\ len enc <= len src + len src / 64 + 3
    /\ parseChunks (length enc) enc = Some cs
    /\ chunksLen cs = len src
    /\ execChunks cs [] = Some src.
Proof.
  intros Hsrc Hcap.
  destruct (encodeBlock_run_ok dst src Hsrc Hcap)
    as (log & Hrun & Htr & Hlen).
  exists (written src log), (logChunks src log).
  split; [|split; [|split; [|split]]].
  - unfold encodeBlock. rewrite Hrun. reflexivity.
  - exact Hlen.
  - apply parse_chunksBytes. eapply wire_trace. exact Htr.
  - eapply chunksLen_trace. exact Htr.
  - rewrite (exec_trace _ _ _ Htr). cbn [app].
    rewrite take_ge by (unfold len; lia). reflexivity.
Qed.

Lemma X5_encodeBlock_room_witness :
  exists enc, encodeBlock (replicate 23 x00) abcd5
              = Ok (enc ++ drop (Z.to_nat (len enc)) (replicate 23 x00),
                    len enc).
Proof.
  destruct (X5_encodeBlock_room (replicate 23 x00) abcd5)
    as (enc & cs & H & _).
  - vm_compute. split; discriminate.
  - vm_compute. discriminate.
  - exists enc. exact H.
Defined.

(** ** emitLiteral *)

Lemma copy_min {A} (d s : list A) :
  copy d s
  = (take (Z.to_nat (len d)) s ++ drop (Z.to_nat (len s)) d,
     Z.min (len d) (len s)).
Proof.
  unfold copy. destruct (Z.le_gt_cases (len d) (len s)) as [H|H].
  - rewrite Z.min_l by lia. do 2 f_equal.
    rewrite !drop_ge by (unfold len in *; lia). reflexivity.
  - rewrite Z.min_r by lia. do 2 f_equal.
    rewrite !take_ge by (unfold len in *; lia). reflexivity.
Qed.

Lemma store_short {A} (l : list A) (i : Z) (x : A) :
  len l <= i -> store l i x = Panic IndexOutOfRange.
Proof.
  intros H. unfold store.
  destruct (Z.ltb_spec i (len l)); [lia|]. rewrite andb_false_r. reflexivity.
Qed.

(** X6: [emitLiteral] panics when [dst] cannot hold the header of the
    literal.  When [dst] holds the header but not the whole literal,
    [emitLiteral] does not panic: it writes the header and as many bytes of
    the literal as fit, and returns [len dst]; the chunk it leaves
    announces more bytes than it holds. *)
Theorem X6_emitLiteral_short_dst (dst lit : list byte) :
  1 <= len lit <= 65536 ->
  let header := literalHeader (len lit - 1) in
  (len dst < len header -> emitLiteral dst lit = Panic IndexOutOfRange)
  /\ (len header <= len dst ->
      emitLiteral dst lit
      = Ok (header ++ take (Z.to_nat (len dst - len header)) lit
            ++ drop (Z.to_nat (len header + len lit)) dst,
            Z.min (len dst) (len header + len lit))).
Proof.
  intros Hlit. cbv zeta. unfold emitLiteral.
  rewrite u64_small by lia.
  rewrite len_literalHeader. unfold literalHeader.
  set (n := len lit - 1) in *. change (2 ^ 8) with 256.
  pose proof (len_nonneg lit) as Hl0. pose proof (len_nonneg dst) as Hd0.
  destruct (Z.ltb_spec n 60) as [E1|E1];
    [|destruct (Z.ltb_spec n 256) as [E2|E2]].
  - split; intros Hdst.
    + rewrite store_short by lia. reflexivity.
    + destruct dst as [|x0 dst]; [rewrite len_nil in Hdst; lia|].
      rewrite len_cons. pose proof (len_nonneg dst).
      rewrite store_0. cbn [bind]. rewrite slice_from_1. cbn [bind].
      rewrite copy_min. unfold splice. change (Z.to_nat 1) with 1%nat.
      cbn [take app]. rewrite tag_literal by lia.
      replace (Z.to_nat (1 + len lit)) with (S (Z.to_nat (len lit))) by lia.
      rewrite ?take_0. cbn [app drop].
      replace (1 + len dst - 1) with (len dst) by lia.
      replace (1 + (1 + len dst) - 2) with (len dst) by lia.
      replace (1 + (1 + (1 + len dst)) - 3) with (len dst) by lia.
      res_eq.
  - split; intros Hdst.
    + destruct dst as [|x0 dst].
      * rewrite store_short by (rewrite len_nil; lia). reflexivity.
      * rewrite len_cons in Hdst. pose proof (len_nonneg dst).
        rewrite store_0. cbn [bind].
        rewrite store_short by (rewrite len_cons; lia). reflexivity.
    + destruct dst as [|x0 [|x1 dst]];
        rewrite ?len_cons, ?len_nil in Hdst; try lia.
      rewrite !len_cons. pose proof (len_nonneg dst).
      rewrite store_0. cbn [bind]. rewrite store_1. cbn [bind].
      rewrite slice_from_2. cbn [bind].
      rewrite copy_min. unfold splice. change (Z.to_nat 2) with 2%nat.
      cbn [take app].
      replace (Z.to_nat (2 + len lit)) with (S (S (Z.to_nat (len lit)))) by lia.
      rewrite ?take_0. cbn [app drop].
      replace (1 + len dst - 1) with (len dst) by lia.
      replace (1 + (1 + len dst) - 2) with (len dst) by lia.
      replace (1 + (1 + (1 + len dst)) - 3) with (len dst) by lia.
      res_eq.
  - split; intros Hdst.
    + destruct dst as [|x0 [|x1 dst]].
      * rewrite store_short by (rewrite len_nil; lia). reflexivity.
      * rewrite store_0. cbn [bind].
        rewrite store_short by (rewrite len_1; lia). reflexivity.
      * rewrite !len_cons in Hdst. pose proof (len_nonneg dst).
        rewrite store_0. cbn [bind]. rewrite store_1. cbn [bind].
        rewrite store_short by (rewrite !len_cons; lia). reflexivity.
    + destruct dst as [|x0 [|x1 [|x2 dst]]];
        rewrite ?len_cons, ?len_nil in Hdst; try lia.
      rewrite !len_cons. pose proof (len_nonneg dst).
      rewrite store_0. cbn [bind]. rewrite store_1. cbn [bind].
      rewrite store_2. cbn [bind].
      rewrite slice_from_3. cbn [bind].
      rewrite copy_min. unfold splice. change (Z.to_nat 3) with 3%nat.
      cbn [take app]. rewrite (u8_low n), (u8_high n).
      replace (Z.to_nat (3 + len lit))
        with (S (S (S (Z.to_nat (len lit))))) by lia.
      rewrite ?take_0. cbn [app drop].
      replace (1 + len dst - 1) with (len dst) by lia.
      replace (1 + (1 + len dst) - 2) with (len dst) by lia.
      replace (1 + (1 + (1 + len dst)) - 3) with (len dst) by lia.
      res_eq.
Qed.

Lemma X6_emitLiteral_short_dst_witness :
  emitLiteral [x00; x00; x00]%byte abcd5 = Ok ([x4c; "a"; "b"]%byte, 3).
Proof.
  pose proof (X6_emitLiteral_short_dst [x00; x00; x00]%byte abcd5) as H.
  cbv zeta in H. destruct H as [_ H].
  - vm_compute. split; discriminate.
  - rewrite H by (vm_compute; discriminate). vm_compute. reflexivity.
Defined.

(** ** The framed writer *)

Section WriterExtras.

Context {K : Type} {sink_K : Sink K}.
Variable crc32c : list byte -> Z.


End WriterExtras.



(** X8: [Write] returns, whatever the writer holds: it reports between 0
    and [len p] bytes, all of them when it returns no error, so that it
    returns an error whenever it reports fewer; and it keeps the sizes of
    the buffers of the writer, so that calls can follow one another. *)
Theorem X8_Write_count {K : Type} {sink_K : Sink K}
        (crc32c : list byte -> Z) (wr : @Writer K) (p : list byte) :
  len (obuf wr) = obufLen -> ibuf_len wr <= maxBlockSize ->
  exists wr' n e,
    Write crc32c wr p = Ok (wr', n, e)
    /\ 0 <= n <= len p
    /\ (e = None -> n = len p)
    /\ (n < len p -> e <> None)
    /\ len (obuf wr') = obufLen
    /\ ibuf_len wr' <= maxBlockSize.
Proof.
  change maxBlockSize with 65536. intros Ho Hil.
  destruct (Write_ok crc32c wr p Ho Hil)
    as (wr' & n & e & new & Hrun & _ & _ & _ & Ho' & Hil').
  exists wr', n, e. split; [exact Hrun|].
  pose proof (len_nonneg p) as Hp0.
  assert (Hcount : 0 <= n <= len p /\ (e = None -> n = len p)).
  { destruct (err wr) as [x|] eqn:E.
    { rewrite (Write_latched crc32c wr p x E) in Hrun.
      injection Hrun as _ <- <-. split; [lia|discriminate]. }
    destruct (ibuf wr) as [b|] eqn:Hi.
    2:{ unfold Write in Hrun. rewrite Hi in Hrun.
        destruct (write_ok crc32c wr p Ho)
          as (wr1 & n1 & e1 & new1 & Hw & _ & _ & _ & _ & _ & Hb & Hd).
        rewrite Hw in Hrun. injection Hrun as _ <- <-. auto. }
    unfold ibuf_len in Hil. rewrite Hi in Hil.
    pose proof (len_nonneg b) as Hb0.
    destruct (Z.le_gt_cases (len p) (65536 - len b)) as [Hfit|Hbig].
    { rewrite (Write_fits crc32c wr b p Hi E Hfit) in Hrun.
      injection Hrun as _ <- <-. split; [lia|reflexivity]. }
    destruct b as [|b0 b].
    { destruct (Write_direct crc32c wr p Ho Hi E
                  ltac:(rewrite len_nil in Hbig; lia))
        as (wr1 & n1 & e1 & Hw & Hrun1 & _).
      rewrite Hrun1 in Hrun. injection Hrun as _ <- <-.
      destruct (write_ok crc32c wr p Ho)
        as (wr2 & n2 & e2 & new2 & Hw2 & _ & _ & _ & _ & _ & Hb & Hd).
      rewrite Hw in Hw2. injection Hw2 as _ <- <-. auto. }
    destruct (Write_fill crc32c wr (b0 :: b) p Ho Hi ltac:(discriminate)
                Hil E Hbig)
      as (wr1 & new1 & _ & Hi1 & Ho1 & _ & _ & Hrun1).
    rewrite Hrun1 in Hrun.
    assert (Hrest : len (sub p (65536 - len (b0 :: b)) (len p))
                    = len p - (65536 - len (b0 :: b)))
      by (rewrite len_sub; lia).
    destruct (err wr1) as [x|].
    { injection Hrun as _ <- <-. split; [lia|discriminate]. }
    destruct (Z.leb_spec (len (sub p (65536 - len (b0 :: b)) (len p))) 65536).
    { injection Hrun as _ <- <-. split; [lia|reflexivity]. }
    destruct (write_ok crc32c wr1 (sub p (65536 - len (b0 :: b)) (len p)) Ho1)
      as (wr2 & n2 & e2 & new2 & Hw2 & _ & _ & _ & _ & _ & Hb & Hd).
    rewrite Hw2 in Hrun. cbn [bind] in Hrun. injection Hrun as _ <- <-.
    split; [lia|]. intros E2. specialize (Hd E2). lia. }
  destruct Hcount as (Hb & Hd).
  split; [exact Hb|]. split; [exact Hd|]. split; [|split; assumption].
  intros Hlt E. specialize (Hd E). lia.
Qed.

Lemma X8_Write_count_witness :
  exists wr' n e,
    Write crc32Castagnoli (NewBufferedWriter 0%nat) abcd5 = Ok (wr', n, e)
    /\ 0 <= n <= len abcd5.
Proof.
  destruct (X8_Write_count crc32Castagnoli (NewBufferedWriter 0%nat) abcd5)
    as (wr' & n & e & H1 & H2 & _).
  - vm_compute. reflexivity.
  - vm_compute. discriminate.
  - exists wr', n, e. split; assumption.
Defined.












(** ** encodeBlock outside its precondition *)

Lemma load32_short (b : list byte) (i : Z) :
  len b < i + 4 -> load32 b i = Panic IndexOutOfRange.
Proof.
  intros H. unfold load32, slice.
  destruct (Z.leb_spec (i + 4) (len b)); [lia|].
  rewrite andb_false_r. reflexivity.
Qed.

Lemma slice_from_0 {A} (l : list A) : slice_from l 0 = Ok l.
Proof. apply (slice_from_app [] l 0). reflexivity. Qed.

(** X13: [encodeBlock] is not meant for blocks of fewer than 17 bytes,
    which [Encode] emits as literals itself.  Called on fewer than 5 bytes
    it panics, at its first [load32]; called on 5 to 16 bytes, with room
    for them and one more byte, it finds no room to look for a match and
    writes what [emitLiteral] would write: one literal that holds the
    block. *)
Theorem X13_encodeBlock_short_block (dst src : list byte) :
  (len src < 5 -> encodeBlock dst src = Panic IndexOutOfRange)
  /\ (5 <= len src < 17 -> 1 + len src <= len dst ->
      encodeBlock dst src
      = Ok (u8 (4 * (len src - 1)) :: src
            ++ drop (Z.to_nat (1 + len src)) dst, 1 + len src)
      /\ encodeBlock dst src = emitLiteral dst src).
Proof.
  pose proof (len_nonneg src) as H0.
  assert (Htp : len src < 17 -> tableParams (len src) = Ok (24, 256)).
  { intros H. unfold tableParams. rewrite tableSize_loop_stop; [reflexivity|].
    right. change (Z.shiftl 1 8) with 256. lia. }
  split.
  - intros Hs. unfold encodeBlock, encodeBlock_run.
    rewrite Htp by lia. cbn [bind].
    rewrite load32_short by lia. reflexivity.
  - intros Hs Hcap.
    assert (Hh : len (literalHeader (len src - 1)) = 1).
    { rewrite len_literalHeader.
      destruct (Z.ltb_spec (len src - 1) 60); [reflexivity|lia]. }
    assert (Hlit : emitLiteral dst src
                   = Ok (u8 (4 * (len src - 1)) :: src
                         ++ drop (Z.to_nat (1 + len src)) dst, 1 + len src)).
    { rewrite emitLiteral_ok by (rewrite ?Hh; lia). rewrite Hh.
      unfold literalHeader.
      destruct (Z.ltb_spec (len src - 1) 60); [reflexivity|lia]. }
    assert (Hrun : encodeBlock dst src = emitLiteral dst src).
    { unfold encodeBlock, encodeBlock_run.
      rewrite Htp by lia. cbn [bind].
      rewrite load32_val by lia. cbn [bind].
      destruct (length src) as [|fuel] eqn:El; [unfold len in Hs; lia|].
      cbn [mainLoop]. rewrite El. cbn [search].
      change (Z.shiftr 32 5) with 1. change inputMargin with 15.
      destruct (Z.gtb_spec (1 + 1) (len src - 15)) as [_|]; [|lia].
      cbn [bind].
      destruct (Z.ltb_spec 0 (len src)) as [_|]; [|lia].
      rewrite !slice_from_0. cbn [bind].
      rewrite Hlit. cbn [bind]. unfold splice.
      change (Z.to_nat 0) with 0%nat. rewrite take_0. reflexivity. }
    split; [rewrite Hrun; exact Hlit|exact Hrun].
Qed.

(** ** emitCopy and the decoder *)

(** X14: when the [n >= 4] bytes of [src] from [base] repeat those from an
    earlier position [candidate], at most 65535 bytes back, the bytes that
    [emitCopy dst (base - candidate) n] writes read back as copy chunks
    that make a decoder holding [src[:base]] hold [src[:base + n]]: however
    the copy is cut into chunks, and even when it overlaps the bytes it
    produces, it restores those [n] bytes. *)
Theorem X14_emitCopy_decodes (dst src : list byte) (base candidate n : Z) :
  matches src base candidate n ->
  base - candidate <= 65535 -> 4 <= n <= 65535 ->
  len (chunksBytes (copyChunks (base - candidate) n)) <= len dst ->
  exists enc cs,
    emitCopy dst (base - candidate) n
    = Ok (enc ++ drop (Z.to_nat (len enc)) dst, len enc)
    /\ parseChunks (length enc) enc = Some cs
    /\ chunksLen cs = n
    /\ execChunks cs (take (Z.to_nat base) src)
       = Some (take (Z.to_nat (base + n)) src).
Proof.
  intros Hm Ho Hn Hcap.
  assert (Hoff : 1 <= base - candidate <= 65535)
    by (destruct Hm as (Hc & _); lia).
  exists (chunksBytes (copyChunks (base - candidate) n)),
    (copyChunks (base - candidate) n).
  split; [|split; [|split]].
  - apply emitCopy_ok; assumption.
  - apply parse_chunksBytes. apply wire_copyChunks; lia.
  - apply chunksLen_copyChunks. lia.
  - apply (exec_copyChunks [] src base candidate n Hm). lia.
Qed.

Lemma X14_emitCopy_decodes_witness :
  exists enc cs,
    emitCopy room55 (4 - 0) 4
    = Ok (enc ++ drop (Z.to_nat (len enc)) room55, len enc)
    /\ parseChunks (length enc) enc = Some cs
    /\ chunksLen cs = 4
    /\ execChunks cs (take (Z.to_nat 4) abcd5)
       = Some (take (Z.to_nat (4 + 4)) abcd5).
Proof.
  apply (X14_emitCopy_decodes room55 abcd5 4 0 4).
  - unfold matches. split; [lia|]. split; [lia|].
    split; [vm_compute; discriminate|].
    intros k Hk.
    assert (Hc : k = 0 \/ k = 1 \/ k = 2 \/ k = 3) by lia.
    destruct Hc as [-> | [-> | [-> | ->]]]; reflexivity.
  - lia.
  - lia.
  - vm_compute. discriminate.
Defined.

